(** * sf-version-watch: a shallow embedding of [main.go] and its properties

    The program checks that a list of Salesforce instances report an expected
    release number.  Go strings are byte sequences: they are modelled by
    [string], whose characters ([ascii]) are the 256 byte values.

    - The functions of [main.go] keep their names: [fetchStatus],
      [compareReleaseNumbers], [parseInstances], [filterEmptyStrings],
      [processResults].  What they use of the packages [strings] and
      [encoding/json] is modelled on bytes in the modules [Strings] and
      [Json].
    - The network is a function [httpGet] from the URL to what [http.Get]
      returns: every request returns.  The text of the errors of the JSON
      decoder is a function [jsonErrorText].
    - [main] and its goroutines are a step function on a [state] that holds
      the WaitGroup counter and the channel; a schedule picks the thread that
      moves.  [step] is the process from line 63 on, with the two flags
      [flag.Parse] has returned.
    - The command line is parsed by [Flag.Parse], the [flag] package as far
      as [main.go] uses it; [stepProcess] is the whole process, which begins
      with [flag.Parse] and may exit inside it. *)

From Stdlib Require Import ZArith Ascii String List Bool Lia Permutation.
From stdpp Require Import base list relations.

#[local] Set Warnings "-register-all".

Open Scope string_scope.
Open Scope list_scope.

(** String concatenation, kept apart from the [++] of lists. *)
Infix "+:+" := String.append (at level 60, right associativity).

(** The quotation mark, byte 34.  The JSON texts of this file are written
    with an apostrophe in the place of each quotation mark: [json] puts the
    quotation marks back. *)
Definition dquote : ascii := ascii_of_N 34.

Definition quote : string := String dquote EmptyString.

Fixpoint json (s : string) : string :=
  match s with
  | EmptyString => EmptyString
  | String c r => String (if Ascii.eqb c "'" then dquote else c) (json r)
  end.

(** ** The [strings] package, as far as [main.go] uses it *)

Module Strings.

(** Byte with the given code. *)
Definition byte (n : N) : ascii := ascii_of_N n.

Definition code (c : ascii) : N := N_of_ascii c.

(** The Unicode white space code points ([unicode.IsSpace]) in their UTF-8
    encodings: one byte for '\t' '\n' '\v' '\f' '\r' ' ', two bytes for
    U+0085 and U+00A0, three bytes for U+1680, U+2000..U+200A, U+2028,
    U+2029, U+202F, U+205F and U+3000. *)
Definition isSpace1 (c : ascii) : bool :=
  let n := code c in
  ((9 <=? n) && (n <=? 13) || (n =? 32))%N.

Definition isSpace2 (c1 c2 : ascii) : bool :=
  ((code c1 =? 194) && ((code c2 =? 133) || (code c2 =? 160)))%N.

Definition isSpace3 (c1 c2 c3 : ascii) : bool :=
  let n1 := code c1 in
  let n2 := code c2 in
  let n3 := code c3 in
  ((n1 =? 225) && (n2 =? 154) && (n3 =? 128)
   || (n1 =? 226) && (n2 =? 128)
      && ((128 <=? n3) && (n3 <=? 138) || (n3 =? 168) || (n3 =? 169) || (n3 =? 175))
   || (n1 =? 226) && (n2 =? 129) && (n3 =? 159)
   || (n1 =? 227) && (n2 =? 128) && (n3 =? 128))%N.

Section Trim.

(** Which sequences of one, two and three bytes are cut off. *)
Variable p1 : ascii -> bool.
Variable p2 : ascii -> ascii -> bool.
Variable p3 : ascii -> ascii -> ascii -> bool.

(** Drops the sequences at the head of [s], one after the other, until
    none is left there. *)
Fixpoint trimLeftBy (s : string) : string :=
  match s with
  | EmptyString => EmptyString
  | String c1 r1 =>
      if p1 c1 then trimLeftBy r1
      else
        match r1 with
        | String c2 r2 =>
            if p2 c1 c2 then trimLeftBy r2
            else
              match r2 with
              | String c3 r3 =>
                  if p3 c1 c2 c3 then trimLeftBy r3 else s
              | EmptyString => s
              end
        | EmptyString => s
        end
  end.

(** [s] begins with one of the sequences. *)
Definition startsWithBy (s : string) : bool :=
  match s with
  | EmptyString => false
  | String c1 r1 =>
      p1 c1
      || match r1 with
         | String c2 r2 =>
             p2 c1 c2
             || match r2 with
                | String c3 _ => p3 c1 c2 c3
                | EmptyString => false
                end
         | EmptyString => false
         end
  end.

(** [s] is made of the sequences alone. *)
Inductive RunOf : string -> Prop :=
| run_nil : RunOf EmptyString
| run_1 c1 r : p1 c1 = true -> RunOf r -> RunOf (String c1 r)
| run_2 c1 c2 r : p2 c1 c2 = true -> RunOf r -> RunOf (String c1 (String c2 r))
| run_3 c1 c2 c3 r :
    p3 c1 c2 c3 = true -> RunOf r -> RunOf (String c1 (String c2 (String c3 r))).

End Trim.

(** [strings.TrimLeftFunc s unicode.IsSpace]: decode runes from the front
    and drop them while they are white space.  An invalid byte decodes to
    U+FFFD, which is not white space, so trimming stops there. *)
Definition TrimLeftSpace (s : string) : string :=
  trimLeftBy isSpace1 isSpace2 isSpace3 s.

(** The encodings read backwards, last byte first. *)
Definition isSpace2Rev (c2 c1 : ascii) : bool := isSpace2 c1 c2.
Definition isSpace3Rev (c3 c2 c1 : ascii) : bool := isSpace3 c1 c2 c3.

Fixpoint revAppend (s acc : string) : string :=
  match s with
  | EmptyString => acc
  | String c r => revAppend r (String c acc)
  end.

Definition reverse (s : string) : string := revAppend s EmptyString.

(** [strings.TrimRightFunc s unicode.IsSpace]: decode runes from the back
    ([utf8.DecodeLastRuneInString]) and drop them while they are white
    space. *)
Definition TrimRightSpace (s : string) : string :=
  reverse (trimLeftBy isSpace1 isSpace2Rev isSpace3Rev (reverse s)).

(** [strings.TrimSpace]: "returns a slice of the string s, with all leading
    and trailing white space removed, as defined by Unicode". *)
Definition TrimSpace (s : string) : string :=
  TrimRightSpace (TrimLeftSpace s).

(** The string begins, or ends, with white space. *)
Definition startsWithSpace (s : string) : bool :=
  startsWithBy isSpace1 isSpace2 isSpace3 s.

Definition endsWithSpace (s : string) : bool :=
  startsWithBy isSpace1 isSpace2Rev isSpace3Rev (reverse s).

(** The string holds white space alone (the empty string does). *)
Definition WhitespaceOnly (s : string) : Prop :=
  RunOf isSpace1 isSpace2 isSpace3 s.

(** [strings.Split s sep] for a separator of one byte, which is how
    [parseInstances] calls it: the pieces between the separators, in
    order; a string without separator is its own single piece. *)
Fixpoint Split (s : string) (sep : ascii) : list string :=
  match s with
  | EmptyString => [EmptyString]
  | String c r =>
      if Ascii.eqb c sep then EmptyString :: Split r sep
      else
        match Split r sep with
        | p :: ps => String c p :: ps
        | [] => [String c EmptyString]
        end
  end.

(** [strings.HasPrefix s prefix]: [s] begins with [prefix]. *)
Fixpoint HasPrefix (s prefix : string) {struct prefix} : bool :=
  match prefix with
  | EmptyString => true
  | String p prefix' =>
      match s with
      | String c r => Ascii.eqb c p && HasPrefix r prefix'
      | EmptyString => false
      end
  end.

(** [strings.Contains s substr]: [substr] occurs within [s], at its head
    or further on. *)
Fixpoint Contains (s substr : string) : bool :=
  HasPrefix s substr
  || match s with
     | EmptyString => false
     | String _ r => Contains r substr
     end.

(** Whether the byte [c] occurs in [s]. *)
Fixpoint occurs (c : ascii) (s : string) : bool :=
  match s with
  | EmptyString => false
  | String d r => Ascii.eqb d c || occurs c r
  end.

(** [strings.Join] with a one byte separator, the inverse of [Split]. *)
Fixpoint Join (l : list string) (sep : ascii) : string :=
  match l with
  | [] => EmptyString
  | [p] => p
  | p :: ps => p +:+ String sep (Join ps sep)
  end.

End Strings.

(** ** [parseInstances] and [filterEmptyStrings] (main.go, lines 93-108) *)

(** The loop of [filterEmptyStrings]: [filtered] is the slice built so far,
    [append] adds at its end. *)
Fixpoint filterEmptyStrings_loop (slice filtered : list string) : list string :=
  match slice with
  | [] => filtered
  | s :: rest =>
      let trimmed := Strings.TrimSpace s in
      if negb (String.eqb trimmed "")
      then filterEmptyStrings_loop rest (filtered ++ [trimmed])
      else filterEmptyStrings_loop rest filtered
  end.

Definition filterEmptyStrings (slice : list string) : list string :=
  filterEmptyStrings_loop slice [].

Definition parseInstances (instanceFlag : string) : list string :=
  let instances := Strings.Split instanceFlag "," in
  filterEmptyStrings instances.

(** ** The [encoding/json] decoder, as far as [fetchStatus] uses it *)

Module Json.

Import Strings.

Inductive value : Type :=
| Null
| Bool (b : bool)
| Number (lit : string)
| Str (s : string)
| Array (items : list value)
| Object (members : list (string * value)).

(** The JSON kinds, as [UnmarshalTypeError.Value] names them. *)
Inductive kind := KBool | KNumber | KString | KArray | KObject.

(** The errors [Decoder.Decode] returns: [io.EOF] (nothing but white space
    in the body), [io.ErrUnexpectedEOF] (the body ends inside a value), a
    [*SyntaxError] and an [*UnmarshalTypeError]. *)
Inductive error :=
| EOF
| UnexpectedEOF
| SyntaxError
| UnmarshalTypeError (k : kind).

Inductive scan (A : Type) : Type :=
| Ok (a : A) (rest : string)
| Fail (e : error)
| OutOfFuel.
Arguments Ok {A} a rest.
Arguments Fail {A} e.
Arguments OutOfFuel {A}.

(** The scan did not run out of fuel, and what it left is no longer than
    [n]. *)
Definition within {A : Type} (n : nat) (r : scan A) : Prop :=
  match r with
  | Ok _ rest => String.length rest <= n
  | Fail _ => True
  | OutOfFuel => False
  end.

Definition maxNestingDepth : N := 10000.

Definition isChar (c : ascii) (d : string) : bool :=
  match d with
  | String d0 EmptyString => Ascii.eqb c d0
  | _ => false
  end.

(** scanner.go, [isSpace]. *)
Definition isSpace (c : ascii) : bool :=
  isChar c " " || (code c =? 9)%N || (code c =? 13)%N || (code c =? 10)%N.

Fixpoint skipSpace (s : string) : string :=
  match s with
  | String c r => if isSpace c then skipSpace r else s
  | EmptyString => EmptyString
  end.

Definition isDigit (c : ascii) : bool := ((48 <=? code c) && (code c <=? 57))%N.

Definition hexVal (c : ascii) : option N :=
  let n := code c in
  if ((48 <=? n) && (n <=? 57))%N then Some (n - 48)%N
  else if ((97 <=? n) && (n <=? 102))%N then Some (n - 87)%N
  else if ((65 <=? n) && (n <=? 70))%N then Some (n - 55)%N
  else None.

Definition isHex (c : ascii) : bool :=
  match hexVal c with Some _ => true | None => false end.

(** *** String literals *)

(** The bytes that may follow a backslash, [u] apart. *)
Definition isSimpleEscape (c : ascii) : bool :=
  isChar c "b" || isChar c "f" || isChar c "n" || isChar c "r" || isChar c "t"
  || isChar c "\" || isChar c "/" || isChar c quote.

(** The scanner states inside a string literal: [stateInString],
    [stateInStringEsc] and the four [stateInStringEscU...] states ([SU k]:
    [k] hexadecimal digits still to come). *)
Inductive strState := SIn | SEsc | SU (k : nat).

Definition consRaw (c : ascii) (r : scan string) : scan string :=
  match r with
  | Ok raw rest => Ok (String c raw) rest
  | other => other
  end.

(** Scans a string literal after its opening quote: the raw text up to the
    closing quote, and what follows the closing quote. *)
Fixpoint scanString (st : strState) (s : string) : scan string :=
  match s with
  | EmptyString => Fail UnexpectedEOF
  | String c r =>
      match st with
      | SIn =>
          if isChar c quote then Ok EmptyString r
          else if isChar c "\" then consRaw c (scanString SEsc r)
          else if (code c <? 32)%N then Fail SyntaxError
          else consRaw c (scanString SIn r)
      | SEsc =>
          if isSimpleEscape c then consRaw c (scanString SIn r)
          else if isChar c "u" then consRaw c (scanString (SU 4) r)
          else Fail SyntaxError
      | SU k =>
          if isHex c
          then consRaw c (scanString (match k with
                                      | S (S k') => SU (S k')
                                      | _ => SIn
                                      end) r)
          else Fail SyntaxError
      end
  end.

(** [utf8.EncodeRune]. *)
Definition encodeRune (r : N) : string :=
  (if r <? 128 then String (byte r) EmptyString
   else if r <? 2048 then
     String (byte (192 + r / 64)) (String (byte (128 + r mod 64)) EmptyString)
   else if r <? 65536 then
     String (byte (224 + r / 4096))
       (String (byte (128 + (r / 64) mod 64))
          (String (byte (128 + r mod 64)) EmptyString))
   else
     String (byte (240 + r / 262144))
       (String (byte (128 + (r / 4096) mod 64))
          (String (byte (128 + (r / 64) mod 64))
             (String (byte (128 + r mod 64)) EmptyString))))%N.

Definition RuneError : N := 65533.

Definition isCont (c : ascii) : bool := ((128 <=? code c) && (code c <=? 191))%N.

Definition between (lo hi : N) (c : ascii) : bool :=
  ((lo <=? code c) && (code c <=? hi))%N.

(** [utf8.DecodeRune] on a first byte that is not ASCII: the bytes of the
    well-formed encoding at the head of [s] and the rest, or [None] where
    Go decodes [RuneError] of width 1. *)
Definition decodeRune (s : string) : option (string * string) :=
  match s with
  | String c1 (String c2 r2) =>
      if between 194 223 c1 then
        if isCont c2 then Some (String c1 (String c2 EmptyString), r2) else None
      else
        match r2 with
        | String c3 r3 =>
            if between 224 239 c1 then
              if (if (code c1 =? 224)%N then between 160 191 c2
                  else if (code c1 =? 237)%N then between 128 159 c2
                  else isCont c2) && isCont c3
              then Some (String c1 (String c2 (String c3 EmptyString)), r3)
              else None
            else
              match r3 with
              | String c4 r4 =>
                  if between 240 244 c1
                     && (if (code c1 =? 240)%N then between 144 191 c2
                         else if (code c1 =? 244)%N then between 128 143 c2
                         else isCont c2)
                     && isCont c3 && isCont c4
                  then Some (String c1 (String c2 (String c3 (String c4 EmptyString))), r4)
                  else None
              | EmptyString => None
              end
        | EmptyString => None
        end
  | _ => None
  end.

(** Four hexadecimal digits at the head of [s]. *)
Definition hex4 (s : string) : option (N * string) :=
  match s with
  | String h1 (String h2 (String h3 (String h4 r))) =>
      match hexVal h1, hexVal h2, hexVal h3, hexVal h4 with
      | Some a, Some b, Some c, Some d => Some (((a * 16 + b) * 16 + c) * 16 + d, r)%N
      | _, _, _, _ => None
      end
  | _ => None
  end.

(** decode.go, [getu4]: the code unit of a [\uXXXX] escape at the head of
    [s]. *)
Definition getu4 (s : string) : option (N * string) :=
  match s with
  | String b (String u r) => if isChar b "\" && isChar u "u" then hex4 r else None
  | _ => None
  end.

Definition isSurrogate (r : N) : bool := ((55296 <=? r) && (r <? 57344))%N.

(** [utf16.DecodeRune]. *)
Definition decodeSurrogates (r1 r2 : N) : N :=
  (if (55296 <=? r1) && (r1 <? 56320) && (56320 <=? r2) && (r2 <? 57344)
   then (r1 - 55296) * 1024 + (r2 - 56320) + 65536
   else RuneError)%N.

Definition simpleEscape (c : ascii) : option ascii :=
  if isChar c quote || isChar c "\" || isChar c "/" then Some c
  else if isChar c "b" then Some (byte 8)
  else if isChar c "f" then Some (byte 12)
  else if isChar c "n" then Some (byte 10)
  else if isChar c "r" then Some (byte 13)
  else if isChar c "t" then Some (byte 9)
  else None.

Definition consOpt (p : string) (r : option string) : option string :=
  match r with
  | Some t => Some (p +:+ t)
  | None => None
  end.

(** decode.go, [unquoteBytes], on the raw text between the quotes: escapes
    are replaced, a surrogate pair makes one code point, a lone surrogate
    and every byte that is not well-formed UTF-8 become U+FFFD.
    [unquoteNext] is one turn of its loop; [continue] stands for the turns
    on what is left. *)
Definition unquoteNext (continue : string -> option string) (s : string)
  : option string :=
  match s with
  | EmptyString => Some EmptyString
  | String c r =>
      if isChar c "\" then
        match r with
        | String e r' =>
            if isChar e "u" then
              match hex4 r' with
              | Some (rr, r2) =>
                  if isSurrogate rr then
                    match getu4 r2 with
                    | Some (rr1, r3) =>
                        if (decodeSurrogates rr rr1 =? RuneError)%N
                        then consOpt (encodeRune RuneError) (continue r2)
                        else consOpt (encodeRune (decodeSurrogates rr rr1)) (continue r3)
                    | None => consOpt (encodeRune RuneError) (continue r2)
                    end
                  else consOpt (encodeRune rr) (continue r2)
              | None => None
              end
            else
              match simpleEscape e with
              | Some b => consOpt (String b EmptyString) (continue r')
              | None => None
              end
        | EmptyString => None
        end
      else if isChar c quote || (code c <? 32)%N then None
      else if (code c <? 128)%N then consOpt (String c EmptyString) (continue r)
      else
        match decodeRune s with
        | Some (enc, rest) => consOpt enc (continue rest)
        | None => consOpt (encodeRune RuneError) (continue r)
        end
  end.

Fixpoint unquoteBytes (fuel : nat) (s : string) : option string :=
  match fuel with
  | O => match s with EmptyString => Some EmptyString | _ => None end
  | S f => unquoteNext (unquoteBytes f) s
  end.

Definition unquote (raw : string) : option string :=
  unquoteBytes (String.length raw) raw.

(** The raw texts the scanner lets through: bytes that stand for
    themselves, the two-byte escapes and the escapes of four hexadecimal
    digits. *)
Inductive Scanned : string -> Prop :=
| scanned_nil : Scanned EmptyString
| scanned_byte c r :
    isChar c quote = false -> isChar c "\" = false -> (code c <? 32)%N = false ->
    Scanned r -> Scanned (String c r)
| scanned_escape b e r :
    isChar b "\" = true -> isSimpleEscape e = true ->
    Scanned r -> Scanned (String b (String e r))
| scanned_unicode b u h1 h2 h3 h4 r :
    isChar b "\" = true -> isChar u "u" = true ->
    isHex h1 = true -> isHex h2 = true -> isHex h3 = true -> isHex h4 = true ->
    Scanned r ->
    Scanned (String b (String u (String h1 (String h2 (String h3 (String h4 r)))))).

(** A whole string literal after its opening quote. *)
Definition scanQuoted (s : string) : scan string :=
  match scanString SIn s with
  | Ok raw rest =>
      match unquote raw with
      | Some t => Ok t rest
      | None => Fail SyntaxError
      end
  | other => other
  end.

(** *** Numbers and literals *)

Definition appRaw (p : string) (r : scan string) : scan string :=
  match r with
  | Ok raw rest => Ok (p +:+ raw) rest
  | other => other
  end.

Fixpoint spanDigits (s : string) : string * string :=
  match s with
  | String c r =>
      if isDigit c
      then let (d, rest) := spanDigits r in (String c d, rest)
      else (EmptyString, s)
  | EmptyString => (EmptyString, EmptyString)
  end.

(** One digit at least. *)
Definition scanDigits (s : string) : scan string :=
  match s with
  | EmptyString => Fail UnexpectedEOF
  | String c r =>
      if isDigit c
      then let (d, rest) := spanDigits r in Ok (String c d) rest
      else Fail SyntaxError
  end.

(** [stateE], [stateESign], [stateE0]. *)
Definition scanExp (s : string) : scan string :=
  match s with
  | String c r =>
      if isChar c "e" || isChar c "E" then
        match r with
        | String sg r' =>
            if isChar sg "+" || isChar sg "-"
            then consRaw c (consRaw sg (scanDigits r'))
            else consRaw c (scanDigits r)
        | EmptyString => Fail UnexpectedEOF
        end
      else Ok EmptyString s
  | EmptyString => Ok EmptyString EmptyString
  end.

(** [stateDot], [stateDot0]. *)
Definition scanFrac (s : string) : scan string :=
  match s with
  | String c r =>
      if isChar c "." then
        match scanDigits r with
        | Ok d rest => consRaw c (appRaw d (scanExp rest))
        | other => other
        end
      else scanExp s
  | EmptyString => Ok EmptyString EmptyString
  end.

(** [state0], [state1]. *)
Definition scanInt (s : string) : scan string :=
  match s with
  | EmptyString => Fail UnexpectedEOF
  | String c r =>
      if isChar c "0" then consRaw c (scanFrac r)
      else if between 49 57 c then
        let (d, rest) := spanDigits r in appRaw (String c d) (scanFrac rest)
      else Fail SyntaxError
  end.

(** [stateNeg] and on. *)
Definition scanNumber (s : string) : scan string :=
  match s with
  | String c r => if isChar c "-" then consRaw c (scanInt r) else scanInt s
  | EmptyString => Fail UnexpectedEOF
  end.

(** The rest of [true], [false] or [null] after its first letter. *)
Fixpoint scanLit (lit s : string) : scan unit :=
  match lit with
  | EmptyString => Ok tt s
  | String l lit' =>
      match s with
      | EmptyString => Fail UnexpectedEOF
      | String c r => if Ascii.eqb c l then scanLit lit' r else Fail SyntaxError
      end
  end.

Definition litValue (lit : string) (v : value) (s : string) : scan value :=
  match scanLit lit s with
  | Ok _ rest => Ok v rest
  | Fail e => Fail e
  | OutOfFuel => OutOfFuel
  end.

(** *** Values *)

(** One JSON value at the head of [s], after white space, and what follows
    it.  [depth] counts the arrays and objects that are open, as the
    scanner's [parseState] does. *)
Fixpoint parseValue (fuel : nat) (depth : N) (s : string) : scan value :=
  match fuel with
  | O => OutOfFuel
  | S f =>
      match skipSpace s with
      | EmptyString => Fail UnexpectedEOF
      | String c r =>
          if isChar c "{" then
            if (maxNestingDepth <? N.succ depth)%N then Fail SyntaxError
            else
              match skipSpace r with
              | EmptyString => Fail UnexpectedEOF
              | String c' r' =>
                  if isChar c' "}" then Ok (Object []) r'
                  else parseMembers f (N.succ depth) [] (String c' r')
              end
          else if isChar c "[" then
            if (maxNestingDepth <? N.succ depth)%N then Fail SyntaxError
            else
              match skipSpace r with
              | EmptyString => Fail UnexpectedEOF
              | String c' r' =>
                  if isChar c' "]" then Ok (Array []) r'
                  else parseElements f (N.succ depth) [] (String c' r')
              end
          else if isChar c quote then
            match scanQuoted r with
            | Ok t rest => Ok (Str t) rest
            | Fail e => Fail e
            | OutOfFuel => OutOfFuel
            end
          else if isChar c "-" || isDigit c then
            match scanNumber (String c r) with
            | Ok lit rest => Ok (Number lit) rest
            | Fail e => Fail e
            | OutOfFuel => OutOfFuel
            end
          else if isChar c "t" then litValue "rue" (Bool true) r
          else if isChar c "f" then litValue "alse" (Bool false) r
          else if isChar c "n" then litValue "ull" Null r
          else Fail SyntaxError
      end
  end

(** The members of an object from the place where a key must begin;
    [acc] holds the members read so far. *)
with parseMembers (fuel : nat) (depth : N) (acc : list (string * value))
       (s : string) : scan value :=
  match fuel with
  | O => OutOfFuel
  | S f =>
      match skipSpace s with
      | EmptyString => Fail UnexpectedEOF
      | String c r =>
          if isChar c quote then
            match scanQuoted r with
            | Ok key r1 =>
                match skipSpace r1 with
                | EmptyString => Fail UnexpectedEOF
                | String c1 r2 =>
                    if isChar c1 ":" then
                      match parseValue f depth r2 with
                      | Ok v r3 =>
                          match skipSpace r3 with
                          | EmptyString => Fail UnexpectedEOF
                          | String c2 r4 =>
                              if isChar c2 "," then
                                parseMembers f depth (acc ++ [(key, v)]) r4
                              else if isChar c2 "}" then
                                Ok (Object (acc ++ [(key, v)])) r4
                              else Fail SyntaxError
                          end
                      | other => other
                      end
                    else Fail SyntaxError
                end
            | Fail e => Fail e
            | OutOfFuel => OutOfFuel
            end
          else Fail SyntaxError
      end
  end

(** The elements of an array from the place where a value must begin. *)
with parseElements (fuel : nat) (depth : N) (acc : list value)
       (s : string) : scan value :=
  match fuel with
  | O => OutOfFuel
  | S f =>
      match parseValue f depth s with
      | Ok v r1 =>
          match skipSpace r1 with
          | EmptyString => Fail UnexpectedEOF
          | String c r2 =>
              if isChar c "," then parseElements f depth (acc ++ [v]) r2
              else if isChar c "]" then Ok (Array (acc ++ [v])) r2
              else Fail SyntaxError
          end
      | other => other
      end
  end.

(** [Decoder.readValue] on the whole body: the first JSON value, whatever
    follows it.  A body of white space alone is [io.EOF]. *)
Definition readValue (body : string) : value + error :=
  match skipSpace body with
  | EmptyString => inr EOF
  | _ =>
      match parseValue (S (2 * String.length body)) 0 body with
      | Ok v _ => inl v
      | Fail e => inr e
      | OutOfFuel => inr SyntaxError
      end
  end.

(** *** Unmarshalling into [MinimalAPIResponse] *)

(** main.go, lines 15-17. *)
Record MinimalAPIResponse := { ReleaseNumber : string }.

Definition kindOf (v : value) : option kind :=
  match v with
  | Null => None
  | Bool _ => Some KBool
  | Number _ => Some KNumber
  | Str _ => Some KString
  | Array _ => Some KArray
  | Object _ => Some KObject
  end.

(** encoding/json, [foldName], as far as a comparison with an ASCII name
    can tell: ASCII letters are folded to upper case, and so are the two
    code points whose simple case folding is an ASCII letter, U+017F
    (long s, bytes C5 BF) and U+212A (Kelvin sign, bytes E2 84 AA). *)
Fixpoint foldName (s : string) : string :=
  match s with
  | EmptyString => EmptyString
  | String c1 r1 =>
      if between 97 122 c1 then String (byte (code c1 - 32)) (foldName r1)
      else
        match r1 with
        | String c2 r2 =>
            if (code c1 =? 197)%N && (code c2 =? 191)%N
            then String "S" (foldName r2)
            else
              match r2 with
              | String c3 r3 =>
                  if (code c1 =? 226)%N && (code c2 =? 132)%N && (code c3 =? 170)%N
                  then String "K" (foldName r3)
                  else String c1 (foldName r1)
              | EmptyString => String c1 (foldName r1)
              end
        | EmptyString => String c1 (foldName r1)
        end
  end.

(** The JSON name of the only field, from its tag. *)
Definition fieldName : string := "releaseNumber".

(** The field a member name selects: the exact name, or failing that a
    name equal to it under [foldName]. *)
Definition matchesField (key : string) : bool :=
  String.eqb key fieldName || String.eqb (foldName key) (foldName fieldName).

(** The decoder's state: the struct under construction and the first error
    saved by [saveError]. *)
Definition decodeState : Type := MinimalAPIResponse * option error.

Definition saveError (saved : option error) (e : error) : option error :=
  match saved with
  | Some _ => saved
  | None => Some e
  end.

(** Storing a JSON value into the string field: a string sets it, [null]
    leaves it as it is, any other value is an [UnmarshalTypeError] and the
    decoding goes on. *)
Definition storeField (v : value) (st : decodeState) : decodeState :=
  match v with
  | Str t => ({| ReleaseNumber := t |}, snd st)
  | _ =>
      match kindOf v with
      | None => st
      | Some k => (fst st, saveError (snd st) (UnmarshalTypeError k))
      end
  end.

(** The members of the object in their order; a member that selects no
    field is skipped. *)
Fixpoint object (members : list (string * value)) (st : decodeState) : decodeState :=
  match members with
  | [] => st
  | (key, v) :: rest =>
      object rest (if matchesField key then storeField v st else st)
  end.

(** [json.Unmarshal] of one value into a zero [MinimalAPIResponse]. *)
Definition unmarshal (v : value) : MinimalAPIResponse + error :=
  let zero := {| ReleaseNumber := EmptyString |} in
  match v with
  | Object members =>
      match object members (zero, None) with
      | (r, None) => inl r
      | (_, Some e) => inr e
      end
  | _ =>
      match kindOf v with
      | None => inl zero
      | Some k => inr (UnmarshalTypeError k)
      end
  end.

(** [json.NewDecoder(body).Decode(&apiResponse)]. *)
Definition Decode (body : string) : MinimalAPIResponse + error :=
  match readValue body with
  | inl v => unmarshal v
  | inr e => inr e
  end.

End Json.

(** What the decoder makes of an object, in the words of the documentation
    of [json.Unmarshal]. *)
Module JsonSpec.

Import Json.

(** The values of the members whose name selects the field
    [releaseNumber], in their order: the other members are ignored. *)
Definition ownValues (members : list (string * value)) : list value :=
  List.map snd (List.filter (fun m => matchesField (fst m)) members).

(** The kind of the first value that a string field refuses: any value
    but a string and [null]. *)
Fixpoint refused (vs : list value) : option kind :=
  match vs with
  | [] => None
  | Str _ :: rest | Null :: rest => refused rest
  | Bool _ :: _ => Some KBool
  | Number _ :: _ => Some KNumber
  | Array _ :: _ => Some KArray
  | Object _ :: _ => Some KObject
  end.

(** The last string among the values, [default] if there is none. *)
Fixpoint lastString (vs : list value) (default : string) : string :=
  match vs with
  | [] => default
  | Str t :: rest => lastString rest t
  | _ :: rest => lastString rest default
  end.

(** A byte that stands for itself inside a string literal: ASCII, no
    control character, no quote, no backslash. *)
Definition plainByte (c : ascii) : bool :=
  (32 <=? Strings.code c)%N && (Strings.code c <? 128)%N
  && negb (isChar c quote) && negb (isChar c "\").

Fixpoint plain (s : string) : bool :=
  match s with
  | EmptyString => true
  | String c r => plainByte c && plain r
  end.

End JsonSpec.

(** ** The network *)

Module Http.

(** What [fetchStatus] reads of a [*http.Response]: the status code, the
    status line text (as in "200 OK") and the bytes of the body. *)
Record Response := { StatusCode : Z; Status : string; Body : string }.

(** The outcome of [http.Get]: a response, or an error with its text. *)
Inductive result :=
| Resp (resp : Response)
| Err (text : string).

Definition StatusOK : Z := 200.

End Http.

(** ** [fetchStatus] (main.go, lines 19-38) *)

(** The three errors [fetchStatus] builds with [fmt.Errorf]. *)
Inductive fetchError :=
| FetchFailed (cause : string)
| NonOKStatus (status : string)
| DecodeFailed (cause : Json.error).

Definition statusURL (instance : string) : string :=
  "https://status.salesforce.com/api/instances/" +:+ instance
    +:+ "/status/preview?locale=en".

(** Lines 32-37: the body is decoded, and the release number or the error
    of the decoder returned. *)
Definition decodeBody (body : string) : string * option fetchError :=
  match Json.Decode body with
  | inr err => (EmptyString, Some (DecodeFailed err))
  | inl apiResponse => (Json.ReleaseNumber apiResponse, None)
  end.

Section Fetcher.

(** [http.Get], the remote side included: the outcome of a GET of each
    URL. *)
Variable httpGet : string -> Http.result.

Definition fetchStatus (instance : string) : string * option fetchError :=
  let url := statusURL instance in
  match httpGet url with
  | Http.Err err => (EmptyString, Some (FetchFailed err))
  | Http.Resp resp =>
      if negb (Http.StatusCode resp =? Http.StatusOK)%Z
      then (EmptyString, Some (NonOKStatus (Http.Status resp)))
      else decodeBody (Http.Body resp)
  end.

End Fetcher.

(** The 2xx class of status codes. *)
Definition is2xx (code : Z) : bool := ((200 <=? code) && (code <? 300))%Z.

(** Two remote sides to try the program on.  Every instance answers 200
    with the release number [v1] in [allUp]; in [oneDown] the instance NA2
    answers 503. *)
Module Sample.

Definition up : Http.Response :=
  {| Http.StatusCode := 200; Http.Status := "200 OK";
     Http.Body := json "{'releaseNumber':'v1'}" |}.

Definition down : Http.Response :=
  {| Http.StatusCode := 503; Http.Status := "503 Service Unavailable";
     Http.Body := "<html>Service Unavailable</html>" |}.

Definition allUp (url : string) : Http.result := Http.Resp up.

Definition oneDown (url : string) : Http.result :=
  if String.eqb url (statusURL "NA2") then Http.Resp down else Http.Resp up.

(** A text for the errors of the decoder. *)
Definition errorText (e : Json.error) : string := "invalid JSON".

End Sample.

(** ** [compareReleaseNumbers] and [processResults] (main.go, lines 40-55, 110-120) *)

(** What a comparator does to the state it shares with [main]:
    [results <- msg] and [wg.Done()]. *)
Inductive effect :=
| Send (msg : string)
| Done.

(** The three [fmt.Sprintf] of [compareReleaseNumbers]; [%s] puts the
    string, or the text of the error, in its place. *)
Definition fmtError (instance err : string) : string :=
  "Error fetching status for instance " +:+ instance +:+ ": " +:+ err.

Definition fmtMismatch (instance expectedVersion releaseNumber : string) : string :=
  "Release number mismatch for instance " +:+ instance +:+ ": expected "
    +:+ expectedVersion +:+ ", got " +:+ releaseNumber.

Definition fmtMatch (instance releaseNumber : string) : string :=
  "Release number matches for instance " +:+ instance +:+ ": " +:+ releaseNumber.

Section Comparator.

(** [Error()] of the errors of encoding/json. *)
Variable jsonErrorText : Json.error -> string.
Variable httpGet : string -> Http.result.

(** [Error()] of the errors of [fetchStatus]: the format of each
    [fmt.Errorf]. *)
Definition errorText (e : fetchError) : string :=
  match e with
  | FetchFailed cause => "failed to fetch status: " +:+ cause
  | NonOKStatus status => "API returned non-OK status: " +:+ status
  | DecodeFailed cause => "failed to decode response: " +:+ jsonErrorText cause
  end.

(** The effects of one call, in their order, once [fetchStatus] has
    returned.  [wg.Done] is deferred: it runs last on every return. *)
Definition compareReleaseNumbers (instance expectedVersion : string) : list effect :=
  let deferred := [Done] in
  let (releaseNumber, err) := fetchStatus httpGet instance in
  match err with
  | Some e => [Send (fmtError instance (errorText e))] ++ deferred
  | None =>
      if negb (String.eqb releaseNumber expectedVersion)
      then [Send (fmtMismatch instance expectedVersion releaseNumber)] ++ deferred
      else [Send (fmtMatch instance releaseNumber)] ++ deferred
  end.

End Comparator.

(** The message [compareReleaseNumbers] writes for an instance, from what
    [fetchStatus] returned. *)
Definition resultMessage (jsonErrorText : Json.error -> string)
    (instance expectedVersion : string) (fetched : string * option fetchError) : string :=
  match fetched with
  | (_, Some e) => fmtError instance (errorText jsonErrorText e)
  | (releaseNumber, None) =>
      if String.eqb releaseNumber expectedVersion
      then fmtMatch instance releaseNumber
      else fmtMismatch instance expectedVersion releaseNumber
  end.

(** The substring [processResults] looks for. *)
Definition marker : string := "mismatch".

(** The messages of a list of instances, in the order of the list. *)
Definition messages (jsonErrorText : Json.error -> string)
    (httpGet : string -> Http.result) (expectedVersion : string)
    (instances : list string) : list string :=
  List.map
    (fun instance =>
       resultMessage jsonErrorText instance expectedVersion (fetchStatus httpGet instance))
    instances.

(** An instance whose fetch fails or whose release number is the expected
    one, with no marker in its name, in the text of the error or in the
    version. *)
Definition quiet (jsonErrorText : Json.error -> string)
    (httpGet : string -> Http.result) (expectedVersion instance : string) : Prop :=
  Strings.Contains instance marker = false
  /\ match fetchStatus httpGet instance with
     | (_, Some e) => Strings.Contains (errorText jsonErrorText e) marker = false
     | (releaseNumber, None) =>
         releaseNumber = expectedVersion
         /\ Strings.Contains expectedVersion marker = false
     end.

(** The messages among the effects. *)
Fixpoint sends (effects : list effect) : list string :=
  match effects with
  | [] => []
  | Send msg :: rest => msg :: sends rest
  | Done :: rest => sends rest
  end.

Fixpoint dones (effects : list effect) : nat :=
  match effects with
  | [] => 0
  | Send _ :: rest => dones rest
  | Done :: rest => S (dones rest)
  end.

(** One turn of the loop of [processResults]. *)
Definition processResult (result : string) (exitHealthy : bool) : bool :=
  if Strings.Contains result "mismatch" then false else exitHealthy.

Fixpoint processResults_loop (results : list string) (exitHealthy : bool) : bool :=
  match results with
  | [] => exitHealthy
  | result :: rest => processResults_loop rest (processResult result exitHealthy)
  end.

(** [results] is what the channel delivers until it is closed. *)
Definition processResults (results : list string) : bool :=
  processResults_loop results true.

(** ** [main] and its goroutines (main.go, lines 57-91) *)

(** Where [main] stands. *)
Inductive mainPc :=
| Validate                          (* lines 63-73 *)
| Dispatch (rest : list string)     (* lines 78-81, and 83-86 once [rest] is empty *)
| Collect                           (* line 88, inside [processResults] *)
| Exited (code : Z)
| Panicked.

(** A comparator goroutine, started for [instance]: inside [fetchStatus],
    or past it with the effects still to come. *)
Inductive worker :=
| Fetching (instance : string)
| Running (instance : string) (effects : list effect).

(** The goroutine of lines 83-86. *)
Inductive closerPc := Waiting | Closing | Finished.

Record state := {
  pc : mainPc;
  workers : list worker;
  closer : option closerPc;
  wg : Z;                       (* the counter of the WaitGroup *)
  buffer : list string;         (* the channel [results] *)
  capacity : nat;
  closed : bool;
  exitHealthy : bool;
  requests : list string;       (* the URLs given to [http.Get] so far *)
  sent : list string;           (* the messages written to [results] so far *)
  debugLog : list string;       (* [slog.Debug] *)
  errorLog : list string        (* [slog.Error] *)
}.

Definition initial : state :=
  {| pc := Validate; workers := []; closer := None; wg := 0;
     buffer := []; capacity := 0; closed := false; exitHealthy := true;
     requests := []; sent := []; debugLog := []; errorLog := [] |}.

Definition setPc (p : mainPc) (s : state) : state :=
  {| pc := p; workers := workers s; closer := closer s; wg := wg s;
     buffer := buffer s; capacity := capacity s; closed := closed s;
     exitHealthy := exitHealthy s; requests := requests s; sent := sent s;
     debugLog := debugLog s; errorLog := errorLog s |}.

Definition setWorkers (w : list worker) (s : state) : state :=
  {| pc := pc s; workers := w; closer := closer s; wg := wg s;
     buffer := buffer s; capacity := capacity s; closed := closed s;
     exitHealthy := exitHealthy s; requests := requests s; sent := sent s;
     debugLog := debugLog s; errorLog := errorLog s |}.

Definition setCloser (c : option closerPc) (s : state) : state :=
  {| pc := pc s; workers := workers s; closer := c; wg := wg s;
     buffer := buffer s; capacity := capacity s; closed := closed s;
     exitHealthy := exitHealthy s; requests := requests s; sent := sent s;
     debugLog := debugLog s; errorLog := errorLog s |}.

Definition setWg (n : Z) (s : state) : state :=
  {| pc := pc s; workers := workers s; closer := closer s; wg := n;
     buffer := buffer s; capacity := capacity s; closed := closed s;
     exitHealthy := exitHealthy s; requests := requests s; sent := sent s;
     debugLog := debugLog s; errorLog := errorLog s |}.

(** [make(chan string, n)]. *)
Definition makeChan (n : nat) (s : state) : state :=
  {| pc := pc s; workers := workers s; closer := closer s; wg := wg s;
     buffer := []; capacity := n; closed := false;
     exitHealthy := exitHealthy s; requests := requests s; sent := sent s;
     debugLog := debugLog s; errorLog := errorLog s |}.

(** [results <- msg], when there is room. *)
Definition chanSend (msg : string) (s : state) : state :=
  {| pc := pc s; workers := workers s; closer := closer s; wg := wg s;
     buffer := buffer s ++ [msg]; capacity := capacity s; closed := closed s;
     exitHealthy := exitHealthy s; requests := requests s; sent := sent s ++ [msg];
     debugLog := debugLog s; errorLog := errorLog s |}.

(** [close(results)]. *)
Definition chanClose (s : state) : state :=
  {| pc := pc s; workers := workers s; closer := closer s; wg := wg s;
     buffer := buffer s; capacity := capacity s; closed := true;
     exitHealthy := exitHealthy s; requests := requests s; sent := sent s;
     debugLog := debugLog s; errorLog := errorLog s |}.

(** One turn of the loop of [processResults] on the message at the head of
    the channel. *)
Definition chanReceive (msg : string) (rest : list string) (s : state) : state :=
  {| pc := pc s; workers := workers s; closer := closer s; wg := wg s;
     buffer := rest; capacity := capacity s; closed := closed s;
     exitHealthy := processResult msg (exitHealthy s);
     requests := requests s; sent := sent s;
     debugLog := debugLog s ++ [msg]; errorLog := errorLog s |}.

Definition logRequest (url : string) (s : state) : state :=
  {| pc := pc s; workers := workers s; closer := closer s; wg := wg s;
     buffer := buffer s; capacity := capacity s; closed := closed s;
     exitHealthy := exitHealthy s; requests := requests s ++ [url]; sent := sent s;
     debugLog := debugLog s; errorLog := errorLog s |}.

Definition logError (msg : string) (s : state) : state :=
  {| pc := pc s; workers := workers s; closer := closer s; wg := wg s;
     buffer := buffer s; capacity := capacity s; closed := closed s;
     exitHealthy := exitHealthy s; requests := requests s; sent := sent s;
     debugLog := debugLog s; errorLog := errorLog s ++ [msg] |}.

(** The threads of the process. *)
Inductive thread :=
| Main
| Worker (i : nat)
| Closer.

Definition terminal (s : state) : bool :=
  match pc s with
  | Exited _ | Panicked => true
  | _ => false
  end.

Section Process.

Variable jsonErrorText : Json.error -> string.
Variable httpGet : string -> Http.result.
Variables instanceFlag versionFlag : string.

(** One step of [main] from line 63 on, with the flags [flag.Parse] has
    returned; [None] where it is blocked or has ended. *)
Definition stepMain (s : state) : option state :=
  match pc s with
  | Validate =>
      if String.eqb instanceFlag "" || String.eqb versionFlag "" then
        Some (setPc (Exited 1) (logError "Instance and version flags are required" s))
      else
        let instances := parseInstances instanceFlag in
        if Nat.eqb (length instances) 0 then
          Some (setPc (Exited 1) (logError "No valid instances provided" s))
        else
          Some (setPc (Dispatch instances) (makeChan (length instances) s))
  | Dispatch (instance :: rest) =>
      Some (setPc (Dispatch rest)
              (setWorkers (workers s ++ [Fetching instance])
                 (setWg (wg s + 1) s)))
  | Dispatch [] =>
      Some (setPc Collect (setCloser (Some Waiting) s))
  | Collect =>
      match buffer s with
      | msg :: rest => Some (chanReceive msg rest s)
      | [] =>
          if closed s
          then Some (setPc (Exited (if exitHealthy s then 0 else 1)) s)
          else None
      end
  | Exited _ | Panicked => None
  end.

(** One step of the comparator goroutine [i]. *)
Definition stepWorker (i : nat) (s : state) : option state :=
  match workers s !! i with
  | None => None
  | Some (Fetching instance) =>
      Some (setWorkers
              (<[i := Running instance
                        (compareReleaseNumbers jsonErrorText httpGet
                           instance versionFlag)]> (workers s))
              (logRequest (statusURL instance) s))
  | Some (Running instance (Send msg :: rest)) =>
      if closed s then Some (setPc Panicked s)
      else if Nat.ltb (length (buffer s)) (capacity s)
      then Some (setWorkers (<[i := Running instance rest]> (workers s))
                   (chanSend msg s))
      else None
  | Some (Running instance (Done :: rest)) =>
      if (wg s - 1 <? 0)%Z then Some (setPc Panicked s)
      else Some (setWorkers (<[i := Running instance rest]> (workers s))
                   (setWg (wg s - 1) s))
  | Some (Running _ []) => None
  end.

(** One step of the goroutine that waits and closes. *)
Definition stepCloser (s : state) : option state :=
  match closer s with
  | Some Waiting =>
      if (wg s =? 0)%Z then Some (setCloser (Some Closing) s) else None
  | Some Closing =>
      if closed s then Some (setPc Panicked s)
      else Some (setCloser (Some Finished) (chanClose s))
  | Some Finished | None => None
  end.

(** A step of the process by the thread the scheduler picks.  Nothing
    runs once [main] has exited. *)
Definition step (t : thread) (s : state) : option state :=
  if terminal s then None
  else
    match t with
    | Main => stepMain s
    | Worker i => stepWorker i s
    | Closer => stepCloser s
    end.

(** The process under a schedule; a thread that cannot move is passed
    over. *)
Fixpoint run (schedule : list thread) (s : state) : state :=
  match schedule with
  | [] => s
  | t :: rest =>
      match step t s with
      | Some s' => run rest s'
      | None => run rest s
      end
  end.

Definition steps (s s' : state) : Prop := exists t, step t s = Some s'.

(** The states the process can be in. *)
Inductive reachable : state -> Prop :=
| reachable_initial : reachable initial
| reachable_step s s' : reachable s -> steps s s' -> reachable s'.

End Process.

(** ** What the process keeps true *)

Definition workerInstance (w : worker) : string :=
  match w with
  | Fetching instance | Running instance _ => instance
  end.

(** The calls of [wg.Done] a goroutine still owes. *)
Definition pendingDones (w : worker) : nat :=
  match w with
  | Fetching _ => 1
  | Running _ effects => dones effects
  end.

(** The requests a goroutine still has to make. *)
Definition pendingRequests (w : worker) : list string :=
  match w with
  | Fetching instance => [statusURL instance]
  | Running _ _ => []
  end.

(** The steps a goroutine still has to take, the reception of its messages
    by [main] counted with them. *)
Definition workerMeasure (w : worker) : nat :=
  match w with
  | Fetching _ => 4
  | Running _ effects => length effects + length (sends effects)
  end.

Definition closerMeasure (c : option closerPc) : nat :=
  match c with
  | Some Waiting => 2
  | Some Closing => 1
  | Some Finished | None => 0
  end.

Section Invariant.

Variable jsonErrorText : Json.error -> string.
Variable httpGet : string -> Http.result.
Variables instanceFlag versionFlag : string.

(** The message of an instance. *)
Definition messageOf (instance : string) : string :=
  resultMessage jsonErrorText instance versionFlag (fetchStatus httpGet instance).

(** The messages a goroutine still has to write. *)
Definition pendingSends (w : worker) : list string :=
  match w with
  | Fetching instance => [messageOf instance]
  | Running _ effects => sends effects
  end.

(** Past [fetchStatus], a goroutine is somewhere in the effects of
    [compareReleaseNumbers]. *)
Definition workerOk (w : worker) : Prop :=
  match w with
  | Fetching _ => True
  | Running instance effects =>
      effects = [Send (messageOf instance); Done]
      \/ effects = [Done]
      \/ effects = []
  end.

(** The flags pass the checks of lines 63-73. *)
Definition validFlags : Prop :=
  instanceFlag <> "" /\ versionFlag <> "" /\ parseInstances instanceFlag <> [].

(** What holds from the dispatch on; [rest] are the instances still to be
    dispatched. *)
Record Core (rest : list string) (s : state) : Prop := {
  core_instances :
    List.map workerInstance (workers s) ++ rest = parseInstances instanceFlag;
  core_workers : Forall workerOk (workers s);
  core_wg : wg s = Z.of_nat (list_sum (List.map pendingDones (workers s)));
  core_sent :
    Permutation (sent s ++ flat_map pendingSends (workers s))
      (List.map messageOf (List.map workerInstance (workers s)));
  core_channel : sent s = debugLog s ++ buffer s;
  core_requests :
    Permutation (requests s ++ flat_map pendingRequests (workers s))
      (List.map statusURL (List.map workerInstance (workers s)));
  core_capacity : capacity s = length (parseInstances instanceFlag);
  core_verdict : exitHealthy s = processResults (debugLog s);
  core_errorLog : errorLog s = []
}.

(** The goroutine that closes the channel does so once, when the counter
    is at zero. *)
Definition closerOk (s : state) : Prop :=
  match closer s with
  | None => False
  | Some Waiting => closed s = false
  | Some Closing => closed s = false /\ wg s = 0%Z
  | Some Finished => closed s = true /\ wg s = 0%Z
  end.

(** The two exits of lines 63-73: nothing has run but [slog.Error]. *)
Definition rejected (s : state) : Prop :=
  (instanceFlag = "" \/ versionFlag = "")
  /\ s = setPc (Exited 1) (logError "Instance and version flags are required" initial)
  \/ instanceFlag <> "" /\ versionFlag <> "" /\ parseInstances instanceFlag = []
     /\ s = setPc (Exited 1) (logError "No valid instances provided" initial).

(** The instances [main] has still to dispatch. *)
Definition remaining (s : state) : list string :=
  match pc s with
  | Dispatch rest => rest
  | _ => []
  end.

Definition Inv (s : state) : Prop :=
  match pc s with
  | Validate => s = initial
  | Dispatch rest =>
      validFlags /\ Core rest s /\ closer s = None /\ closed s = false
  | Collect => validFlags /\ Core [] s /\ closerOk s
  | Exited code =>
      rejected s
      \/ validFlags /\ Core [] s /\ closerOk s
         /\ closed s = true /\ buffer s = []
         /\ code = (if exitHealthy s then 0 else 1)%Z
  | Panicked => False
  end.

(** The steps the process still has to take, at most. *)
Definition mainMeasure (p : mainPc) : nat :=
  match p with
  | Validate => 5 * length (parseInstances instanceFlag) + 5
  | Dispatch rest => 5 * length rest + 4
  | Collect => 1
  | Exited _ | Panicked => 0
  end.

Definition measure (s : state) : nat :=
  mainMeasure (pc s) + length (buffer s)
  + list_sum (List.map workerMeasure (workers s)) + closerMeasure (closer s).

(** [main] from line 63 on, as a function of the two flags and of the
    remote side: the exit code of the process once [flag.Parse] has
    returned. *)
Definition exitCode : Z :=
  if String.eqb instanceFlag "" || String.eqb versionFlag "" then 1
  else
    let instances := parseInstances instanceFlag in
    if Nat.eqb (length instances) 0 then 1
    else if processResults (messages jsonErrorText httpGet versionFlag instances)
         then 0
         else 1.

End Invariant.

(** A schedule to try the process on: [main], three goroutines and the
    closing goroutine in turn, twelve times over. *)
Definition roundRobin : list thread :=
  List.concat (List.repeat [Main; Worker 0; Worker 2; Closer; Worker 1] 12).

(** ** The command line: [flag.Parse] (main.go, lines 59-61) *)

Module Flag.

(** The flag set of [main] is [flag.CommandLine] with the two string flags
    [instance] and [version], both with the default "". *)
Record values := { instance : string; version : string }.

Definition defaults : values := {| instance := ""; version := "" |}.

(** [f.formal[name]]: the names that have been defined. *)
Definition formal (name : string) : bool :=
  String.eqb name "instance" || String.eqb name "version".

(** [flag.Value.Set] on the flag of that name; a string flag takes every
    value. *)
Definition set (name value : string) (vs : values) : values :=
  if String.eqb name "instance"
  then {| instance := value; version := version vs |}
  else {| instance := instance vs; version := value |}.

(** flag.go, [parseOne], the loop over [name] from its second byte on: the
    bytes up to the first [=], and what follows that [=]. *)
Fixpoint cutValue (s : string) : string * option string :=
  match s with
  | EmptyString => (EmptyString, None)
  | String c r =>
      if Ascii.eqb c "=" then (EmptyString, Some r)
      else let (name, value) := cutValue r in (String c name, value)
  end.

(** What [parseOne] makes of an argument before it looks the name up. *)
Inductive argument :=
| NotFlag                                    (* "return false, nil" *)
| BadSyntax                                  (* "bad flag syntax" *)
| Named (name : string) (value : option string).

(** An argument shorter than two bytes or without [-] at its head is no
    flag, and neither is [--], which ends the flags; one or two [-] come
    before the name, which begins neither with [-] nor with [=]. *)
Definition argumentOf (s : string) : argument :=
  match s with
  | String c0 (String c1 r) =>
      if negb (Ascii.eqb c0 "-") then NotFlag
      else if Ascii.eqb c1 "-" && String.eqb r "" then NotFlag
      else
        let name := if Ascii.eqb c1 "-" then r else String c1 r in
        match name with
        | EmptyString => BadSyntax
        | String n0 n =>
            if Ascii.eqb n0 "-" || Ascii.eqb n0 "=" then BadSyntax
            else let (rest, value) := cutValue n in Named (String n0 rest) value
        end
  | _ => NotFlag
  end.

(** [Parse] returns, or the process exits inside it: the error handling
    of [flag.CommandLine] is [ExitOnError], which is [os.Exit(0)] on
    [ErrHelp] and [os.Exit(2)] on every other error. *)
Inductive result :=
| Parsed (vs : values)
| Exit (code : Z).

(** The loop of [FlagSet.Parse] over [parseOne].  A flag without [=value]
    takes the next argument as its value, whatever it is.  What follows
    the flags on the command line is not read by [main]. *)
Fixpoint parse (args : list string) (vs : values) : result :=
  match args with
  | [] => Parsed vs
  | s :: rest =>
      match argumentOf s with
      | NotFlag => Parsed vs
      | BadSyntax => Exit 2
      | Named name value =>
          if formal name then
            match value with
            | Some v => parse rest (set name v vs)
            | None =>
                match rest with
                | v :: rest' => parse rest' (set name v vs)
                | [] => Exit 2                  (* "flag needs an argument" *)
                end
            end
          else if String.eqb name "help" || String.eqb name "h" then Exit 0
          else Exit 2                 (* "flag provided but not defined" *)
      end
  end.

(** [flag.Parse()] on [os.Args[1:]]. *)
Definition Parse (arguments : list string) : result := parse arguments defaults.

End Flag.

(** ** The process from its command line (main.go, lines 58-91) *)

(** The process is inside [flag.Parse], or [flag.Parse] has returned the
    two flags and [main] goes on from line 63, or the process has exited
    inside [flag.Parse]. *)
Inductive process :=
| Starting
| Started (instanceFlag versionFlag : string) (s : state)
| ExitedParsing (code : Z).

(** The exit code, once the process has exited. *)
Definition exited (p : process) : option Z :=
  match p with
  | Starting => None
  | Started _ _ s =>
      match pc s with
      | Exited code => Some code
      | _ => None
      end
  | ExitedParsing code => Some code
  end.

Definition terminalProcess (p : process) : bool :=
  match p with
  | Starting => false
  | Started _ _ s => terminal s
  | ExitedParsing _ => true
  end.

(** The goroutines, the channel and the logs of the process: inside
    [flag.Parse] nothing has been started, and [flag] writes its messages
    to the standard error, not to the logger. *)
Definition stateOf (p : process) : state :=
  match p with
  | Started _ _ s => s
  | Starting | ExitedParsing _ => initial
  end.

Section CommandLine.

Variable jsonErrorText : Json.error -> string.
Variable httpGet : string -> Http.result.

(** [os.Args[1:]]. *)
Variable args : list string.

(** A step of the process: the first one is [flag.Parse], by [main]
    alone. *)
Definition stepProcess (t : thread) (p : process) : option process :=
  match p with
  | Starting =>
      match t with
      | Main =>
          match Flag.Parse args with
          | Flag.Parsed vs =>
              Some (Started (Flag.instance vs) (Flag.version vs) initial)
          | Flag.Exit code => Some (ExitedParsing code)
          end
      | _ => None
      end
  | Started instanceFlag versionFlag s =>
      match step jsonErrorText httpGet instanceFlag versionFlag t s with
      | Some s' => Some (Started instanceFlag versionFlag s')
      | None => None
      end
  | ExitedParsing _ => None
  end.

Fixpoint runProcess (schedule : list thread) (p : process) : process :=
  match schedule with
  | [] => p
  | t :: rest =>
      match stepProcess t p with
      | Some p' => runProcess rest p'
      | None => runProcess rest p
      end
  end.

Inductive reachableProcess : process -> Prop :=
| reachable_start : reachableProcess Starting
| reachable_next p p' t :
    reachableProcess p -> stepProcess t p = Some p' -> reachableProcess p'.

(** [main] as a function of the command line and of the remote side: the
    exit code of the process. *)
Definition processExitCode : Z :=
  match Flag.Parse args with
  | Flag.Exit code => code
  | Flag.Parsed vs =>
      exitCode jsonErrorText httpGet (Flag.instance vs) (Flag.version vs)
  end.

End CommandLine.
(** * Properties *)

(** ** Strings *)

Module StringFacts.

Import Strings.

Lemma append_nil_r (s : string) : s +:+ "" = s.
Proof. induction s as [|c s IH]; simpl; [reflexivity | now rewrite IH]. Qed.

Lemma append_assoc (a b c : string) : (a +:+ b) +:+ c = a +:+ b +:+ c.
Proof. induction a as [|x a IH]; simpl; [reflexivity | now rewrite IH]. Qed.

Lemma length_append (a b : string) :
  String.length (a +:+ b) = String.length a + String.length b.
Proof. induction a as [|x a IH]; simpl; [reflexivity | now rewrite IH]. Qed.

Lemma revAppend_spec (s acc : string) : revAppend s acc = reverse s +:+ acc.
Proof.
  unfold reverse. revert acc.
  induction s as [|c s IH]; intros acc; simpl; [reflexivity |].
  rewrite (IH (String c "")), IH, append_assoc. reflexivity.
Qed.

Lemma reverse_cons (c : ascii) (s : string) :
  reverse (String c s) = reverse s +:+ String c "".
Proof. unfold reverse at 1. simpl. apply revAppend_spec. Qed.

Lemma reverse_append (a b : string) : reverse (a +:+ b) = reverse b +:+ reverse a.
Proof.
  induction a as [|c a IH]; simpl.
  - now rewrite append_nil_r.
  - now rewrite !reverse_cons, IH, append_assoc.
Qed.

Lemma reverse_involutive (s : string) : reverse (reverse s) = s.
Proof.
  induction s as [|c s IH]; [reflexivity |].
  rewrite reverse_cons, reverse_append, IH. reflexivity.
Qed.

(** *** Trimming *)

Section TrimFacts.

Variable p1 : ascii -> bool.
Variable p2 : ascii -> ascii -> bool.
Variable p3 : ascii -> ascii -> ascii -> bool.

Local Abbreviation trim := (trimLeftBy p1 p2 p3).
Local Abbreviation starts := (startsWithBy p1 p2 p3).
Local Abbreviation Run := (RunOf p1 p2 p3).

(** Induction that follows the three ways [trimLeftBy] calls itself. *)
Lemma string_ind3 (P : string -> Prop) :
  P "" ->
  (forall c1, P (String c1 "")) ->
  (forall c1 c2, P (String c1 (String c2 ""))) ->
  (forall c1 c2 c3 r,
      P (String c2 (String c3 r)) -> P (String c3 r) -> P r ->
      P (String c1 (String c2 (String c3 r)))) ->
  forall s, P s.
Proof.
  intros H0 H1 H2 H3.
  assert (A : forall s, P s /\ (forall c, P (String c s))
                        /\ forall c c', P (String c (String c' s))).
  { induction s as [|c s (IHa & IHb & IHc)].
    - split; [|split]; auto.
    - split; [|split]; auto. }
  intros s. apply A.
Qed.

Lemma trimLeftBy_eq3 (c1 c2 c3 : ascii) (r : string) :
  trim (String c1 (String c2 (String c3 r)))
  = if p1 c1 then trim (String c2 (String c3 r))
    else if p2 c1 c2 then trim (String c3 r)
         else if p3 c1 c2 c3 then trim r
              else String c1 (String c2 (String c3 r)).
Proof. reflexivity. Qed.

Lemma trimLeftBy_split (s : string) :
  exists l, s = l +:+ trim s /\ Run l.
Proof.
  induction s as [|c1|c1 c2|c1 c2 c3 r IH1 IH2 IH3] using string_ind3.
  - exists "". split; [reflexivity | constructor].
  - simpl. destruct (p1 c1) eqn:E1.
    + exists (String c1 ""). split; [reflexivity | now repeat constructor].
    + exists "". split; [reflexivity | constructor].
  - simpl. destruct (p1 c1) eqn:E1; [destruct (p1 c2) eqn:E2|destruct (p2 c1 c2) eqn:E2].
    + exists (String c1 (String c2 "")). split; [reflexivity | now repeat constructor].
    + exists (String c1 ""). split; [reflexivity | now repeat constructor].
    + exists (String c1 (String c2 "")). split; [reflexivity | now apply run_2; [|constructor]].
    + exists "". split; [reflexivity | constructor].
  - rewrite trimLeftBy_eq3.
    destruct (p1 c1) eqn:E1; [|destruct (p2 c1 c2) eqn:E2;
                                [|destruct (p3 c1 c2 c3) eqn:E3]].
    + destruct IH1 as (l & Hl & Rl). exists (String c1 l). split.
      * cbn [String.append]. now rewrite <- Hl.
      * now constructor.
    + destruct IH2 as (l & Hl & Rl). exists (String c1 (String c2 l)). split.
      * cbn [String.append]. now rewrite <- Hl.
      * now apply run_2.
    + destruct IH3 as (l & Hl & Rl). exists (String c1 (String c2 (String c3 l))). split.
      * cbn [String.append]. now rewrite <- Hl.
      * now apply run_3.
    + exists "". split; [reflexivity | constructor].
Qed.

Lemma trimLeftBy_starts (s : string) : starts (trim s) = false.
Proof.
  induction s as [|c1|c1 c2|c1 c2 c3 r IH1 IH2 IH3] using string_ind3.
  - reflexivity.
  - simpl. destruct (p1 c1) eqn:E1; simpl; [reflexivity | now rewrite E1].
  - simpl. destruct (p1 c1) eqn:E1; [destruct (p1 c2) eqn:E2|destruct (p2 c1 c2) eqn:E2];
      simpl; rewrite ?E1, ?E2; reflexivity.
  - rewrite trimLeftBy_eq3.
    destruct (p1 c1) eqn:E1; [|destruct (p2 c1 c2) eqn:E2;
                                [|destruct (p3 c1 c2 c3) eqn:E3]]; auto.
    simpl. now rewrite E1, E2, E3.
Qed.

Lemma starts_append (a b : string) : starts a = true -> starts (a +:+ b) = true.
Proof.
  destruct a as [|c1 [|c2 [|c3 a]]]; simpl; try discriminate.
  - rewrite orb_false_r. intros ->. reflexivity.
  - rewrite orb_false_r. intros H.
    destruct (p1 c1); [reflexivity |]. destruct (p2 c1 c2); [reflexivity | discriminate].
  - auto.
Qed.

Lemma Run_starts (s : string) : Run s -> s <> "" -> starts s = true.
Proof.
  intros R Hne. destruct R as [|c1 r E|c1 c2 r E|c1 c2 c3 r E]; simpl.
  - congruence.
  - now rewrite E.
  - rewrite E. apply orb_true_r.
  - rewrite E. rewrite !orb_true_r. reflexivity.
Qed.

Lemma Run_append (a b : string) : Run a -> Run b -> Run (a +:+ b).
Proof.
  induction 1; intros Rb; simpl; auto.
  - now apply run_1; auto.
  - now apply run_2; auto.
  - now apply run_3; auto.
Qed.

(** No sequence is the beginning of another one. *)
Hypothesis p1_p2 : forall c1 c2, p1 c1 = true -> p2 c1 c2 = false.
Hypothesis p1_p3 : forall c1 c2 c3, p1 c1 = true -> p3 c1 c2 c3 = false.
Hypothesis p2_p3 : forall c1 c2 c3, p2 c1 c2 = true -> p3 c1 c2 c3 = false.

Lemma Run_trim (s : string) : Run s -> trim s = "".
Proof.
  induction 1 as [|c1 r E R IH|c1 c2 r E R IH|c1 c2 c3 r E R IH].
  - reflexivity.
  - simpl. now rewrite E.
  - cbn [trimLeftBy]. destruct (p1 c1) eqn:E1.
    + rewrite (p1_p2 c1 c2 E1) in E. discriminate.
    + now rewrite E.
  - rewrite trimLeftBy_eq3. destruct (p1 c1) eqn:E1.
    + rewrite (p1_p3 c1 c2 c3 E1) in E. discriminate.
    + destruct (p2 c1 c2) eqn:E2.
      * rewrite (p2_p3 c1 c2 c3 E2) in E. discriminate.
      * now rewrite E.
Qed.

End TrimFacts.

Lemma RunOf_reverse (s : string) :
  RunOf isSpace1 isSpace2Rev isSpace3Rev s -> WhitespaceOnly (reverse s).
Proof.
  unfold WhitespaceOnly.
  induction 1 as [|c1 r E R IH|c1 c2 r E R IH|c1 c2 c3 r E R IH].
  - constructor.
  - rewrite reverse_cons. apply Run_append; [assumption |].
    apply run_1; [assumption | constructor].
  - rewrite !reverse_cons, append_assoc. apply Run_append; [assumption |].
    simpl. apply run_2; [assumption | constructor].
  - rewrite !reverse_cons, !append_assoc. apply Run_append; [assumption |].
    simpl. apply run_3; [assumption | constructor].
Qed.

Lemma isSpace1_isSpace2 c1 c2 : isSpace1 c1 = true -> isSpace2 c1 c2 = false.
Proof.
  destruct c1 as [[] [] [] [] [] [] [] []]; try discriminate; reflexivity.
Qed.

Lemma isSpace1_isSpace3 c1 c2 c3 : isSpace1 c1 = true -> isSpace3 c1 c2 c3 = false.
Proof.
  destruct c1 as [[] [] [] [] [] [] [] []]; try discriminate; reflexivity.
Qed.

Lemma isSpace2_isSpace3 c1 c2 c3 : isSpace2 c1 c2 = true -> isSpace3 c1 c2 c3 = false.
Proof.
  destruct c1 as [[] [] [] [] [] [] [] []]; try discriminate; reflexivity.
Qed.

Lemma TrimLeftSpace_split (s : string) :
  exists l, s = l +:+ TrimLeftSpace s /\ WhitespaceOnly l.
Proof. apply trimLeftBy_split. Qed.

Lemma TrimRightSpace_split (s : string) :
  exists r, s = TrimRightSpace s +:+ r /\ WhitespaceOnly r.
Proof.
  destruct (trimLeftBy_split isSpace1 isSpace2Rev isSpace3Rev (reverse s))
    as (x & Hx & Rx).
  exists (reverse x). split; [| now apply RunOf_reverse].
  apply (f_equal reverse) in Hx.
  rewrite reverse_involutive, reverse_append in Hx. exact Hx.
Qed.

(** [TrimSpace] cuts white space off both ends, and nothing else. *)
Lemma TrimSpace_split (s : string) :
  exists l r, s = l +:+ TrimSpace s +:+ r /\ WhitespaceOnly l /\ WhitespaceOnly r.
Proof.
  destruct (TrimLeftSpace_split s) as (l & Hl & Rl).
  destruct (TrimRightSpace_split (TrimLeftSpace s)) as (r & Hr & Rr).
  exists l, r. repeat split; try assumption.
  unfold TrimSpace. now rewrite <- Hr.
Qed.

Lemma TrimSpace_startsWithSpace (s : string) : startsWithSpace (TrimSpace s) = false.
Proof.
  destruct (TrimRightSpace_split (TrimLeftSpace s)) as (r & Hr & Rr).
  fold (TrimSpace s) in Hr.
  destruct (startsWithSpace (TrimSpace s)) eqn:S; [| reflexivity].
  apply (starts_append _ _ _ _ r) in S. rewrite <- Hr in S.
  unfold TrimLeftSpace in S. rewrite trimLeftBy_starts in S. discriminate.
Qed.

Lemma TrimSpace_endsWithSpace (s : string) : endsWithSpace (TrimSpace s) = false.
Proof.
  unfold endsWithSpace, TrimSpace, TrimRightSpace.
  rewrite reverse_involutive. apply trimLeftBy_starts.
Qed.

Lemma TrimSpace_not_whitespace (s : string) :
  TrimSpace s <> "" -> ~ WhitespaceOnly (TrimSpace s).
Proof.
  intros Hne R. apply Run_starts in R; [| assumption].
  fold (startsWithSpace (TrimSpace s)) in R.
  rewrite TrimSpace_startsWithSpace in R. discriminate.
Qed.

Lemma TrimSpace_whitespace (s : string) : WhitespaceOnly s -> TrimSpace s = "".
Proof.
  intros R. unfold TrimSpace, TrimLeftSpace.
  rewrite (Run_trim _ _ _ isSpace1_isSpace2 isSpace1_isSpace3 isSpace2_isSpace3 s R).
  reflexivity.
Qed.

(** *** Substrings *)

Lemma HasPrefix_spec (s p : string) : HasPrefix s p = true <-> exists b, s = p +:+ b.
Proof.
  revert s. induction p as [|c p IH]; intros s; simpl.
  - split; [intros _; now exists s | reflexivity].
  - destruct s as [|d s]; [split; [discriminate | intros (b & Hb); discriminate] |].
    rewrite andb_true_iff, IH. split.
    + intros (E & b & Hb). apply Ascii.eqb_eq in E. exists b. now rewrite E, Hb.
    + intros (b & Hb). injection Hb as -> ->. split; [apply Ascii.eqb_refl | now exists b].
Qed.

Lemma Contains_spec (s sub : string) :
  Contains s sub = true <-> exists a b, s = a +:+ sub +:+ b.
Proof.
  induction s as [|c s IH]; simpl.
  - rewrite orb_false_r, HasPrefix_spec. split.
    + intros (b & Hb). now exists "", b.
    + intros (a & b & H). destruct a; [now exists b | discriminate].
  - rewrite orb_true_iff, IH, HasPrefix_spec. split.
    + intros [(b & Hb)|(a & b & H)]; [now exists "", b | exists (String c a), b; now rewrite H].
    + intros (a & b & H). destruct a as [|x a]; [left; now exists b |].
      right. exists a, b. now injection H.
Qed.

Lemma Contains_append (a x b sub : string) :
  Contains x sub = true -> Contains (a +:+ x +:+ b) sub = true.
Proof.
  rewrite !Contains_spec. intros (u & v & ->).
  exists (a +:+ u), (v +:+ b). now rewrite !append_assoc.
Qed.

Lemma HasPrefix_sep (c : ascii) (sub a b : string) :
  occurs c sub = false ->
  HasPrefix (a +:+ String c b) sub = HasPrefix a sub.
Proof.
  revert a. induction sub as [|x sub IH]; intros a H; [reflexivity |].
  simpl in H. apply orb_false_iff in H as [Hx Hs].
  destruct a as [|y a]; simpl.
  - rewrite Ascii.eqb_sym, Hx. reflexivity.
  - now rewrite IH.
Qed.

(** A substring without the byte [c] lies on one side of a [c]. *)
Lemma Contains_sep (c : ascii) (sub a b : string) :
  occurs c sub = false ->
  Contains (a +:+ String c b) sub = Contains a sub || Contains b sub.
Proof.
  intros H. induction a as [|y a IH].
  - change ("" +:+ String c b) with (String c b). cbn [Contains].
    rewrite orb_false_r, <- (HasPrefix_sep c sub "" b H). reflexivity.
  - cbn [String.append Contains].
    change (String y (a +:+ String c b)) with (String y a +:+ String c b).
    rewrite (HasPrefix_sep c sub (String y a) b H), IH, !orb_assoc. reflexivity.
Qed.

(** *** Splitting *)

Lemma Split_not_nil (s : string) (sep : ascii) : Split s sep <> [].
Proof.
  destruct s as [|c s]; simpl; [discriminate |].
  destruct (Ascii.eqb c sep); [discriminate |].
  destruct (Split s sep); discriminate.
Qed.

Lemma Join_cons (p : string) (l : list string) (sep : ascii) :
  l <> [] -> Join (p :: l) sep = p +:+ String sep (Join l sep).
Proof. destruct l; [congruence | reflexivity]. Qed.

Lemma Join_head (c : ascii) (p : string) (l : list string) (sep : ascii) :
  Join (String c p :: l) sep = String c (Join (p :: l) sep).
Proof. destruct l; reflexivity. Qed.

Lemma Join_Split (s : string) (sep : ascii) : Join (Split s sep) sep = s.
Proof.
  induction s as [|c s IH]; [reflexivity |].
  cbn [Split]. destruct (Ascii.eqb_spec c sep) as [->|Hne].
  - rewrite Join_cons by apply Split_not_nil. now rewrite IH.
  - pose proof (Split_not_nil s sep).
    destruct (Split s sep) as [|p ps] eqn:E; [congruence |].
    now rewrite Join_head, IH.
Qed.

Lemma Split_no_sep (s : string) (sep : ascii) :
  Forall (fun p => occurs sep p = false) (Split s sep).
Proof.
  induction s as [|c s IH]; simpl; [repeat constructor |].
  destruct (Ascii.eqb_spec c sep) as [->|Hne].
  - constructor; [reflexivity | assumption].
  - destruct (Split s sep) as [|p ps]; simpl.
    + repeat constructor. simpl. rewrite orb_false_r. now apply Ascii.eqb_neq.
    + inversion IH as [|? ? Hp Hps]; subst. constructor; [| assumption].
      simpl. rewrite Hp, orb_false_r. now apply Ascii.eqb_neq.
Qed.

Lemma Split_without_sep (s : string) (sep : ascii) :
  occurs sep s = false -> Split s sep = [s].
Proof.
  induction s as [|c s IH]; simpl; [reflexivity |].
  intros H. apply orb_false_iff in H as [Hc Hs].
  rewrite Hc, (IH Hs). reflexivity.
Qed.

Lemma WhitespaceOnly_no_comma (s : string) : WhitespaceOnly s -> occurs "," s = false.
Proof.
  induction 1 as [|c1 r E R IH|c1 c2 r E R IH|c1 c2 c3 r E R IH]; simpl; rewrite ?IH.
  - reflexivity.
  - destruct c1 as [[] [] [] [] [] [] [] []]; try discriminate; reflexivity.
  - destruct c1 as [[] [] [] [] [] [] [] []]; try discriminate;
      destruct c2 as [[] [] [] [] [] [] [] []]; try discriminate; reflexivity.
  - destruct c1 as [[] [] [] [] [] [] [] []]; try discriminate;
      destruct c2 as [[] [] [] [] [] [] [] []]; try discriminate;
      destruct c3 as [[] [] [] [] [] [] [] []]; try discriminate; reflexivity.
Qed.

End StringFacts.

(** ** [parseInstances] *)

Lemma filterEmptyStrings_loop_spec (slice filtered : list string) :
  filterEmptyStrings_loop slice filtered
  = filtered ++ List.filter (fun t => negb (String.eqb t ""))
                  (List.map Strings.TrimSpace slice).
Proof.
  revert filtered. induction slice as [|s slice IH]; intros filtered; simpl.
  - now rewrite app_nil_r.
  - destruct (negb (String.eqb (Strings.TrimSpace s) "")); rewrite IH; [| reflexivity].
    now rewrite <- app_assoc.
Qed.

Lemma filterEmptyStrings_spec (slice : list string) :
  filterEmptyStrings slice
  = List.filter (fun t => negb (String.eqb t "")) (List.map Strings.TrimSpace slice).
Proof. apply filterEmptyStrings_loop_spec. Qed.

Lemma parseInstances_Forall (instanceFlag : string) :
  Forall (fun t => t <> "" /\ ~ Strings.WhitespaceOnly t
                   /\ Strings.startsWithSpace t = false
                   /\ Strings.endsWithSpace t = false)
    (parseInstances instanceFlag).
Proof.
  unfold parseInstances. rewrite filterEmptyStrings_spec.
  induction (Strings.Split instanceFlag ",") as [|p ps IH]; simpl; [constructor |].
  destruct (String.eqb_spec (Strings.TrimSpace p) "") as [E|Hne]; simpl; [assumption |].
  constructor; [| assumption]. repeat split.
  - assumption.
  - now apply StringFacts.TrimSpace_not_whitespace.
  - apply StringFacts.TrimSpace_startsWithSpace.
  - apply StringFacts.TrimSpace_endsWithSpace.
Qed.

(** C3.  [parseInstances] cuts the flag at its commas (the pieces hold no
    comma and, joined by commas, give the flag back), trims the white space
    around each piece (what is cut off either side is white space alone, and
    what remains neither begins nor ends with white space), drops the pieces
    that are empty after trimming and keeps the others in their order: the
    result is the filtered list of the trimmed pieces.  No element of the
    result is empty or white space alone, and "a, ,b,,c " gives a, b, c. *)
Theorem C3_parseInstances (instanceFlag : string) :
  let pieces := Strings.Split instanceFlag "," in
  Strings.Join pieces "," = instanceFlag
  /\ Forall (fun p => Strings.occurs "," p = false) pieces
  /\ (forall p, exists l r,
         p = l +:+ Strings.TrimSpace p +:+ r
         /\ Strings.WhitespaceOnly l /\ Strings.WhitespaceOnly r
         /\ Strings.startsWithSpace (Strings.TrimSpace p) = false
         /\ Strings.endsWithSpace (Strings.TrimSpace p) = false)
  /\ parseInstances instanceFlag
     = List.filter (fun t => negb (String.eqb t "")) (List.map Strings.TrimSpace pieces)
  /\ Forall (fun t => t <> "" /\ ~ Strings.WhitespaceOnly t) (parseInstances instanceFlag)
  /\ parseInstances "a, ,b,,c " = ["a"; "b"; "c"].
Proof.
  cbv zeta. split; [apply StringFacts.Join_Split |].
  split; [apply StringFacts.Split_no_sep |].
  split.
  { intros p. destruct (StringFacts.TrimSpace_split p) as (l & r & E & Hl & Hr).
    exists l, r. repeat split; try assumption.
    - apply StringFacts.TrimSpace_startsWithSpace.
    - apply StringFacts.TrimSpace_endsWithSpace. }
  split; [apply filterEmptyStrings_spec |].
  split; [| reflexivity].
  eapply List.Forall_impl; [| apply parseInstances_Forall].
  intros t (H1 & H2 & _). now split.
Qed.

(** ** The JSON decoder *)

Module JsonFacts.

Import Strings Json.

Lemma within_mono {A : Type} (n m : nat) (r : scan A) :
  n <= m -> within n r -> within m r.
Proof. destruct r; simpl; auto; lia. Qed.

Lemma within_consRaw (n : nat) (c : ascii) (r : scan string) :
  within n r -> within n (consRaw c r).
Proof. destruct r; simpl; auto. Qed.

Lemma within_appRaw (n : nat) (p : string) (r : scan string) :
  within n r -> within n (appRaw p r).
Proof. destruct r; simpl; auto. Qed.

Lemma skipSpace_length (s : string) : String.length (skipSpace s) <= String.length s.
Proof.
  induction s as [|c s IH]; simpl; [lia |].
  destruct (isSpace c); simpl; lia.
Qed.

Lemma skipSpace_cons (s : string) (c : ascii) (r : string) :
  skipSpace s = String c r -> String.length r < String.length s.
Proof.
  intros E. pose proof (skipSpace_length s) as H. rewrite E in H. simpl in H. lia.
Qed.

Lemma scanString_within (s : string) :
  forall st n, String.length s <= S n -> within n (scanString st s).
Proof.
  induction s as [|c s IH]; intros st n H; cbn [scanString]; [exact I |].
  simpl in H.
  assert (R : forall st', within n (scanString st' s)).
  { intros st'. destruct n as [|n].
    - destruct s; [exact I | simpl in H; lia].
    - apply (within_mono n (S n)); [lia | apply IH; lia]. }
  destruct st.
  - destruct (isChar c quote); [simpl; lia |].
    destruct (isChar c "\"); [apply within_consRaw, R |].
    destruct (code c <? 32)%N; [exact I | apply within_consRaw, R].
  - destruct (isSimpleEscape c); [apply within_consRaw, R |].
    destruct (isChar c "u"); [apply within_consRaw, R | exact I].
  - destruct (isHex c); [apply within_consRaw, R | exact I].
Qed.

Lemma scanQuoted_within (s : string) (n : nat) :
  String.length s <= S n -> within n (scanQuoted s).
Proof.
  intros H. unfold scanQuoted.
  pose proof (scanString_within s SIn n H) as W.
  destruct (scanString SIn s); simpl in *; auto.
  destruct (unquote a); simpl; auto.
Qed.

Lemma spanDigits_length (s : string) :
  String.length (snd (spanDigits s)) <= String.length s.
Proof.
  induction s as [|c s IH]; simpl; [lia |].
  destruct (isDigit c); simpl; [| lia].
  destruct (spanDigits s); simpl in *. lia.
Qed.

Lemma scanDigits_within (s : string) (n : nat) :
  String.length s <= S n -> within n (scanDigits s).
Proof.
  intros H. destruct s as [|c s]; simpl; [exact I |].
  destruct (isDigit c); [| exact I].
  pose proof (spanDigits_length s) as L.
  destruct (spanDigits s); simpl in *. lia.
Qed.

Lemma scanExp_within (s : string) (n : nat) :
  String.length s <= n -> within n (scanExp s).
Proof.
  intros H. destruct s as [|c s]; simpl; [lia |].
  destruct (_ || _); [| exact H].
  destruct s as [|sg s]; [exact I |].
  simpl in H.
  destruct (_ || _); repeat apply within_consRaw.
  - destruct s as [|d s]; [exact I |].
    apply (within_mono (String.length s)); [simpl in H; lia |].
    apply scanDigits_within. simpl. lia.
  - apply (within_mono (String.length s)); [lia |].
    apply scanDigits_within. simpl. lia.
Qed.

Lemma scanFrac_within (s : string) (n : nat) :
  String.length s <= n -> within n (scanFrac s).
Proof.
  intros H. destruct s as [|c s]; [simpl; lia |].
  unfold scanFrac.
  destruct (isChar c "."); [| now apply scanExp_within].
  simpl in H.
  pose proof (scanDigits_within s (String.length s) ltac:(lia)) as W.
  destruct (scanDigits s) as [d rest| |]; simpl in W; auto.
  apply within_consRaw, within_appRaw, scanExp_within. lia.
Qed.

Lemma scanInt_within (s : string) (n : nat) :
  String.length s <= S n -> within n (scanInt s).
Proof.
  intros H. destruct s as [|c s]; [exact I |].
  unfold scanInt. simpl in H.
  destruct (isChar c "0"); [apply within_consRaw, scanFrac_within; lia |].
  destruct (between 49 57 c); [| exact I].
  pose proof (spanDigits_length s) as L.
  destruct (spanDigits s) as [d rest]; simpl in L.
  apply within_appRaw, scanFrac_within. lia.
Qed.

Lemma scanNumber_within (s : string) (n : nat) :
  String.length s <= S n -> within n (scanNumber s).
Proof.
  intros H. destruct s as [|c s]; [exact I |].
  unfold scanNumber.
  destruct (isChar c "-"); [| now apply scanInt_within].
  simpl in H. apply within_consRaw.
  destruct n as [|n].
  - destruct s; [exact I | simpl in H; lia].
  - apply (within_mono n); [lia | apply scanInt_within; lia].
Qed.

Lemma scanLit_within (lit s : string) (n : nat) :
  String.length s <= n -> within n (scanLit lit s).
Proof.
  revert s n. induction lit as [|l lit IH]; intros s n H; simpl; [exact H |].
  destruct s as [|c s]; [exact I |].
  destruct (Ascii.eqb c l); [| exact I].
  simpl in H. apply IH. lia.
Qed.

Lemma litValue_within (lit : string) (v : value) (s : string) (n : nat) :
  String.length s <= n -> within n (litValue lit v s).
Proof.
  intros H. unfold litValue. pose proof (scanLit_within lit s n H) as W.
  destruct (scanLit lit s); simpl in *; auto.
Qed.

(** With fuel for twice the length of the input, the parser ends by
    itself, and a value takes one byte at least. *)
Lemma parse_within (f : nat) :
  (forall d s n, String.length s <= S n -> 2 * S n + 1 <= f ->
                 within n (parseValue f d s))
  /\ (forall d acc s n, String.length s <= S n -> 2 * S n + 1 <= f ->
                        within n (parseMembers f d acc s))
  /\ (forall d acc s n, String.length s <= S n -> 2 * S n + 2 <= f ->
                        within n (parseElements f d acc s)).
Proof.
  induction f as [|f (IHv & IHm & IHe)]; [repeat split; intros; lia |].
  split; [| split].
  - intros d s n Hs Hf. cbn [parseValue].
    destruct (skipSpace s) as [|c r] eqn:E; [exact I |].
    apply skipSpace_cons in E.
    destruct (isChar c "{").
    { destruct (_ <? _)%N; [exact I |].
      destruct (skipSpace r) as [|c' r'] eqn:E'; [exact I |].
      pose proof (skipSpace_length r) as L. rewrite E' in L.
      destruct (isChar c' "}"); [simpl in *; lia |].
      destruct n as [|n]; [simpl in L; lia |].
      apply (within_mono n); [lia |]. apply IHm; lia. }
    destruct (isChar c "[").
    { destruct (_ <? _)%N; [exact I |].
      destruct (skipSpace r) as [|c' r'] eqn:E'; [exact I |].
      pose proof (skipSpace_length r) as L. rewrite E' in L.
      destruct (isChar c' "]"); [simpl in *; lia |].
      destruct n as [|n]; [simpl in L; lia |].
      apply (within_mono n); [lia |]. apply IHe; lia. }
    destruct (isChar c quote).
    { destruct n as [|n].
      - destruct r; [exact I | simpl in E; lia].
      - pose proof (scanQuoted_within r n ltac:(lia)) as W.
        destruct (scanQuoted r); simpl in *; auto; lia. }
    destruct (_ || _).
    { pose proof (scanNumber_within (String c r) n ltac:(simpl; lia)) as W.
      destruct (scanNumber (String c r)); simpl in *; auto. }
    destruct (isChar c "t"); [apply litValue_within; lia |].
    destruct (isChar c "f"); [apply litValue_within; lia |].
    destruct (isChar c "n"); [apply litValue_within; lia | exact I].
  - intros d acc s n Hs Hf. cbn [parseMembers].
    destruct (skipSpace s) as [|c r] eqn:E; [exact I |].
    apply skipSpace_cons in E.
    destruct (isChar c quote); [| exact I].
    destruct n as [|n]; [destruct r; [exact I | simpl in E; lia] |].
    pose proof (scanQuoted_within r n ltac:(lia)) as W.
    destruct (scanQuoted r) as [key r1| |]; simpl in W; auto.
    destruct (skipSpace r1) as [|c1 r2] eqn:E1; [exact I |].
    apply skipSpace_cons in E1.
    destruct (isChar c1 ":"); [| exact I].
    destruct n as [|n]; [lia |].
    pose proof (IHv d r2 n ltac:(lia) ltac:(lia)) as Wv.
    destruct (parseValue f d r2) as [v r3| |]; simpl in Wv; auto.
    destruct (skipSpace r3) as [|c2 r4] eqn:E3; [exact I |].
    apply skipSpace_cons in E3.
    destruct (isChar c2 ",").
    { destruct n as [|n]; [lia |].
      apply (within_mono n); [lia |]. apply IHm; lia. }
    destruct (isChar c2 "}"); [simpl; lia | exact I].
  - intros d acc s n Hs Hf. cbn [parseElements].
    pose proof (IHv d s n Hs ltac:(lia)) as Wv.
    destruct (parseValue f d s) as [v r1| |]; simpl in Wv; auto.
    destruct (skipSpace r1) as [|c r2] eqn:E1; [exact I |].
    apply skipSpace_cons in E1.
    destruct (isChar c ",").
    { destruct n as [|n]; [lia |].
      apply (within_mono n); [lia |]. apply IHe; lia. }
    destruct (isChar c "]"); [simpl; lia | exact I].
Qed.

(** [readValue] gives the parser fuel enough. *)
Lemma readValue_fuel (body : string) :
  parseValue (S (2 * String.length body)) 0 body <> OutOfFuel.
Proof.
  destruct body as [|c body]; [discriminate |].
  destruct (parse_within (S (2 * String.length (String c body)))) as (Hv & _).
  pose proof (Hv 0%N (String c body) (String.length body)
                ltac:(simpl; lia) ltac:(simpl; lia)) as W.
  intros E. rewrite E in W. exact W.
Qed.

(** *** Unmarshalling *)

Lemma object_spec (members : list (string * value)) (r : string) (saved : option error) :
  object members ({| ReleaseNumber := r |}, saved)
  = ({| ReleaseNumber := JsonSpec.lastString (JsonSpec.ownValues members) r |},
     match saved with
     | Some e => Some e
     | None =>
         match JsonSpec.refused (JsonSpec.ownValues members) with
         | Some k => Some (UnmarshalTypeError k)
         | None => None
         end
     end).
Proof.
  revert r saved. induction members as [|[key v] members IH]; intros r saved.
  - simpl. now destruct saved.
  - cbn [object]. unfold JsonSpec.ownValues in *. cbn [List.filter fst].
    destruct (matchesField key); [| apply IH].
    cbn [List.map snd].
    destruct v; cbn [storeField kindOf fst snd saveError
                       JsonSpec.lastString JsonSpec.refused];
      try (rewrite IH; destruct saved; reflexivity).
    all: destruct saved; rewrite IH; reflexivity.
Qed.

Lemma unmarshal_Object (members : list (string * value)) :
  unmarshal (Object members)
  = match JsonSpec.refused (JsonSpec.ownValues members) with
    | Some k => inr (UnmarshalTypeError k)
    | None => inl {| ReleaseNumber := JsonSpec.lastString (JsonSpec.ownValues members) "" |}
    end.
Proof.
  unfold unmarshal. rewrite object_spec.
  now destruct (JsonSpec.refused _).
Qed.

(** *** String literals *)

Lemma hex4_length (s : string) (n : N) (r : string) :
  hex4 s = Some (n, r) -> String.length s = 4 + String.length r.
Proof.
  destruct s as [|h1 [|h2 [|h3 [|h4 s]]]]; try discriminate.
  unfold hex4.
  destruct (hexVal h1), (hexVal h2), (hexVal h3), (hexVal h4); try discriminate.
  intros [= _ <-]. reflexivity.
Qed.

Lemma getu4_length (s : string) (n : N) (r : string) :
  getu4 s = Some (n, r) -> String.length s = 6 + String.length r.
Proof.
  destruct s as [|b [|u s]]; try discriminate.
  unfold getu4. destruct (_ && _); [| discriminate].
  intros H%hex4_length. simpl. lia.
Qed.

Lemma decodeRune_length (s enc rest : string) :
  decodeRune s = Some (enc, rest) -> String.length rest < String.length s.
Proof.
  destruct s as [|c1 [|c2 s]]; try discriminate.
  unfold decodeRune.
  destruct (between 194 223 c1).
  { destruct (isCont c2); [| discriminate]. intros [= _ <-]. simpl. lia. }
  destruct s as [|c3 s]; [discriminate |].
  destruct (between 224 239 c1).
  { destruct (_ && _); [| discriminate]. intros [= _ <-]. simpl. lia. }
  destruct s as [|c4 s]; [discriminate |].
  destruct (_ && _); [| discriminate]. intros [= _ <-]. simpl. lia.
Qed.

(** A turn of the loop looks at what is left only after the bytes it has
    used. *)
Lemma unquoteNext_ext (k1 k2 : string -> option string) (s : string) :
  (forall x, String.length x < String.length s -> k1 x = k2 x) ->
  unquoteNext k1 s = unquoteNext k2 s.
Proof.
  intros H. destruct s as [|c r]; [reflexivity |].
  unfold unquoteNext.
  destruct (isChar c "\").
  { destruct r as [|e r']; [reflexivity |].
    destruct (isChar e "u").
    - destruct (hex4 r') as [[rr r2]|] eqn:E4; [| reflexivity].
      apply hex4_length in E4.
      destruct (isSurrogate rr).
      + destruct (getu4 r2) as [[rr1 r3]|] eqn:E6.
        * apply getu4_length in E6.
          destruct (_ =? _)%N; rewrite H; try reflexivity; simpl; lia.
        * rewrite H; [reflexivity | simpl; lia].
      + rewrite H; [reflexivity | simpl; lia].
    - destruct (simpleEscape e); [| reflexivity].
      rewrite H; [reflexivity | simpl; lia]. }
  destruct (_ || _); [reflexivity |].
  destruct (_ <? _)%N; [rewrite H; [reflexivity | simpl; lia] |].
  destruct (decodeRune (String c r)) as [[enc rest]|] eqn:E.
  - apply decodeRune_length in E. now rewrite H.
  - rewrite H; [reflexivity | simpl; lia].
Qed.

(** [unquote] gives the loop fuel enough: more fuel changes nothing. *)
Lemma unquoteBytes_fuel (f : nat) (s : string) :
  String.length s <= f -> unquoteBytes f s = unquote s.
Proof.
  unfold unquote.
  assert (A : forall n f s, String.length s <= n -> n <= f ->
                            unquoteBytes f s = unquoteBytes n s).
  { induction n as [|n IH]; intros f' s' Hs Hf.
    - destruct s'; [| simpl in Hs; lia]. now destruct f'.
    - destruct f' as [|f']; [lia |].
      cbn [unquoteBytes]. apply unquoteNext_ext.
      intros x Hx. apply IH; lia. }
  intros H. apply A; lia.
Qed.

Lemma unquote_plain (s : string) : JsonSpec.plain s = true -> unquote s = Some s.
Proof.
  unfold unquote. induction s as [|c s IH]; [reflexivity |].
  cbn [JsonSpec.plain]. intros (Hc & Hs)%andb_true_iff.
  cbn [String.length unquoteBytes]. unfold unquoteNext.
  unfold JsonSpec.plainByte in Hc.
  apply andb_true_iff in Hc as (Hc & Hb). apply andb_true_iff in Hc as (Hc & Hq).
  apply andb_true_iff in Hc as (Hlo & Hhi).
  apply negb_true_iff in Hb, Hq. rewrite Hb, Hq, Hhi.
  apply N.leb_le in Hlo. apply N.ltb_lt in Hhi.
  destruct (N.ltb_spec (code c) 32); [lia |].
  cbn [orb]. rewrite (IH Hs). reflexivity.
Qed.

Lemma scanString_plain (v rest : string) :
  JsonSpec.plain v = true -> scanString SIn (v +:+ String dquote rest) = Ok v rest.
Proof.
  induction v as [|c v IH]; [reflexivity |].
  cbn [JsonSpec.plain]. intros (Hc & Hs)%andb_true_iff.
  cbn [String.append scanString].
  unfold JsonSpec.plainByte in Hc.
  apply andb_true_iff in Hc as (Hc & Hb). apply andb_true_iff in Hc as (Hc & Hq).
  apply andb_true_iff in Hc as (Hlo & Hhi).
  apply negb_true_iff in Hb, Hq. rewrite Hb, Hq.
  apply N.leb_le in Hlo.
  destruct (N.ltb_spec (code c) 32); [lia |].
  rewrite (IH Hs). reflexivity.
Qed.

Lemma scanQuoted_plain (v rest : string) :
  JsonSpec.plain v = true -> scanQuoted (v +:+ String dquote rest) = Ok v rest.
Proof.
  intros H. unfold scanQuoted. now rewrite scanString_plain, unquote_plain.
Qed.

(** What the scanner has let through, [unquote] takes. *)
Lemma scanString_Scanned (s : string) :
  forall st raw rest,
    scanString st s = Ok raw rest ->
    match st with
    | SIn => Scanned raw
    | SEsc => forall b, isChar b "\" = true -> Scanned (String b raw)
    | SU k =>
        forall b u h1 h2 h3,
          isChar b "\" = true -> isChar u "u" = true ->
          isHex h1 = true -> isHex h2 = true -> isHex h3 = true ->
          match k with
          | 4 => Scanned (String b (String u raw))
          | 3 => Scanned (String b (String u (String h1 raw)))
          | 2 => Scanned (String b (String u (String h1 (String h2 raw))))
          | 1 => Scanned (String b (String u (String h1 (String h2 (String h3 raw)))))
          | _ => True
          end
    end.
Proof.
  induction s as [|c s IH]; intros st raw rest; [destruct st; discriminate |].
  cbn [scanString]. destruct st as [| |k].
  - destruct (isChar c quote) eqn:Eq; [intros [= <- <-]; constructor |].
    destruct (isChar c "\") eqn:Eb.
    + destruct (scanString SEsc s) as [raw' rest'| |] eqn:E; try discriminate.
      intros [= <- <-]. exact (IH SEsc raw' rest' E c Eb).
    + destruct (code c <? 32)%N eqn:Ec; [discriminate |].
      destruct (scanString SIn s) as [raw' rest'| |] eqn:E; try discriminate.
      intros [= <- <-]. apply scanned_byte; try assumption.
      exact (IH SIn raw' rest' E).
  - destruct (isSimpleEscape c) eqn:Es.
    + destruct (scanString SIn s) as [raw' rest'| |] eqn:E; try discriminate.
      intros [= <- <-] b Hb. apply scanned_escape; try assumption.
      exact (IH SIn raw' rest' E).
    + destruct (isChar c "u") eqn:Eu; [| discriminate].
      destruct (scanString (SU 4) s) as [raw' rest'| |] eqn:E; try discriminate.
      intros [= <- <-] b Hb.
      exact (IH (SU 4) raw' rest' E b c "0"%char "0"%char "0"%char
               Hb Eu eq_refl eq_refl eq_refl).
  - destruct (isHex c) eqn:Eh; [| discriminate].
    destruct k as [|[|[|[|[|k]]]]].
    + intros _ b u h1 h2 h3 _ _ _ _ _. exact I.
    + destruct (scanString SIn s) as [raw' rest'| |] eqn:E; try discriminate.
      intros [= <- <-] b u h1 h2 h3 Hb Hu H1 H2 H3.
      apply scanned_unicode; try assumption. exact (IH SIn raw' rest' E).
    + destruct (scanString (SU 1) s) as [raw' rest'| |] eqn:E; try discriminate.
      intros [= <- <-] b u h1 h2 h3 Hb Hu H1 H2 H3.
      exact (IH (SU 1) raw' rest' E b u h1 h2 c Hb Hu H1 H2 Eh).
    + destruct (scanString (SU 2) s) as [raw' rest'| |] eqn:E; try discriminate.
      intros [= <- <-] b u h1 h2 h3 Hb Hu H1 H2 H3.
      exact (IH (SU 2) raw' rest' E b u h1 c h3 Hb Hu H1 Eh H3).
    + destruct (scanString (SU 3) s) as [raw' rest'| |] eqn:E; try discriminate.
      intros [= <- <-] b u h1 h2 h3 Hb Hu H1 H2 H3.
      exact (IH (SU 3) raw' rest' E b u c h2 h3 Hb Hu Eh H2 H3).
    + intros _ b u h1 h2 h3 _ _ _ _ _. exact I.
Qed.

Lemma isSimpleEscape_simpleEscape (e : ascii) :
  isSimpleEscape e = true -> isChar e "u" = false /\ exists b, simpleEscape e = Some b.
Proof.
  destruct e as [[] [] [] [] [] [] [] []]; try discriminate;
    intros _; (split; [reflexivity | eexists; reflexivity]).
Qed.

Lemma backslash_low (c : ascii) : isChar c "\" = true -> (code c <? 128)%N = true.
Proof. destruct c as [[] [] [] [] [] [] [] []]; try discriminate; reflexivity. Qed.

Lemma Scanned_tail (c : ascii) (r : string) :
  Scanned (String c r) -> (code c <? 128)%N = false -> Scanned r.
Proof.
  intros H Hc. inversion H; subst; [assumption | |];
    match goal with
    | Hb : isChar c _ = true |- _ => apply backslash_low in Hb; congruence
    end.
Qed.

Lemma between_high (lo hi : N) (c : ascii) :
  (128 <= lo)%N -> between lo hi c = true -> (code c <? 128)%N = false.
Proof.
  unfold between. intros Hlo (H1 & _)%andb_true_iff.
  apply N.leb_le in H1. apply N.ltb_ge. lia.
Qed.

Lemma isCont_high (c : ascii) : isCont c = true -> (code c <? 128)%N = false.
Proof. apply (between_high 128 191). lia. Qed.

Lemma decodeRune_high (s enc rest : string) :
  decodeRune s = Some (enc, rest) ->
  exists c r, s = String c r /\ (code c <? 128)%N = false
              /\ (rest = r
                  \/ exists c2 r2, r = String c2 r2 /\ (code c2 <? 128)%N = false
                       /\ (rest = r2
                           \/ exists c3 r3, r2 = String c3 r3
                                /\ (code c3 <? 128)%N = false
                                /\ (rest = r3
                                    \/ exists c4, r3 = String c4 rest
                                         /\ (code c4 <? 128)%N = false))).
Proof.
  destruct s as [|c1 [|c2 s]]; try discriminate.
  unfold decodeRune.
  destruct (between 194 223 c1) eqn:B1.
  { destruct (isCont c2) eqn:C2; [| discriminate]. intros [= _ <-].
    exists c1, (String c2 s). split; [reflexivity |].
    split; [apply (between_high 194 223); [lia | assumption] |].
    right. exists c2, s. split; [reflexivity |].
    split; [now apply isCont_high | now left]. }
  destruct s as [|c3 s]; [discriminate |].
  assert (T : forall (a b : bool) (x y : bool),
             (if a then x else if b then y else isCont c2) = true ->
             (a = true -> x = true -> (code c2 <? 128)%N = false) ->
             (b = true -> y = true -> (code c2 <? 128)%N = false) ->
             (code c2 <? 128)%N = false).
  { intros [] [] x y H Hx Hy; auto; now apply isCont_high. }
  destruct (between 224 239 c1) eqn:B2.
  { destruct (_ && _) eqn:C; [| discriminate]. intros [= _ <-].
    apply andb_true_iff in C as (C2 & C3).
    exists c1, (String c2 (String c3 s)). split; [reflexivity |].
    split; [apply (between_high 224 239); [lia | assumption] |].
    right. exists c2, (String c3 s). split; [reflexivity |]. split.
    - apply (T _ _ _ _ C2); intros _; apply between_high; lia.
    - right. exists c3, s. split; [reflexivity |].
      split; [now apply isCont_high | now left]. }
  destruct s as [|c4 s]; [discriminate |].
  destruct (_ && _) eqn:C; [| discriminate]. intros [= _ <-].
  apply andb_true_iff in C as (C & C4). apply andb_true_iff in C as (C & C3).
  apply andb_true_iff in C as (C1 & C2).
  exists c1, (String c2 (String c3 (String c4 s))). split; [reflexivity |].
  split; [apply (between_high 240 244); [lia | assumption] |].
  right. exists c2, (String c3 (String c4 s)). split; [reflexivity |]. split.
  - apply (T _ _ _ _ C2); intros _; apply between_high; lia.
  - right. exists c3, (String c4 s). split; [reflexivity |].
    split; [now apply isCont_high |].
    right. exists c4. split; [reflexivity | now apply isCont_high].
Qed.

Lemma decodeRune_Scanned (s enc rest : string) :
  Scanned s -> decodeRune s = Some (enc, rest) -> Scanned rest.
Proof.
  intros H E.
  destruct (decodeRune_high _ _ _ E)
    as (c1 & r1 & -> & H1 & [->|(c2 & r2 & -> & H2 & [->|(c3 & r3 & -> & H3 & [->|(c4 & -> & H4)])])]).
  - now apply (Scanned_tail c1).
  - apply (Scanned_tail c2); [| assumption]. now apply (Scanned_tail c1).
  - apply (Scanned_tail c3); [| assumption].
    apply (Scanned_tail c2); [| assumption]. now apply (Scanned_tail c1).
  - apply (Scanned_tail c4); [| assumption]. apply (Scanned_tail c3); [| assumption].
    apply (Scanned_tail c2); [| assumption]. now apply (Scanned_tail c1).
Qed.

Lemma Scanned_getu4 (s : string) (v : N) (rest : string) :
  Scanned s -> getu4 s = Some (v, rest) -> Scanned rest.
Proof.
  intros H. destruct s as [|b [|u s]]; try discriminate.
  unfold getu4. destruct (isChar b "\" && isChar u "u") eqn:E; [| discriminate].
  apply andb_true_iff in E as (Eb & Eu).
  destruct s as [|h1 [|h2 [|h3 [|h4 s]]]]; try discriminate.
  unfold hex4.
  destruct (hexVal h1), (hexVal h2), (hexVal h3), (hexVal h4); try discriminate.
  intros [= _ <-].
  inversion H; subst.
  - congruence.
  - match goal with
    | He : isSimpleEscape u = true |- _ =>
        apply isSimpleEscape_simpleEscape in He as (He & _); congruence
    end.
  - assumption.
Qed.

Lemma isHex_hexVal (c : ascii) : isHex c = true -> exists v, hexVal c = Some v.
Proof. unfold isHex. destruct (hexVal c) as [v|]; [now exists v | discriminate]. Qed.

Lemma consOpt_Some (p : string) (r : option string) :
  (exists t, r = Some t) -> exists t, consOpt p r = Some t.
Proof. intros (t & ->). now eexists. Qed.

(** The raw texts the scanner lets through are unquoted: [scanQuoted] fails
    only where the scanner does. *)
Lemma Scanned_unquote (n : nat) :
  forall raw, String.length raw <= n -> Scanned raw ->
              exists t, unquoteBytes n raw = Some t.
Proof.
  induction n as [|n IH]; intros raw Hlen H.
  - destruct raw; [now exists "" | simpl in Hlen; lia].
  - cbn [unquoteBytes].
    destruct H as [|c r Eq Eb Ec Hr|b e r Hb He Hr|b u h1 h2 h3 h4 r Hb Hu H1 H2 H3 H4 Hr];
      unfold unquoteNext.
    + now exists "".
    + rewrite Eb, Eq, Ec. cbn [orb]. simpl in Hlen.
      destruct (code c <? 128)%N; [apply consOpt_Some, IH; [lia | assumption] |].
      destruct (decodeRune (String c r)) as [[enc rest]|] eqn:E.
      * apply consOpt_Some, IH.
        -- apply decodeRune_length in E. simpl in E. lia.
        -- apply (decodeRune_Scanned (String c r) enc rest); [| assumption].
           now apply scanned_byte.
      * apply consOpt_Some, IH; [lia | assumption].
    + rewrite Hb. apply isSimpleEscape_simpleEscape in He as (Eu & b' & ->).
      rewrite Eu. simpl in Hlen. apply consOpt_Some, IH; [lia | assumption].
    + rewrite Hb, Hu. unfold hex4.
      apply isHex_hexVal in H1 as (v1 & ->). apply isHex_hexVal in H2 as (v2 & ->).
      apply isHex_hexVal in H3 as (v3 & ->). apply isHex_hexVal in H4 as (v4 & ->).
      simpl in Hlen.
      destruct (isSurrogate _); [| apply consOpt_Some, IH; [lia | assumption]].
      destruct (getu4 r) as [[rr1 r3]|] eqn:E;
        [| apply consOpt_Some, IH; [lia | assumption]].
      destruct (_ =? _)%N; [apply consOpt_Some, IH; [lia | assumption] |].
      apply consOpt_Some, IH; [| now apply (Scanned_getu4 _ _ _ Hr E)].
      apply getu4_length in E. lia.
Qed.

Lemma scanString_unquote (s raw rest : string) :
  scanString SIn s = Ok raw rest -> exists t, unquote raw = Some t.
Proof.
  intros E. apply Scanned_unquote; [reflexivity |].
  exact (scanString_Scanned s SIn raw rest E).
Qed.

End JsonFacts.

(** ** [fetchStatus] *)

(** A body that holds the one member, with a value that needs no escape. *)
Lemma Decode_plain (v : string) :
  JsonSpec.plain v = true ->
  Json.Decode (json "{'releaseNumber':'" +:+ v +:+ json "'}")
  = inl {| Json.ReleaseNumber := v |}.
Proof.
  intros Hv. unfold Json.Decode, Json.readValue.
  set (body := json "{'releaseNumber':'" +:+ v +:+ json "'}").
  assert (F : exists f, 2 * String.length body = S (S f)).
  { exists (2 * String.length body - 2). subst body. simpl. lia. }
  destruct F as (f & ->).
  subst body. simpl.
  rewrite JsonFacts.scanQuoted_plain by assumption.
  reflexivity.
Qed.

Section FetcherFacts.

Variable httpGet : string -> Http.result.
Variable instance : string.
Variable resp : Http.Response.
Hypothesis response : httpGet (statusURL instance) = Http.Resp resp.

Lemma fetchStatus_not_OK :
  Http.StatusCode resp <> 200%Z ->
  fetchStatus httpGet instance = ("", Some (NonOKStatus (Http.Status resp))).
Proof.
  intros H. unfold fetchStatus. rewrite response.
  unfold Http.StatusOK. destruct (Z.eqb_spec (Http.StatusCode resp) 200); [contradiction |].
  reflexivity.
Qed.

Lemma fetchStatus_OK :
  Http.StatusCode resp = 200%Z ->
  fetchStatus httpGet instance = decodeBody (Http.Body resp).
Proof.
  intros H. unfold fetchStatus. rewrite response, H. reflexivity.
Qed.

End FetcherFacts.

Lemma fetchStatus_transport (httpGet : string -> Http.result) (instance text : string) :
  httpGet (statusURL instance) = Http.Err text ->
  fetchStatus httpGet instance = ("", Some (FetchFailed text)).
Proof. intros H. unfold fetchStatus. now rewrite H. Qed.

(** What [decodeBody] gives for each shape of body. *)
Lemma decodeBody_cases (body : string) :
  match Json.readValue body with
  | inr e => decodeBody body = ("", Some (DecodeFailed e))
  | inl (Json.Object members) =>
      match JsonSpec.refused (JsonSpec.ownValues members) with
      | Some k => decodeBody body = ("", Some (DecodeFailed (Json.UnmarshalTypeError k)))
      | None => decodeBody body = (JsonSpec.lastString (JsonSpec.ownValues members) "", None)
      end
  | inl Json.Null => decodeBody body = ("", None)
  | inl (Json.Bool _) =>
      decodeBody body = ("", Some (DecodeFailed (Json.UnmarshalTypeError Json.KBool)))
  | inl (Json.Number _) =>
      decodeBody body = ("", Some (DecodeFailed (Json.UnmarshalTypeError Json.KNumber)))
  | inl (Json.Str _) =>
      decodeBody body = ("", Some (DecodeFailed (Json.UnmarshalTypeError Json.KString)))
  | inl (Json.Array _) =>
      decodeBody body = ("", Some (DecodeFailed (Json.UnmarshalTypeError Json.KArray)))
  end.
Proof.
  unfold decodeBody, Json.Decode.
  destruct (Json.readValue body) as [v|e]; [| reflexivity].
  destruct v; try reflexivity.
  rewrite JsonFacts.unmarshal_Object.
  now destruct (JsonSpec.refused _).
Qed.

(** C5 (amended).  Of a response, [fetchStatus] accepts the status 200 alone:
    with any other status code, and so with every code outside 200..299, it
    returns the empty string and an error that carries the status text of the
    response; with the code 200 it goes on to decode the body, and returns
    what the decoder gives. *)
Theorem C5_fetchStatus_status
    (httpGet : string -> Http.result) (instance : string) (resp : Http.Response) :
  httpGet (statusURL instance) = Http.Resp resp ->
  (Http.StatusCode resp <> 200%Z ->
   fetchStatus httpGet instance = ("", Some (NonOKStatus (Http.Status resp))))
  /\ (is2xx (Http.StatusCode resp) = false ->
      fetchStatus httpGet instance = ("", Some (NonOKStatus (Http.Status resp))))
  /\ (Http.StatusCode resp = 200%Z ->
      fetchStatus httpGet instance = decodeBody (Http.Body resp))
  /\ (forall jsonErrorText,
         errorText jsonErrorText (NonOKStatus (Http.Status resp))
         = "API returned non-OK status: " +:+ Http.Status resp).
Proof.
  intros H. repeat split.
  - now apply fetchStatus_not_OK.
  - intros E. apply (fetchStatus_not_OK _ _ _ H).
    intros E'. rewrite E' in E. discriminate.
  - now apply fetchStatus_OK.
Qed.

Lemma C5_fetchStatus_status_witness :
  let resp := {| Http.StatusCode := 503; Http.Status := "503 Service Unavailable";
                 Http.Body := "" |} in
  fetchStatus (fun _ => Http.Resp resp) "NA1"
  = ("", Some (NonOKStatus "503 Service Unavailable")).
Proof.
  intros resp.
  exact (proj1 (C5_fetchStatus_status (fun _ => Http.Resp resp) "NA1" resp eq_refl)
           ltac:(discriminate)).
Defined.

(** C5, as stated, fails: 201 is a 2xx success status, the body holds the
    release number, and [fetchStatus] returns the error of a status that is
    not OK instead of decoding. *)
Lemma C5_counterexample :
  let resp := {| Http.StatusCode := 201; Http.Status := "201 Created";
                 Http.Body := json "{'releaseNumber':'v1'}" |} in
  is2xx (Http.StatusCode resp) = true
  /\ decodeBody (Http.Body resp) = ("v1", None)
  /\ fetchStatus (fun _ => Http.Resp resp) "NA1" = ("", Some (NonOKStatus "201 Created"))
  /\ fetchStatus (fun _ => Http.Resp resp) "NA1" <> decodeBody (Http.Body resp).
Proof. repeat split. discriminate. Qed.

(** C6 (amended).  With the status 200, [fetchStatus] returns what the
    decoder makes of the body.  A body that does not begin with a complete
    JSON value is a decode error.  Of an object, only the members named
    [releaseNumber] (whatever the case of the letters) count, the others are
    ignored: the release number is the last string among their values, the
    empty string if there is none, as when the member is missing or [null],
    and this is no error; a value of another kind for such a member is a
    decode error.  The body [null] gives the empty string and no error; a
    body that is a boolean, a number, a string or an array is a decode
    error. *)
Theorem C6_fetchStatus_decode
    (httpGet : string -> Http.result) (instance : string) (resp : Http.Response) :
  httpGet (statusURL instance) = Http.Resp resp ->
  Http.StatusCode resp = 200%Z ->
  match Json.readValue (Http.Body resp) with
  | inr e => fetchStatus httpGet instance = ("", Some (DecodeFailed e))
  | inl (Json.Object members) =>
      match JsonSpec.refused (JsonSpec.ownValues members) with
      | Some k =>
          fetchStatus httpGet instance
          = ("", Some (DecodeFailed (Json.UnmarshalTypeError k)))
      | None =>
          fetchStatus httpGet instance
          = (JsonSpec.lastString (JsonSpec.ownValues members) "", None)
      end
  | inl Json.Null => fetchStatus httpGet instance = ("", None)
  | inl (Json.Bool _) =>
      fetchStatus httpGet instance
      = ("", Some (DecodeFailed (Json.UnmarshalTypeError Json.KBool)))
  | inl (Json.Number _) =>
      fetchStatus httpGet instance
      = ("", Some (DecodeFailed (Json.UnmarshalTypeError Json.KNumber)))
  | inl (Json.Str _) =>
      fetchStatus httpGet instance
      = ("", Some (DecodeFailed (Json.UnmarshalTypeError Json.KString)))
  | inl (Json.Array _) =>
      fetchStatus httpGet instance
      = ("", Some (DecodeFailed (Json.UnmarshalTypeError Json.KArray)))
  end.
Proof.
  intros H E. rewrite (fetchStatus_OK _ _ _ H E).
  apply decodeBody_cases.
Qed.

Lemma C6_fetchStatus_decode_witness :
  let resp := {| Http.StatusCode := 200; Http.Status := "200 OK";
                 Http.Body := json "{'status':'OK','releaseNumber':'Winter 25','n':[1,2]}" |} in
  fetchStatus (fun _ => Http.Resp resp) "NA1" = ("Winter 25", None).
Proof.
  intros resp.
  exact (C6_fetchStatus_decode (fun _ => Http.Resp resp) "NA1" resp eq_refl eq_refl).
Defined.

(** C6, as stated, fails: in this body the field [releaseNumber] is missing,
    and [fetchStatus] returns no error. *)
Lemma C6_counterexample :
  let resp := {| Http.StatusCode := 200; Http.Status := "200 OK";
                 Http.Body := json "{'status':'OK'}" |} in
  Json.readValue (Http.Body resp) = inl (Json.Object [("status", Json.Str "OK")])
  /\ JsonSpec.ownValues [("status", Json.Str "OK")] = []
  /\ fetchStatus (fun _ => Http.Resp resp) "NA1" = ("", None).
Proof. repeat split. Qed.

(** C8.  With the status 200 and the body [{"releaseNumber":"v1"}],
    [fetchStatus] returns the string "v1" and no error; and so it does for
    every release number that needs no escape in JSON, in place of "v1". *)
Theorem C8_fetchStatus_roundtrip
    (httpGet : string -> Http.result) (instance status : string) :
  (httpGet (statusURL instance)
   = Http.Resp {| Http.StatusCode := 200; Http.Status := status;
                  Http.Body := json "{'releaseNumber':'v1'}" |} ->
   fetchStatus httpGet instance = ("v1", None))
  /\ (forall v,
         JsonSpec.plain v = true ->
         httpGet (statusURL instance)
         = Http.Resp {| Http.StatusCode := 200; Http.Status := status;
                        Http.Body := json "{'releaseNumber':'" +:+ v +:+ json "'}" |} ->
         fetchStatus httpGet instance = (v, None)).
Proof.
  split.
  - intros H. now rewrite (fetchStatus_OK _ _ _ H eq_refl).
  - intros v Hv H. rewrite (fetchStatus_OK _ _ _ H eq_refl).
    unfold decodeBody. cbn [Http.Body]. now rewrite Decode_plain.
Qed.

Lemma C8_fetchStatus_roundtrip_witness :
  fetchStatus
    (fun _ => Http.Resp {| Http.StatusCode := 200; Http.Status := "200 OK";
                           Http.Body := json "{'releaseNumber':'v1'}" |})
    "NA1"
  = ("v1", None).
Proof.
  exact (proj1 (C8_fetchStatus_roundtrip _ "NA1" "200 OK") eq_refl).
Defined.

(** ** [compareReleaseNumbers] and [processResults] *)

Section ComparatorFacts.

Variable jsonErrorText : Json.error -> string.
Variable httpGet : string -> Http.result.

Local Abbreviation compare := (compareReleaseNumbers jsonErrorText httpGet).
Local Abbreviation message :=
  (fun instance version =>
     resultMessage jsonErrorText instance version (fetchStatus httpGet instance)).

(** On every path: one message, then [wg.Done]. *)
Lemma compareReleaseNumbers_effects (instance version : string) :
  compare instance version = [Send (message instance version); Done].
Proof.
  unfold compareReleaseNumbers, resultMessage.
  destruct (fetchStatus httpGet instance) as [releaseNumber [e|]]; [reflexivity |].
  now destruct (String.eqb releaseNumber version).
Qed.

Lemma sends_compare (instance version : string) :
  sends (compare instance version) = [message instance version].
Proof. now rewrite compareReleaseNumbers_effects. Qed.

Lemma dones_compare (instance version : string) :
  dones (compare instance version) = 1.
Proof. now rewrite compareReleaseNumbers_effects. Qed.

End ComparatorFacts.

(** *** The marker in the messages *)

Lemma marker_no_space : Strings.occurs " " marker = false.
Proof. reflexivity. Qed.

Lemma marker_no_colon : Strings.occurs ":" marker = false.
Proof. reflexivity. Qed.

(** Behind a text that ends with a space and does not hold the marker, the
    marker is in what follows or nowhere. *)
Lemma Contains_after_space (a b : string) :
  Strings.Contains a marker = false ->
  Strings.Contains (a +:+ String " " b) marker = Strings.Contains b marker.
Proof.
  intros H. now rewrite (StringFacts.Contains_sep " " marker a b marker_no_space), H.
Qed.

Lemma Contains_colon_space (a b : string) :
  Strings.Contains (a +:+ ": " +:+ b) marker
  = Strings.Contains a marker || Strings.Contains b marker.
Proof.
  change (a +:+ ": " +:+ b) with (a +:+ String ":" ("" +:+ String " " b)).
  rewrite (StringFacts.Contains_sep ":" marker a _ marker_no_colon).
  now rewrite Contains_after_space.
Qed.

Lemma Contains_fmtMatch (instance releaseNumber : string) :
  Strings.Contains (fmtMatch instance releaseNumber) marker
  = Strings.Contains instance marker || Strings.Contains releaseNumber marker.
Proof.
  unfold fmtMatch.
  change ("Release number matches for instance " +:+ instance +:+ ": " +:+ releaseNumber)
    with ("Release number matches for instance"
            +:+ String " " (instance +:+ ": " +:+ releaseNumber)).
  rewrite Contains_after_space by reflexivity. apply Contains_colon_space.
Qed.

Lemma Contains_fmtError (instance err : string) :
  Strings.Contains (fmtError instance err) marker
  = Strings.Contains instance marker || Strings.Contains err marker.
Proof.
  unfold fmtError.
  change ("Error fetching status for instance " +:+ instance +:+ ": " +:+ err)
    with ("Error fetching status for instance"
            +:+ String " " (instance +:+ ": " +:+ err)).
  rewrite Contains_after_space by reflexivity. apply Contains_colon_space.
Qed.

Lemma Contains_fmtMismatch (instance version releaseNumber : string) :
  Strings.Contains (fmtMismatch instance version releaseNumber) marker = true.
Proof.
  unfold fmtMismatch.
  apply (StringFacts.Contains_append "Release number " marker
           (" for instance " +:+ instance +:+ ": expected " +:+ version
              +:+ ", got " +:+ releaseNumber)).
  reflexivity.
Qed.

Lemma Contains_errorText (jsonErrorText : Json.error -> string) (e : fetchError) :
  Strings.Contains (errorText jsonErrorText e) marker
  = match e with
    | FetchFailed cause => Strings.Contains cause marker
    | NonOKStatus status => Strings.Contains status marker
    | DecodeFailed cause => Strings.Contains (jsonErrorText cause) marker
    end.
Proof.
  destruct e as [cause|status|cause]; unfold errorText.
  - change ("failed to fetch status: " +:+ cause)
      with ("failed to fetch status:" +:+ String " " cause).
    now apply Contains_after_space.
  - change ("API returned non-OK status: " +:+ status)
      with ("API returned non-OK status:" +:+ String " " status).
    now apply Contains_after_space.
  - change ("failed to decode response: " +:+ jsonErrorText cause)
      with ("failed to decode response:" +:+ String " " (jsonErrorText cause)).
    now apply Contains_after_space.
Qed.

(** *** The verdict *)

Lemma processResults_loop_spec (results : list string) (exitHealthy : bool) :
  processResults_loop results exitHealthy
  = exitHealthy && negb (existsb (fun m => Strings.Contains m marker) results).
Proof.
  revert exitHealthy. induction results as [|m results IH]; intros b; simpl.
  - now rewrite andb_true_r.
  - rewrite IH. unfold processResult. fold marker.
    destruct (Strings.Contains m marker); simpl; [| reflexivity].
    now rewrite andb_false_r.
Qed.

Lemma processResults_spec (results : list string) :
  processResults results = negb (existsb (fun m => Strings.Contains m marker) results).
Proof. apply processResults_loop_spec. Qed.

Lemma processResults_unhealthy (results : list string) :
  processResults results = false
  <-> exists m, In m results /\ Strings.Contains m marker = true.
Proof.
  rewrite processResults_spec, negb_false_iff, existsb_exists. reflexivity.
Qed.

Lemma processResults_healthy (results : list string) :
  processResults results = true
  <-> forall m, In m results -> Strings.Contains m marker = false.
Proof.
  rewrite processResults_spec, negb_true_iff. split.
  - intros H m Hm. destruct (Strings.Contains m marker) eqn:E; [| reflexivity].
    assert (X : existsb (fun m => Strings.Contains m marker) results = true)
      by (apply existsb_exists; eauto).
    congruence.
  - intros H. destruct (existsb _ results) eqn:E; [| reflexivity].
    apply existsb_exists in E as (m & Hm & Hc). rewrite (H m Hm) in Hc. discriminate.
Qed.

Lemma processResults_Permutation (l l' : list string) :
  Permutation l l' -> processResults l = processResults l'.
Proof.
  intros P.
  destruct (processResults l') eqn:E.
  - apply processResults_healthy. intros m Hm.
    apply (proj1 (processResults_healthy l') E).
    now apply (Permutation_in _ P).
  - apply processResults_unhealthy.
    apply processResults_unhealthy in E as (m & Hm & Hc).
    exists m. split; [| assumption].
    now apply (Permutation_in _ (Permutation_sym P)).
Qed.

(** C7.  [compareReleaseNumbers] writes, when [fetchStatus] returns an error,
    the message "Error fetching status for instance <instance>: <error
    text>"; when it returns a release number equal to the expected version,
    byte for byte, "Release number matches for instance <instance>: <release
    number>"; when it returns another one, "Release number mismatch for
    instance <instance>: expected <expected>, got <release number>".  Each
    time the message is the only one and [wg.Done] follows it.  The message
    of a mismatch holds "mismatch", that of a match "matches", that of an
    error "Error". *)
Theorem C7_compareReleaseNumbers
    (jsonErrorText : Json.error -> string) (httpGet : string -> Http.result)
    (instance expectedVersion : string) :
  match fetchStatus httpGet instance with
  | (_, Some e) =>
      compareReleaseNumbers jsonErrorText httpGet instance expectedVersion
      = [Send ("Error fetching status for instance " +:+ instance +:+ ": "
                 +:+ errorText jsonErrorText e);
         Done]
  | (releaseNumber, None) =>
      (releaseNumber = expectedVersion ->
       compareReleaseNumbers jsonErrorText httpGet instance expectedVersion
       = [Send ("Release number matches for instance " +:+ instance +:+ ": "
                  +:+ releaseNumber);
          Done])
      /\ (releaseNumber <> expectedVersion ->
          compareReleaseNumbers jsonErrorText httpGet instance expectedVersion
          = [Send ("Release number mismatch for instance " +:+ instance
                     +:+ ": expected " +:+ expectedVersion +:+ ", got " +:+ releaseNumber);
             Done])
  end
  /\ (forall releaseNumber,
         Strings.Contains (fmtMismatch instance expectedVersion releaseNumber) "mismatch"
         = true)
  /\ (forall releaseNumber,
         Strings.Contains (fmtMatch instance releaseNumber) "matches" = true)
  /\ (forall err, Strings.Contains (fmtError instance err) "Error" = true).
Proof.
  split; [| split; [| split]].
  - unfold compareReleaseNumbers.
    destruct (fetchStatus httpGet instance) as [releaseNumber [e|]]; [reflexivity |].
    split; intros H.
    + apply String.eqb_eq in H. now rewrite H.
    + apply String.eqb_neq in H. now rewrite H.
  - intros releaseNumber. apply Contains_fmtMismatch.
  - intros releaseNumber. unfold fmtMatch.
    apply (StringFacts.Contains_append "Release number " "matches"
             (" for instance " +:+ instance +:+ ": " +:+ releaseNumber)).
    reflexivity.
  - intros err. unfold fmtError.
    apply (StringFacts.Contains_append "" "Error"
             (" fetching status for instance " +:+ instance +:+ ": " +:+ err)).
    reflexivity.
Qed.

Lemma C7_compareReleaseNumbers_witness :
  compareReleaseNumbers (fun _ => "unexpected EOF")
    (fun _ => Http.Resp {| Http.StatusCode := 200; Http.Status := "200 OK";
                           Http.Body := json "{'releaseNumber':'v1'}" |})
    "NA1" "v2"
  = [Send "Release number mismatch for instance NA1: expected v2, got v1"; Done].
Proof.
  exact (proj2 (proj1 (C7_compareReleaseNumbers (fun _ => "unexpected EOF")
                         (fun _ => Http.Resp {| Http.StatusCode := 200;
                                                Http.Status := "200 OK";
                                                Http.Body := json "{'releaseNumber':'v1'}" |})
                         "NA1" "v2"))
           ltac:(discriminate)).
Defined.

Section VerdictFacts.

Variable jsonErrorText : Json.error -> string.
Variable httpGet : string -> Http.result.
Variable version : string.

(** The message of an instance holds the marker when there is a mismatch,
    and otherwise only if the name of the instance, the release number or
    the text of the error holds it. *)
Lemma Contains_resultMessage (instance : string) :
  Strings.Contains
    (resultMessage jsonErrorText instance version (fetchStatus httpGet instance)) marker
  = match fetchStatus httpGet instance with
    | (_, Some e) =>
        Strings.Contains instance marker
        || Strings.Contains (errorText jsonErrorText e) marker
    | (releaseNumber, None) =>
        negb (String.eqb releaseNumber version)
        || Strings.Contains instance marker
        || Strings.Contains releaseNumber marker
    end.
Proof.
  unfold resultMessage.
  destruct (fetchStatus httpGet instance) as [releaseNumber [e|]].
  - apply Contains_fmtError.
  - destruct (String.eqb releaseNumber version); cbn [negb orb].
    + apply Contains_fmtMatch.
    + apply Contains_fmtMismatch.
Qed.

Local Abbreviation quiet := (quiet jsonErrorText httpGet version).

Lemma quiet_message (instance : string) :
  quiet instance ->
  Strings.Contains
    (resultMessage jsonErrorText instance version (fetchStatus httpGet instance)) marker
  = false.
Proof.
  intros (Hi & H). rewrite Contains_resultMessage.
  destruct (fetchStatus httpGet instance) as [releaseNumber [e|]].
  - now rewrite Hi, H.
  - destruct H as (-> & Hv). now rewrite String.eqb_refl, Hi, Hv.
Qed.

Lemma quiet_healthy (instances results : list string) :
  Permutation results (messages jsonErrorText httpGet version instances) ->
  (forall instance, In instance instances -> quiet instance) ->
  processResults results = true.
Proof.
  intros P Q. rewrite (processResults_Permutation _ _ P).
  apply processResults_healthy. intros m Hm.
  unfold messages in Hm. apply in_map_iff in Hm as (instance & <- & Hi).
  now apply quiet_message, Q.
Qed.

End VerdictFacts.

(** C1 (amended).  The verdict of [processResults] is unhealthy exactly when
    one of the messages it drains holds "mismatch".  The message of a fetch
    or decode error does not change the verdict, unless the name of the
    instance or the text of the error holds "mismatch" itself.  When every
    instance either fails to be fetched or reports the expected version, and
    no name, error text or version holds "mismatch", then, whatever the order
    in which the messages arrive, there is one message for each instance,
    the error message of each failing instance is among them, and the
    verdict is healthy: so it is for three instances of which one answers
    503. *)
Theorem C1_verdict
    (jsonErrorText : Json.error -> string) (httpGet : string -> Http.result)
    (version : string) (instances results : list string) :
  (processResults results = false
   <-> exists m, In m results /\ Strings.Contains m "mismatch" = true)
  /\ (forall instance e,
         Strings.Contains instance "mismatch" = false ->
         Strings.Contains (errorText jsonErrorText e) "mismatch" = false ->
         processResults (results ++ [fmtError instance (errorText jsonErrorText e)])
         = processResults results)
  /\ (Permutation results (messages jsonErrorText httpGet version instances) ->
      (forall instance, In instance instances ->
                        quiet jsonErrorText httpGet version instance) ->
      length results = length instances
      /\ (forall instance e,
             In instance instances ->
             snd (fetchStatus httpGet instance) = Some e ->
             In (fmtError instance (errorText jsonErrorText e)) results)
      /\ processResults results = true).
Proof.
  split; [apply processResults_unhealthy |]. split.
  - intros instance e Hi He.
    rewrite !processResults_spec, existsb_app. cbn [existsb].
    rewrite Contains_fmtError. fold marker in Hi, He. rewrite Hi, He.
    now rewrite !orb_false_r.
  - intros P Q. split; [| split].
    + rewrite (Permutation_length P). unfold messages. apply length_map.
    + intros instance e Hi He. apply (Permutation_in _ (Permutation_sym P)).
      unfold messages. apply in_map_iff. exists instance. split; [| assumption].
      unfold resultMessage. destruct (fetchStatus httpGet instance) as [rn o].
      simpl in He. now subst o.
    + now apply (quiet_healthy jsonErrorText httpGet version instances).
Qed.

Lemma C1_verdict_witness :
  let results :=
    ["Release number matches for instance NA3: v1";
     "Release number matches for instance NA1: v1";
     "Error fetching status for instance NA2: API returned non-OK status: 503 Service Unavailable"] in
  length results = 3
  /\ In "Error fetching status for instance NA2: API returned non-OK status: 503 Service Unavailable"
       results
  /\ processResults results = true.
Proof.
  intros results.
  destruct (proj2 (proj2 (C1_verdict Sample.errorText Sample.oneDown "v1"
                            ["NA1"; "NA2"; "NA3"] results))) as (L & E & V).
  - exact (Permutation_cons_append
             ["Release number matches for instance NA1: v1";
              "Error fetching status for instance NA2: API returned non-OK status: 503 Service Unavailable"]
             "Release number matches for instance NA3: v1").
  - intros instance [<-|[<-|[<-|[]]]]; vm_compute; auto.
  - split; [exact L |]. split; [| exact V].
    exact (E "NA2" (NonOKStatus "503 Service Unavailable")
             ltac:(simpl; auto) eq_refl).
Defined.

(** C1, as stated, fails: of these three instances one fetch fails with the
    status 503 and the other two report the expected version, and the
    verdict is unhealthy, for the name of the third instance holds
    "mismatch". *)
Lemma C1_counterexample :
  let instances := ["NA1"; "NA2"; "EU-mismatch"] in
  let results := messages Sample.errorText Sample.oneDown "v1" instances in
  fetchStatus Sample.oneDown "NA1" = ("v1", None)
  /\ fetchStatus Sample.oneDown "NA2"
     = ("", Some (NonOKStatus "503 Service Unavailable"))
  /\ fetchStatus Sample.oneDown "EU-mismatch" = ("v1", None)
  /\ results
     = ["Release number matches for instance NA1: v1";
        "Error fetching status for instance NA2: API returned non-OK status: 503 Service Unavailable";
        "Release number matches for instance EU-mismatch: v1"]
  /\ processResults results = false.
Proof. repeat split. Qed.

(** ** The process *)

(** *** Lists of goroutines *)

Lemma insert_split {A : Type} (l : list A) (i : nat) (x : A) :
  l !! i = Some x ->
  exists l1 l2, l = l1 ++ x :: l2 /\ forall y, <[i := y]> l = l1 ++ y :: l2.
Proof.
  intros H. exists (take i l), (drop (S i) l). split.
  - symmetry. now apply take_drop_middle.
  - intros y. apply insert_take_drop. now apply lookup_lt_Some in H.
Qed.

Lemma list_sum_zero {A : Type} (f : A -> nat) (l : list A) :
  list_sum (List.map f l) = 0 -> Forall (fun x => f x = 0) l.
Proof.
  induction l as [|x l IH]; simpl; intros H; constructor; [lia | apply IH; lia].
Qed.

Lemma list_sum_pos (l : list nat) : 0 < list_sum l -> exists i n, l !! i = Some n /\ 0 < n.
Proof.
  induction l as [|n l IH]; simpl; [lia |].
  intros H. destruct n as [|n].
  - destruct (IH H) as (i & m & Hi & Hm). now exists (S i), m.
  - exists 0, (S n). split; [reflexivity | lia].
Qed.

Lemma lookup_sum_le {A : Type} (f : A -> nat) (l : list A) (i : nat) (x : A) :
  l !! i = Some x -> f x <= list_sum (List.map f l).
Proof.
  intros H. destruct (insert_split _ _ _ H) as (l1 & l2 & -> & _).
  rewrite map_app, list_sum_app. simpl. lia.
Qed.

Section ProcessFacts.

Variable jsonErrorText : Json.error -> string.
Variable httpGet : string -> Http.result.
Variables instanceFlag versionFlag : string.

Local Abbreviation compare := (compareReleaseNumbers jsonErrorText httpGet).
Local Abbreviation messageOf := (messageOf jsonErrorText httpGet versionFlag).
Local Abbreviation pendingSends := (pendingSends jsonErrorText httpGet versionFlag).
Local Abbreviation workerOk := (workerOk jsonErrorText httpGet versionFlag).
Local Abbreviation Core := (Core jsonErrorText httpGet instanceFlag versionFlag).
Local Abbreviation Inv := (Inv jsonErrorText httpGet instanceFlag versionFlag).
Local Abbreviation step := (step jsonErrorText httpGet instanceFlag versionFlag).
Local Abbreviation stepMain := (stepMain instanceFlag versionFlag).
Local Abbreviation rejected := (rejected instanceFlag versionFlag).
Local Abbreviation validFlags := (validFlags instanceFlag versionFlag).
Local Abbreviation stepWorker := (stepWorker jsonErrorText httpGet versionFlag).
Local Abbreviation reachable := (reachable jsonErrorText httpGet instanceFlag versionFlag).
Local Abbreviation measure := (measure instanceFlag).
Local Abbreviation instances := (parseInstances instanceFlag).
Local Abbreviation exitCode := (exitCode jsonErrorText httpGet instanceFlag versionFlag).

(** *** A goroutine changes state *)

Section Update.

Variables (s : state) (i : nat) (w w' : worker).
Hypothesis lookup : workers s !! i = Some w.
Hypothesis same_instance : workerInstance w' = workerInstance w.

Lemma update_instances :
  List.map workerInstance (<[i := w']> (workers s))
  = List.map workerInstance (workers s).
Proof.
  destruct (insert_split _ _ _ lookup) as (l1 & l2 & E & I).
  rewrite I, E, !map_app. cbn [List.map]. now rewrite same_instance.
Qed.

Lemma update_ok :
  Forall workerOk (workers s) -> workerOk w' ->
  Forall workerOk (<[i := w']> (workers s)).
Proof.
  destruct (insert_split _ _ _ lookup) as (l1 & l2 & E & I).
  rewrite I, E. intros H Hw'.
  apply Forall_app in H as (H1 & H2). apply Forall_app. split; [assumption |].
  inversion H2; subst. now constructor.
Qed.

Lemma update_sum (f : worker -> nat) :
  list_sum (List.map f (<[i := w']> (workers s))) + f w
  = list_sum (List.map f (workers s)) + f w'.
Proof.
  destruct (insert_split _ _ _ lookup) as (l1 & l2 & E & I).
  rewrite I, E, !map_app, !list_sum_app. simpl. lia.
Qed.

Lemma update_flat_map {A : Type} (f : worker -> list A) :
  Permutation (f w ++ flat_map f (<[i := w']> (workers s)))
    (f w' ++ flat_map f (workers s)).
Proof.
  destruct (insert_split _ _ _ lookup) as (l1 & l2 & E & I).
  rewrite I, E, !flat_map_app. cbn [flat_map].
  rewrite !(Permutation_app_comm (flat_map f l1)), <- !app_assoc.
  rewrite !app_assoc, (Permutation_app_comm (f w) (f w')). reflexivity.
Qed.

End Update.

(** *** The steps keep [Core] *)

Lemma core_initial :
  Core instances (makeChan (length instances) initial).
Proof.
  constructor; simpl; try reflexivity; constructor.
Qed.

Lemma core_spawn (instance : string) (rest : list string) (s : state) :
  Core (instance :: rest) s ->
  Core rest (setPc (Dispatch rest)
               (setWorkers (workers s ++ [Fetching instance]) (setWg (wg s + 1) s))).
Proof.
  intros [Hi Hw Hg Hs Hc Hr Hcap Hv He]. constructor; simpl; try assumption.
  - rewrite map_app, <- app_assoc. exact Hi.
  - apply Forall_app. split; [assumption | now repeat constructor].
  - rewrite Hg, map_app, list_sum_app. simpl. lia.
  - rewrite flat_map_app, !map_app, app_assoc. simpl.
    now apply Permutation_app_tail.
  - rewrite flat_map_app, !map_app, app_assoc. simpl.
    now apply Permutation_app_tail.
Qed.

Lemma core_fetch (rest : list string) (s : state) (i : nat) (instance : string) :
  Core rest s ->
  workers s !! i = Some (Fetching instance) ->
  Core rest (setWorkers (<[i := Running instance (compare instance versionFlag)]>
                           (workers s))
               (logRequest (statusURL instance) s)).
Proof.
  intros [Hi Hw Hg Hs Hc Hr Hcap Hv He] L. constructor; simpl; try assumption.
  - now rewrite (update_instances s i _ _ L).
  - apply (update_ok s i _ _ L Hw). left.
    apply compareReleaseNumbers_effects.
  - rewrite Hg. f_equal.
    pose proof (update_sum s i _ (Running instance (compare instance versionFlag))
                  L pendingDones) as U.
    simpl in U. rewrite dones_compare in U. lia.
  - rewrite (update_instances s i _ _ L) by reflexivity.
    rewrite <- Hs. apply Permutation_app_head.
    pose proof (update_flat_map s i _ (Running instance (compare instance versionFlag))
                  L pendingSends) as U.
    cbn [pendingSends] in U. rewrite sends_compare in U.
    now apply Permutation_app_inv_l in U.
  - rewrite (update_instances s i _ _ L) by reflexivity.
    rewrite <- Hr, <- app_assoc. apply Permutation_app_head.
    apply (update_flat_map s i _ (Running instance (compare instance versionFlag))
             L pendingRequests).
Qed.

Lemma core_send (rest : list string) (s : state) (i : nat)
    (instance msg : string) (effects : list effect) :
  Core rest s ->
  workers s !! i = Some (Running instance (Send msg :: effects)) ->
  effects = [Done]
  /\ (0 < wg s)%Z
  /\ length (buffer s) < capacity s
  /\ Core rest (setWorkers (<[i := Running instance effects]> (workers s))
                  (chanSend msg s)).
Proof.
  intros [Hi Hw Hg Hs Hc Hr Hcap Hv He] L.
  assert (Hok : workerOk (Running instance (Send msg :: effects))).
  { exact (proj1 (Forall_lookup _ _) Hw i _ L). }
  destruct Hok as [[= -> ->]|[[=]|[=]]].
  split; [reflexivity |]. split; [| split].
  - pose proof (lookup_sum_le pendingDones _ _ _ L) as U.
    simpl in U. lia.
  - pose proof (Permutation_length Hs) as Len.
    pose proof (update_flat_map s i _ (Running instance [Done]) L pendingSends) as U.
    apply Permutation_length in U. simpl in U.
    rewrite length_app, !length_map in Len.
    assert (length (List.map workerInstance (workers s)) + length rest
            = length instances) as T by (rewrite <- Hi, length_app; reflexivity).
    rewrite length_map in T.
    rewrite Hc, length_app in Len. lia.
  - constructor; simpl; try assumption.
    + now rewrite (update_instances s i _ _ L).
    + apply (update_ok s i _ _ L Hw). right. now left.
    + rewrite Hg. f_equal.
      pose proof (update_sum s i _ (Running instance [Done]) L pendingDones) as U.
      simpl in U. lia.
    + rewrite (update_instances s i _ _ L) by reflexivity.
      rewrite <- Hs, <- app_assoc. apply Permutation_app_head.
      apply (update_flat_map s i _ (Running instance [Done]) L pendingSends).
    + rewrite Hc, <- app_assoc. reflexivity.
    + rewrite (update_instances s i _ _ L) by reflexivity.
      rewrite <- Hr. apply Permutation_app_head.
      pose proof (update_flat_map s i _ (Running instance [Done]) L pendingRequests) as U.
      exact U.
Qed.

Lemma core_done (rest : list string) (s : state) (i : nat)
    (instance : string) (effects : list effect) :
  Core rest s ->
  workers s !! i = Some (Running instance (Done :: effects)) ->
  effects = []
  /\ (0 < wg s)%Z
  /\ Core rest (setWorkers (<[i := Running instance effects]> (workers s))
                  (setWg (wg s - 1) s)).
Proof.
  intros [Hi Hw Hg Hs Hc Hr Hcap Hv He] L.
  assert (Hok : workerOk (Running instance (Done :: effects))).
  { exact (proj1 (Forall_lookup _ _) Hw i _ L). }
  destruct Hok as [[=]|[[= ->]|[=]]].
  pose proof (update_sum s i _ (Running instance []) L pendingDones) as U.
  pose proof (lookup_sum_le pendingDones _ _ _ L) as U'.
  simpl in U, U'.
  split; [reflexivity |]. split; [lia |].
  constructor; simpl; try assumption.
  - now rewrite (update_instances s i _ _ L).
  - apply (update_ok s i _ _ L Hw). right. now right.
  - rewrite Hg. lia.
  - rewrite (update_instances s i _ _ L) by reflexivity.
    rewrite <- Hs. apply Permutation_app_head.
    exact (update_flat_map s i _ (Running instance []) L pendingSends).
  - rewrite (update_instances s i _ _ L) by reflexivity.
    rewrite <- Hr. apply Permutation_app_head.
    exact (update_flat_map s i _ (Running instance []) L pendingRequests).
Qed.

Lemma core_receive (rest : list string) (s : state) (msg : string) (b : list string) :
  Core rest s -> buffer s = msg :: b -> Core rest (chanReceive msg b s).
Proof.
  intros [Hi Hw Hg Hs Hc Hr Hcap Hv He] B. constructor; simpl; try assumption.
  - rewrite Hc, B, <- app_assoc. reflexivity.
  - rewrite Hv. unfold processResults. clear.
    generalize true. induction (debugLog s) as [|m l IH]; intros b0; simpl; auto.
Qed.

(** [Core] does not read the fields these change. *)
Lemma core_setPc (rest : list string) (p : mainPc) (s : state) :
  Core rest s -> Core rest (setPc p s).
Proof. intros []. now constructor. Qed.

Lemma core_setCloser (rest : list string) (c : option closerPc) (s : state) :
  Core rest s -> Core rest (setCloser c s).
Proof. intros []. now constructor. Qed.

Lemma core_chanClose (rest : list string) (s : state) :
  Core rest s -> Core rest (chanClose s).
Proof. intros []. now constructor. Qed.

(** With the counter at zero every goroutine has returned, every message
    is written and every request made. *)
Lemma core_counter_zero (s : state) :
  Core [] s -> wg s = 0%Z ->
  Forall (fun w => exists instance, w = Running instance []) (workers s)
  /\ Permutation (sent s) (messages jsonErrorText httpGet versionFlag instances)
  /\ Permutation (requests s) (List.map statusURL instances).
Proof.
  intros [Hi Hw Hg Hs Hc Hr Hcap Hv He] Z.
  rewrite app_nil_r in Hi.
  assert (D : Forall (fun w => exists instance, w = Running instance []) (workers s)).
  { rewrite Z in Hg.
    assert (S0 : list_sum (List.map pendingDones (workers s)) = 0) by lia.
    apply list_sum_zero in S0.
    pose proof (List.Forall_and Hw S0) as B.
    eapply List.Forall_impl; [| exact B].
    intros [instance|instance effects] (Hok & P0); [discriminate |].
    destruct Hok as [-> | [-> | ->]]; try discriminate. now exists instance. }
  split; [exact D |].
  assert (E1 : flat_map pendingSends (workers s) = []).
  { clear -D. induction D as [|w l (instance & ->) _ IH]; simpl; auto. }
  assert (E2 : flat_map pendingRequests (workers s) = []).
  { clear -D. induction D as [|w l (instance & ->) _ IH]; simpl; auto. }
  rewrite E1, app_nil_r, Hi in Hs. rewrite E2, app_nil_r, Hi in Hr.
  split; assumption.
Qed.

(** *** The invariant *)

Lemma closerOk_same (s s' : state) :
  closer s' = closer s -> closed s' = closed s -> wg s' = wg s ->
  closerOk s -> closerOk s'.
Proof. unfold closerOk. now intros -> -> ->. Qed.

Lemma closerOk_counter (s : state) :
  closerOk s -> (0 < wg s)%Z -> closer s = Some Waiting /\ closed s = false.
Proof.
  unfold closerOk. destruct (closer s) as [[| |]|]; intros H Hp; try tauto; lia.
Qed.

Lemma inv_initial : Inv initial.
Proof. reflexivity. Qed.

Lemma inv_stepMain (s s' : state) : Inv s -> stepMain s = Some s' -> Inv s'.
Proof.
  unfold Inv, stepMain. intros I.
  destruct (pc s) as [|[|instance rest]| | |] eqn:P.
  - subst s. cbn [pc initial].
    destruct (String.eqb_spec instanceFlag "") as [Ei|Ei];
      [| destruct (String.eqb_spec versionFlag "") as [Ev|Ev]]; cbn [orb].
    + intros [= <-]. left. left. now split; [left |].
    + intros [= <-]. left. left. now split; [right |].
    + destruct (Nat.eqb_spec (length instances) 0) as [En|En].
      * intros [= <-]. left. right.
        apply length_zero_iff_nil in En. now repeat split.
      * intros [= <-]. cbn [pc setPc].
        split; [repeat split; try assumption; intros E0; now rewrite E0 in En |].
        split; [apply core_setPc, core_initial | split; reflexivity].
  - destruct I as (V & C & Hc & Hcl). intros [= <-]. cbn [pc setPc].
    split; [assumption |]. split; [| unfold closerOk; simpl; exact Hcl].
    now apply core_setPc, core_setCloser.
  - destruct I as (V & C & Hc & Hcl). intros [= <-]. cbn [pc setPc].
    split; [assumption |]. split; [| split; assumption].
    now apply core_spawn.
  - destruct I as (V & C & Hc).
    destruct (buffer s) as [|msg b] eqn:B.
    + destruct (closed s) eqn:Cl; [| discriminate].
      intros [= <-]. cbn [pc setPc]. right.
      split; [assumption |]. split; [now apply core_setPc |].
      split; [exact Hc |]. split; [exact Cl |]. split; [exact B | reflexivity].
    + intros [= <-]. cbn [pc chanReceive]. rewrite P.
      split; [assumption |]. split; [now apply core_receive | exact Hc].
  - discriminate.
  - discriminate.
Qed.

Lemma inv_running (s : state) :
  Inv s -> terminal s = false -> pc s <> Validate ->
  Core (remaining s) s
  /\ ((closer s = None /\ closed s = false) \/ closerOk s).
Proof.
  unfold Inv, terminal, remaining.
  destruct (pc s) as [|rest| | |]; try discriminate; try congruence.
  - intros (V & C & Hc & Hcl) _ _. split; [assumption | now left].
  - intros (V & C & Hc) _ _. split; [assumption | now right].
Qed.

(** A step that changes neither [main] nor the closing goroutine, and
    keeps [Core]. *)
Lemma inv_same_pc (s s' : state) :
  Inv s -> terminal s = false -> pc s <> Validate ->
  pc s' = pc s -> closer s' = closer s -> closed s' = closed s ->
  (closerOk s -> closerOk s') ->
  Core (remaining s) s' ->
  Inv s'.
Proof.
  unfold Inv, terminal, remaining. intros I T NV -> Hc Hcl K C.
  destruct (pc s) as [|rest| | |]; try discriminate; try congruence.
  - destruct I as (V & _ & H1 & H2). rewrite Hc, Hcl.
    split; [assumption |]. split; [assumption |]. now split.
  - destruct I as (V & _ & H1).
    split; [assumption |]. split; [assumption | now apply K].
Qed.

Lemma inv_stepWorker (i : nat) (s s' : state) :
  Inv s -> terminal s = false -> stepWorker i s = Some s' -> Inv s'.
Proof.
  intros I T. unfold stepWorker.
  destruct (workers s !! i) as [[instance|instance [|[msg|] effects]]|] eqn:L;
    try discriminate.
  - assert (NV : pc s <> Validate).
    { intros P. unfold Inv in I. rewrite P in I. subst s. discriminate. }
    destruct (inv_running s I T NV) as (C & K).
    intros [= <-].
    apply (inv_same_pc s); try assumption; try reflexivity.
    + apply closerOk_same; reflexivity.
    + now apply core_fetch.
  - assert (NV : pc s <> Validate).
    { intros P. unfold Inv in I. rewrite P in I. subst s. discriminate. }
    destruct (inv_running s I T NV) as (C & K).
    destruct (core_send _ _ _ _ _ _ C L) as (-> & Hwg & Hroom & C').
    assert (Cl : closed s = false).
    { destruct K as [(_ & K)|K]; [assumption |].
      now apply closerOk_counter in K. }
    rewrite Cl. apply Nat.ltb_lt in Hroom. rewrite Hroom.
    intros [= <-].
    apply (inv_same_pc s); try assumption; try reflexivity.
    apply closerOk_same; reflexivity.
  - assert (NV : pc s <> Validate).
    { intros P. unfold Inv in I. rewrite P in I. subst s. discriminate. }
    destruct (inv_running s I T NV) as (C & K).
    destruct (core_done _ _ _ _ _ C L) as (-> & Hwg & C').
    destruct (Z.ltb_spec (wg s - 1) 0); [lia |].
    intros [= <-].
    apply (inv_same_pc s); try assumption; try reflexivity.
    intros K'. apply closerOk_counter in K' as (K1 & K2); [| assumption].
    unfold closerOk. simpl. now rewrite K1.
Qed.

Lemma inv_stepCloser (s s' : state) :
  Inv s -> terminal s = false -> stepCloser s = Some s' -> Inv s'.
Proof.
  intros I T. unfold stepCloser.
  destruct (closer s) as [[| |]|] eqn:Hc; try discriminate.
  - destruct (Z.eqb_spec (wg s) 0) as [Z|Z]; [| discriminate].
    intros [= <-]. revert I T. unfold Inv, terminal. cbn [pc setCloser].
    destruct (pc s) as [|rest| | |]; try discriminate.
    + intros -> _. discriminate.
    + intros (_ & _ & H & _). congruence.
    + intros (V & C & K) _. split; [assumption |].
      split; [now apply core_setCloser |].
      unfold closerOk in *. rewrite Hc in K. simpl. now split.
  - revert I T. unfold Inv, terminal.
    destruct (pc s) as [|rest| | |] eqn:P; try discriminate.
    + intros -> _. discriminate.
    + intros (_ & _ & H & _). congruence.
    + intros (V & C & K) _. unfold closerOk in K. rewrite Hc in K.
      destruct K as (Cl & Z). rewrite Cl. intros [= <-].
      cbn [pc setCloser chanClose]. rewrite P.
      split; [assumption |].
      split; [now apply core_setCloser, core_chanClose |].
      unfold closerOk. simpl. now split.
Qed.

Lemma inv_step (t : thread) (s s' : state) : Inv s -> step t s = Some s' -> Inv s'.
Proof.
  intros I. unfold step. destruct (terminal s) eqn:T; [discriminate |].
  destruct t as [|i|].
  - now apply inv_stepMain.
  - now apply inv_stepWorker.
  - now apply inv_stepCloser.
Qed.

(** Every state of the process satisfies the invariant. *)
Lemma reachable_inv (s : state) : reachable s -> Inv s.
Proof.
  induction 1 as [|s s' _ IH (t & Ht)]; [apply inv_initial |].
  now apply (inv_step t s).
Qed.

(** *** Every step brings the end nearer *)

Lemma compare_measure (instance : string) :
  workerMeasure (Running instance (compare instance versionFlag)) = 3.
Proof. simpl. now rewrite compareReleaseNumbers_effects. Qed.

Lemma mainMeasure_pos (s : state) :
  terminal s = false -> 0 < mainMeasure instanceFlag (pc s).
Proof. unfold terminal. destruct (pc s); simpl; try discriminate; lia. Qed.

Lemma step_measure (t : thread) (s s' : state) :
  step t s = Some s' -> measure s' < measure s.
Proof.
  unfold step. destruct (terminal s) eqn:T; [discriminate |].
  pose proof (mainMeasure_pos s T) as Pos.
  unfold measure. destruct t as [|i|].
  - unfold stepMain.
    destruct (pc s) as [|[|instance rest]| | |] eqn:P; try discriminate.
    + destruct (_ || _); [intros [= <-]; simpl; lia |].
      destruct (Nat.eqb _ 0); intros [= <-]; simpl; lia.
    + intros [= <-]. simpl. lia.
    + intros [= <-]. simpl. rewrite map_app, list_sum_app. simpl. lia.
    + destruct (buffer s) as [|msg b] eqn:B.
      * destruct (closed s); [| discriminate]. intros [= <-]. simpl. rewrite B. simpl. lia.
      * intros [= <-]. simpl. rewrite P. simpl. lia.
  - unfold stepWorker.
    destruct (workers s !! i) as [[instance|instance [|[msg|] effects]]|] eqn:L;
      try discriminate.
    + intros [= <-]. simpl.
      pose proof (update_sum s i _ (Running instance (compare instance versionFlag))
                    L workerMeasure) as U.
      rewrite compare_measure in U. simpl in U. lia.
    + destruct (closed s); [intros [= <-]; simpl; lia |].
      destruct (Nat.ltb _ _); [| discriminate]. intros [= <-]. simpl.
      pose proof (update_sum s i _ (Running instance effects) L workerMeasure) as U.
      simpl in U. rewrite length_app. simpl. lia.
    + destruct (_ <? _)%Z; intros [= <-]; simpl; [lia |].
      pose proof (update_sum s i _ (Running instance effects) L workerMeasure) as U.
      simpl in U. lia.
  - unfold stepCloser.
    destruct (closer s) as [[| |]|] eqn:Hc; try discriminate.
    + destruct (_ =? _)%Z; [| discriminate]. intros [= <-]. simpl. lia.
    + destruct (closed s); intros [= <-]; simpl; rewrite ?Hc; simpl; lia.
Qed.

(** An execution from [s] has no more steps than [measure s]. *)
Lemma nsteps_measure (n : nat) (s s' : state) :
  nsteps (steps jsonErrorText httpGet instanceFlag versionFlag) n s s' ->
  n + measure s' <= measure s.
Proof.
  induction 1 as [|n s1 s2 s3 (t & Ht) _ IH]; [lia |].
  apply step_measure in Ht. lia.
Qed.

(** *** No state is stuck before the exit *)

Lemma progress (s : state) :
  reachable s -> terminal s = false -> exists t s', step t s = Some s'.
Proof.
  intros R T. pose proof (reachable_inv s R) as I.
  unfold step. rewrite T.
  destruct (pc s) as [|rest| |code|] eqn:P;
    try (unfold terminal in T; rewrite P in T; discriminate).
  - exists Main. unfold stepMain. rewrite P.
    destruct (_ || _); [eauto |]. destruct (Nat.eqb _ 0); eauto.
  - exists Main. unfold stepMain. rewrite P. destruct rest; eauto.
  - unfold Inv in I. rewrite P in I. destruct I as (V & C & K).
    destruct (buffer s) as [|msg b] eqn:B;
      [| exists Main; unfold stepMain; rewrite P, B; eauto].
    destruct (closed s) eqn:Cl;
      [exists Main; unfold stepMain; rewrite P, B, Cl; eauto |].
    unfold closerOk in K.
    destruct (closer s) as [[| |]|] eqn:Hc; try contradiction.
    + destruct (Z.eqb_spec (wg s) 0) as [Z|Z].
      * exists Closer. unfold stepCloser. rewrite Hc, Z. simpl. eauto.
      * assert (Pos : 0 < list_sum (List.map pendingDones (workers s))).
        { destruct C as [_ _ Hg _ _ _ _ _ _]. lia. }
        apply list_sum_pos in Pos as (i & n & Hi & Hn).
        rewrite list_lookup_fmap in Hi.
        destruct (workers s !! i) as [w|] eqn:L; [| discriminate].
        injection Hi as <-.
        exists (Worker i). unfold stepWorker. rewrite L.
        destruct w as [instance|instance [|[msg|] effects]]; [eauto | simpl in Hn; lia | |].
        -- destruct (core_send _ _ _ _ _ _ C L) as (_ & _ & Hroom & _).
           apply Nat.ltb_lt in Hroom. rewrite Cl, Hroom. eauto.
        -- destruct (core_done _ _ _ _ _ C L) as (_ & Hwg & _).
           destruct (Z.ltb_spec (wg s - 1) 0); [lia | eauto].
    + exists Closer. unfold stepCloser. rewrite Hc, Cl. eauto.
    + destruct K. congruence.
Qed.

Lemma reachable_run (schedule : list thread) (s : state) :
  reachable s ->
  reachable (run jsonErrorText httpGet instanceFlag versionFlag schedule s).
Proof.
  revert s. induction schedule as [|t schedule IH]; intros s R; [assumption |].
  simpl. destruct (step t s) as [s'|] eqn:E; [| now apply IH].
  apply IH. eapply reachable_step; [exact R | now exists t].
Qed.

(** From every state some schedule leads to the exit. *)
Lemma terminates (s : state) :
  reachable s ->
  exists schedule,
    terminal (run jsonErrorText httpGet instanceFlag versionFlag schedule s) = true.
Proof.
  remember (measure s) as n eqn:En. revert s En.
  induction n as [n IH] using lt_wf_ind. intros s -> R.
  destruct (terminal s) eqn:T; [now exists [] |].
  destruct (progress s R T) as (t & s' & Hs).
  destruct (IH (measure s') (step_measure _ _ _ Hs) s' eq_refl) as (schedule & Hsch).
  { eapply reachable_step; [exact R | now exists t]. }
  exists (t :: schedule). simpl. now rewrite Hs.
Qed.

(** *** What the process has done when it ends *)

Lemma rejected_exitCode (s : state) : rejected s -> pc s = Exited exitCode.
Proof.
  unfold exitCode.
  intros [([->| ->] & ->)|(Hi & Hv & Hn & ->)]; simpl.
  - reflexivity.
  - now rewrite orb_true_r.
  - apply String.eqb_neq in Hi, Hv. now rewrite Hi, Hv, Hn.
Qed.

Lemma valid_exitCode :
  validFlags ->
  exitCode
  = if processResults (messages jsonErrorText httpGet versionFlag instances)
    then 0%Z else 1%Z.
Proof.
  intros (Hi & Hv & Hn). unfold exitCode.
  apply String.eqb_neq in Hi, Hv. rewrite Hi, Hv. simpl.
  destruct instances; [congruence | reflexivity].
Qed.

Lemma closed_all_sent (s : state) :
  reachable s -> closed s = true ->
  validFlags
  /\ Permutation (sent s) (messages jsonErrorText httpGet versionFlag instances)
  /\ Permutation (requests s) (List.map statusURL instances).
Proof.
  intros R Cl. pose proof (reachable_inv s R) as I. unfold Inv in I.
  assert (K : validFlags /\ Core [] s /\ closerOk s).
  { destruct (pc s) as [|rest| |code|].
    - subst s. discriminate.
    - destruct I as (_ & _ & _ & H). congruence.
    - exact I.
    - destruct I as [[(_ & ->)|(_ & _ & _ & ->)]|(V & C & K & _)];
        try discriminate. split; [assumption |]. now split.
    - contradiction. }
  destruct K as (V & C & K). split; [assumption |].
  unfold closerOk in K.
  destruct (closer s) as [[| |]|]; try contradiction; try congruence;
    try (destruct K; congruence).
  destruct K as (_ & Z).
  now destruct (core_counter_zero s C Z) as (_ & Hs & Hr).
Qed.

Lemma terminal_outcome (s : state) :
  reachable s -> terminal s = true ->
  pc s = Exited exitCode
  /\ (rejected s
      \/ validFlags
         /\ closed s = true
         /\ buffer s = []
         /\ debugLog s = sent s
         /\ Permutation (debugLog s)
              (messages jsonErrorText httpGet versionFlag instances)
         /\ Permutation (requests s) (List.map statusURL instances)
         /\ errorLog s = []).
Proof.
  intros R T. pose proof (reachable_inv s R) as I. unfold Inv in I.
  unfold terminal in T.
  destruct (pc s) as [|rest| |code|] eqn:P; try discriminate; [| contradiction].
  destruct I as [Rej|(V & C & K & Cl & B & ->)].
  - split; [| now left]. rewrite <- P. now apply rejected_exitCode.
  - destruct (closed_all_sent s R Cl) as (_ & Hs & Hr).
    destruct C as [_ _ _ _ Hc _ _ Hv He].
    rewrite B, app_nil_r in Hc. rewrite Hc in Hs.
    split.
    + rewrite (valid_exitCode V), Hv. f_equal.
      now rewrite (processResults_Permutation _ _ Hs).
    + right. split; [assumption |]. split; [assumption |]. split; [assumption |].
      split; [now symmetry |]. split; [assumption |]. now split.
Qed.

End ProcessFacts.

(** ** The process as a whole *)

Section ProcessOutcome.

Variable jsonErrorText : Json.error -> string.
Variable httpGet : string -> Http.result.
Variables instanceFlag versionFlag : string.

Local Abbreviation instances := (parseInstances instanceFlag).
Local Abbreviation reachable := (reachable jsonErrorText httpGet instanceFlag versionFlag).
Local Abbreviation run := (run jsonErrorText httpGet instanceFlag versionFlag).
Local Abbreviation exitCode := (exitCode jsonErrorText httpGet instanceFlag versionFlag).
Local Abbreviation validFlags := (validFlags instanceFlag versionFlag).
Local Abbreviation allMessages :=
  (messages jsonErrorText httpGet versionFlag (parseInstances instanceFlag)).

Lemma sent_bound (s : state) : reachable s -> length (sent s) <= length instances.
Proof.
  intros R. pose proof (reachable_inv _ _ _ _ s R) as I. unfold Inv in I.
  assert (B : forall rest,
             Core jsonErrorText httpGet instanceFlag versionFlag rest s ->
             length (sent s) <= length instances).
  { intros rest [Hi _ _ Hs _ _ _ _ _].
    apply Permutation_length in Hs. rewrite length_app, !length_map in Hs.
    rewrite <- Hi, length_app, length_map. lia. }
  destruct (pc s) as [|rest| |code|].
  - subst s. simpl. lia.
  - destruct I as (_ & C & _). now apply (B rest).
  - destruct I as (_ & C & _). now apply (B []).
  - destruct I as [[(_ & ->)|(_ & _ & _ & ->)]|(_ & C & _)]; simpl; try lia.
    now apply (B []).
  - contradiction.
Qed.

(** C2.  Every call of [compareReleaseNumbers] writes one message and then
    calls [wg.Done], whatever [fetchStatus] returned.  In every state of
    the process no more messages have been written than there are
    instances; once the channel is closed, one message has been written
    for each instance; and when [main] returns from [processResults],
    after a valid invocation, it has read as many messages as there are
    instances, those of the instances in some order.  From every state the
    process reaches its exit, and no execution is longer than the measure
    of its first state. *)
Theorem C2_one_message_per_instance :
  (forall instance,
      compareReleaseNumbers jsonErrorText httpGet instance versionFlag
      = [Send (messageOf jsonErrorText httpGet versionFlag instance); Done])
  /\ forall s,
      reachable s ->
      length (sent s) <= length instances
      /\ (closed s = true ->
          length (sent s) = length instances /\ Permutation (sent s) allMessages)
      /\ (terminal s = true -> validFlags ->
          length (debugLog s) = length instances
          /\ Permutation (debugLog s) allMessages)
      /\ (exists schedule, terminal (run schedule s) = true)
      /\ (forall n s',
             nsteps (steps jsonErrorText httpGet instanceFlag versionFlag) n s s' ->
             n <= measure instanceFlag s).
Proof.
  split; [intros instance; apply compareReleaseNumbers_effects |].
  intros s R. split; [now apply sent_bound |]. split; [| split; [| split]].
  - intros Cl. destruct (closed_all_sent _ _ _ _ s R Cl) as (_ & Hs & _).
    split; [| assumption].
    rewrite (Permutation_length Hs). unfold messages. apply length_map.
  - intros T (Hi & Hv & Hn).
    destruct (terminal_outcome _ _ _ _ s R T)
      as (_ & [[([E|E] & _)|(_ & _ & E & _)]|(_ & _ & _ & _ & Hs & _)]);
      try contradiction.
    split; [| assumption].
    rewrite (Permutation_length Hs). unfold messages. apply length_map.
  - now apply terminates.
  - intros n s' Hn. apply nsteps_measure in Hn. lia.
Qed.

(** When a message holds the marker. *)
Lemma message_marker (m : string) :
  In m allMessages /\ Strings.Contains m marker = true
  <-> exists instance,
      In instance instances
      /\ m = messageOf jsonErrorText httpGet versionFlag instance
      /\ match fetchStatus httpGet instance with
         | (_, Some e) =>
             Strings.Contains instance marker = true
             \/ Strings.Contains (errorText jsonErrorText e) marker = true
         | (releaseNumber, None) =>
             releaseNumber <> versionFlag
             \/ Strings.Contains instance marker = true
             \/ Strings.Contains releaseNumber marker = true
         end.
Proof.
  unfold messages, messageOf. rewrite in_map_iff. split.
  - intros ((instance & <- & Hin) & Hc). exists instance.
    split; [assumption |]. split; [reflexivity |].
    rewrite Contains_resultMessage in Hc.
    destruct (fetchStatus httpGet instance) as [rn [e|]].
    + now apply orb_true_iff in Hc.
    + apply orb_true_iff in Hc as [Hc|Hc]; [apply orb_true_iff in Hc as [Hc|Hc] |].
      * left. apply negb_true_iff in Hc. now apply String.eqb_neq.
      * now right; left.
      * now right; right.
  - intros (instance & Hin & -> & H). split; [now exists instance |].
    rewrite Contains_resultMessage.
    destruct (fetchStatus httpGet instance) as [rn [e|]].
    + now apply orb_true_iff.
    + destruct H as [H|[H|H]].
      * apply String.eqb_neq in H. now rewrite H.
      * rewrite H. now rewrite orb_true_r.
      * rewrite H. now rewrite orb_true_r.
Qed.

Lemma exitCode_cases :
  (exitCode = 1%Z
   <-> instanceFlag = "" \/ versionFlag = "" \/ instances = []
       \/ exists m, In m allMessages /\ Strings.Contains m marker = true)
  /\ (exitCode = 0%Z \/ exitCode = 1%Z).
Proof.
  unfold exitCode.
  destruct (String.eqb_spec instanceFlag "") as [Ei|Ei];
    [simpl; split; [split; auto | auto] |].
  destruct (String.eqb_spec versionFlag "") as [Ev|Ev];
    [simpl; split; [split; auto | auto] |].
  destruct (Nat.eqb_spec (length instances) 0) as [En|En].
  { apply length_zero_iff_nil in En. simpl. split; [split; auto | auto]. }
  cbn [orb].
  destruct (processResults allMessages) eqn:E.
  - split; [| now left]. split; [discriminate |].
    intros [H|[H|[H|H]]]; try contradiction.
    + rewrite H in En. now elim En.
    + apply processResults_unhealthy in H. congruence.
  - split; [| now right]. split; [| reflexivity].
    intros _. right. right. right. now apply processResults_unhealthy.
Qed.

Lemma invalid_states (s : state) :
  reachable s -> ~ validFlags ->
  s = initial \/ rejected instanceFlag versionFlag s.
Proof.
  intros R NV. pose proof (reachable_inv _ _ _ _ s R) as I. unfold Inv in I.
  destruct (pc s) as [|rest| |code|].
  - now left.
  - destruct I as (V & _). contradiction.
  - destruct I as (V & _). contradiction.
  - destruct I as [Rej|(V & _)]; [now right | contradiction].
  - contradiction.
Qed.

Lemma invalid_nothing_started (s : state) :
  reachable s ->
  instanceFlag = "" \/ versionFlag = "" \/ instances = [] ->
  requests s = [] /\ workers s = [] /\ sent s = [].
Proof.
  intros R H.
  assert (NV : ~ validFlags) by (intros (Hi & Hv & Hn); tauto).
  destruct (invalid_states s R NV)
    as [->|[(_ & ->)|(_ & _ & _ & ->)]]; now repeat split.
Qed.

(** Once [flag.Parse] has returned the flags: the process exits with the
    code 1 exactly when the instance flag or the version flag is the empty
    string, or no instance is left after parsing, or one of the messages
    holds "mismatch"; otherwise it exits with the code 0.  Every execution
    ends with that code.  When a flag is empty, or no instance is left, no
    state of the process has made a request or started a goroutine. *)
Lemma exit_code_from_flags :
  (exitCode = 1%Z
   <-> instanceFlag = "" \/ versionFlag = "" \/ instances = []
       \/ exists m, In m allMessages /\ Strings.Contains m "mismatch" = true)
  /\ (exitCode = 0%Z \/ exitCode = 1%Z)
  /\ (forall m,
         In m allMessages /\ Strings.Contains m "mismatch" = true
         <-> exists instance,
             In instance instances
             /\ m = messageOf jsonErrorText httpGet versionFlag instance
             /\ match fetchStatus httpGet instance with
                | (_, Some e) =>
                    Strings.Contains instance "mismatch" = true
                    \/ Strings.Contains (errorText jsonErrorText e) "mismatch" = true
                | (releaseNumber, None) =>
                    releaseNumber <> versionFlag
                    \/ Strings.Contains instance "mismatch" = true
                    \/ Strings.Contains releaseNumber "mismatch" = true
                end)
  /\ forall s,
      reachable s ->
      (terminal s = true -> pc s = Exited exitCode)
      /\ (instanceFlag = "" \/ versionFlag = "" \/ instances = [] ->
          requests s = [] /\ workers s = [] /\ sent s = [])
      /\ (exists schedule,
             terminal (run schedule s) = true
             /\ pc (run schedule s) = Exited exitCode).
Proof.
  split; [apply exitCode_cases |]. split; [apply exitCode_cases |].
  split; [apply message_marker |].
  intros s R. split; [| split].
  - intros T. now apply terminal_outcome.
  - now apply invalid_nothing_started.
  - destruct (terminates _ _ _ _ s R) as (schedule & T).
    exists schedule. split; [assumption |].
    apply terminal_outcome; [now apply reachable_run | assumption].
Qed.

End ProcessOutcome.

Lemma C2_one_message_per_instance_witness :
  let s := run Sample.errorText Sample.oneDown "NA1, NA2,NA3" "v1" roundRobin initial in
  length (debugLog s) = 3
  /\ Permutation (debugLog s)
       ["Release number matches for instance NA1: v1";
        "Error fetching status for instance NA2: API returned non-OK status: 503 Service Unavailable";
        "Release number matches for instance NA3: v1"].
Proof.
  intros s.
  assert (R : reachable Sample.errorText Sample.oneDown "NA1, NA2,NA3" "v1" s)
    by (apply reachable_run, reachable_initial).
  destruct (proj2 (C2_one_message_per_instance Sample.errorText Sample.oneDown
                     "NA1, NA2,NA3" "v1") s R) as (_ & _ & H & _).
  apply H.
  - vm_compute. reflexivity.
  - repeat split; discriminate.
Defined.

(** ** The process from its command line *)

Lemma parse_exit_codes (n : nat) :
  forall args vs code,
    length args <= n -> Flag.parse args vs = Flag.Exit code ->
    (code = 0 \/ code = 2)%Z.
Proof.
  induction n as [|n IH]; intros args vs code Hn.
  - destruct args; [discriminate | simpl in Hn; lia].
  - destruct args as [|a rest]; [discriminate |]. simpl in Hn. cbn [Flag.parse].
    destruct (Flag.argumentOf a) as [| |name value]; [discriminate | intros [= <-]; auto |].
    destruct (Flag.formal name).
    + destruct value as [v|]; [apply IH; lia |].
      destruct rest as [|v rest']; [intros [= <-]; auto |].
      apply IH. simpl in Hn. lia.
    + destruct (_ || _); intros [= <-]; auto.
Qed.

Lemma Parse_exit_codes (args : list string) (code : Z) :
  Flag.Parse args = Flag.Exit code -> (code = 0 \/ code = 2)%Z.
Proof. apply (parse_exit_codes (length args)). apply le_n. Qed.

Section CommandLineFacts.

Variable jsonErrorText : Json.error -> string.
Variable httpGet : string -> Http.result.
Variable args : list string.

Local Abbreviation reachableProcess := (reachableProcess jsonErrorText httpGet args).

(** A state of the process is the start, an exit inside [flag.Parse], or
    a state of [main] with the flags [flag.Parse] has returned. *)
Lemma reachableProcess_shape (p : process) :
  reachableProcess p ->
  p = Starting
  \/ (exists code, Flag.Parse args = Flag.Exit code /\ p = ExitedParsing code)
  \/ exists vs s,
      Flag.Parse args = Flag.Parsed vs
      /\ p = Started (Flag.instance vs) (Flag.version vs) s
      /\ reachable jsonErrorText httpGet (Flag.instance vs) (Flag.version vs) s.
Proof.
  induction 1 as [|p p' t R IH Hs]; [now left |].
  destruct IH as [->|[(code & E & ->)|(vs & s & E & -> & Rs)]].
  - simpl in Hs. destruct t; try discriminate.
    destruct (Flag.Parse args) as [vs|code] eqn:E; injection Hs as <-.
    + right. right. exists vs, initial. repeat split. constructor.
    + right. left. now exists code.
  - discriminate.
  - simpl in Hs.
    destruct (step jsonErrorText httpGet (Flag.instance vs) (Flag.version vs) t s)
      as [s'|] eqn:St; [| discriminate].
    injection Hs as <-. right. right. exists vs, s'. repeat split; [assumption |].
    eapply reachable_step; [exact Rs | now exists t].
Qed.

Lemma runProcess_Started (schedule : list thread) (instanceFlag versionFlag : string)
    (s : state) :
  runProcess jsonErrorText httpGet args schedule (Started instanceFlag versionFlag s)
  = Started instanceFlag versionFlag
      (run jsonErrorText httpGet instanceFlag versionFlag schedule s).
Proof.
  revert s. induction schedule as [|t schedule IH]; intros s; [reflexivity |].
  simpl. destruct (step jsonErrorText httpGet instanceFlag versionFlag t s); apply IH.
Qed.

Lemma reachableProcess_run (schedule : list thread) (p : process) :
  reachableProcess p ->
  reachableProcess (runProcess jsonErrorText httpGet args schedule p).
Proof.
  revert p. induction schedule as [|t schedule IH]; intros p R; [assumption |].
  simpl. destruct (stepProcess jsonErrorText httpGet args t p) as [p'|] eqn:E;
    [| now apply IH].
  apply IH. now apply (reachable_next _ _ _ p p' t).
Qed.

Lemma processExitCode_Parsed (vs : Flag.values) :
  Flag.Parse args = Flag.Parsed vs ->
  processExitCode jsonErrorText httpGet args
  = exitCode jsonErrorText httpGet (Flag.instance vs) (Flag.version vs).
Proof. intros E. unfold processExitCode. now rewrite E. Qed.

(** C4 (amended).  The process begins with [flag.Parse] and may exit inside
    it: with the code 2 on a command line [flag] refuses, with the code 0
    on [-h] or [-help].  When [flag.Parse] returns the two flags, the
    process exits with the code 1 exactly when the instance flag or the
    version flag is the empty string, or no instance is left after
    parsing, or one of the messages holds "mismatch": the message of every
    version mismatch does, and so does the message of an instance whose
    name, release number or error text holds "mismatch"; otherwise it
    exits with the code 0.  Every execution ends with that code.  When
    [flag.Parse] does not return, or returns an empty flag or a flag with
    no instance left, no state of the process has made a request or
    started a goroutine. *)
Theorem C4_exit_code :
  (forall code,
      Flag.Parse args = Flag.Exit code ->
      processExitCode jsonErrorText httpGet args = code /\ (code = 0 \/ code = 2)%Z)
  /\ (forall instanceFlag versionFlag,
         Flag.Parse args
         = Flag.Parsed {| Flag.instance := instanceFlag; Flag.version := versionFlag |} ->
         let results :=
           messages jsonErrorText httpGet versionFlag (parseInstances instanceFlag) in
         (processExitCode jsonErrorText httpGet args = 1%Z
          <-> instanceFlag = "" \/ versionFlag = "" \/ parseInstances instanceFlag = []
              \/ exists m, In m results /\ Strings.Contains m "mismatch" = true)
         /\ (processExitCode jsonErrorText httpGet args = 0%Z
             \/ processExitCode jsonErrorText httpGet args = 1%Z)
         /\ (forall m,
                In m results /\ Strings.Contains m "mismatch" = true
                <-> exists instance,
                    In instance (parseInstances instanceFlag)
                    /\ m = messageOf jsonErrorText httpGet versionFlag instance
                    /\ match fetchStatus httpGet instance with
                       | (_, Some e) =>
                           Strings.Contains instance "mismatch" = true
                           \/ Strings.Contains (errorText jsonErrorText e) "mismatch"
                              = true
                       | (releaseNumber, None) =>
                           releaseNumber <> versionFlag
                           \/ Strings.Contains instance "mismatch" = true
                           \/ Strings.Contains releaseNumber "mismatch" = true
                       end))
  /\ forall p,
      reachableProcess p ->
      (terminalProcess p = true ->
       exited p = Some (processExitCode jsonErrorText httpGet args))
      /\ ((forall instanceFlag versionFlag,
              Flag.Parse args
              = Flag.Parsed {| Flag.instance := instanceFlag;
                               Flag.version := versionFlag |} ->
              instanceFlag = "" \/ versionFlag = "" \/ parseInstances instanceFlag = []) ->
          requests (stateOf p) = [] /\ workers (stateOf p) = [] /\ sent (stateOf p) = [])
      /\ (exists schedule,
             terminalProcess (runProcess jsonErrorText httpGet args schedule p) = true
             /\ exited (runProcess jsonErrorText httpGet args schedule p)
                = Some (processExitCode jsonErrorText httpGet args)).
Proof.
  split; [| split].
  - intros code E. split; [| now apply (Parse_exit_codes args)].
    unfold processExitCode. now rewrite E.
  - intros instanceFlag versionFlag E results.
    rewrite (processExitCode_Parsed _ E). cbn [Flag.instance Flag.version].
    destruct (exit_code_from_flags jsonErrorText httpGet instanceFlag versionFlag)
      as (H1 & H2 & H3 & _).
    split; [exact H1 |]. split; [exact H2 | exact H3].
  - assert (T : forall instanceFlag versionFlag s,
               reachable jsonErrorText httpGet instanceFlag versionFlag s ->
               exists schedule,
                 terminal (run jsonErrorText httpGet instanceFlag versionFlag schedule s)
                 = true
                 /\ pc (run jsonErrorText httpGet instanceFlag versionFlag schedule s)
                    = Exited (exitCode jsonErrorText httpGet instanceFlag versionFlag)).
    { intros instanceFlag versionFlag s R.
      destruct (terminates _ _ _ _ s R) as (schedule & T).
      exists schedule. split; [assumption |].
      apply terminal_outcome; [now apply reachable_run | assumption]. }
    intros p R.
    destruct (reachableProcess_shape p R)
      as [->|[(code & E & ->)|([instanceFlag versionFlag] & s & E & -> & Rs)]].
    + split; [discriminate |]. split; [now repeat split |].
      destruct (Flag.Parse args) as [[instanceFlag versionFlag]|code] eqn:E.
      * destruct (T instanceFlag versionFlag initial (reachable_initial _ _ _ _))
          as (schedule & Ht & Hp).
        exists (Main :: schedule). cbn [runProcess stepProcess].
        rewrite E. cbn [Flag.instance Flag.version].
        rewrite runProcess_Started. cbn [terminalProcess exited].
        rewrite Hp. split; [assumption |].
        unfold processExitCode. now rewrite E.
      * exists [Main]. cbn [runProcess stepProcess]. rewrite E.
        split; [reflexivity |]. unfold processExitCode. now rewrite E.
    + split; [| split; [now repeat split |]].
      * intros _. unfold processExitCode. now rewrite E.
      * exists []. split; [reflexivity |]. unfold processExitCode. now rewrite E.
    + cbn [Flag.instance Flag.version] in *.
      rewrite (processExitCode_Parsed _ E). cbn [Flag.instance Flag.version].
      split; [| split].
      * cbn [terminalProcess exited]. intros Ht.
        destruct (terminal_outcome _ _ _ _ s Rs Ht) as (-> & _). reflexivity.
      * intros H. cbn [stateOf].
        apply (invalid_nothing_started jsonErrorText httpGet instanceFlag versionFlag s Rs).
        now apply H.
      * destruct (T instanceFlag versionFlag s Rs) as (schedule & Ht & Hp).
        exists schedule. rewrite runProcess_Started. cbn [terminalProcess exited].
        now rewrite Hp.
Qed.

End CommandLineFacts.

Lemma C4_exit_code_witness :
  let bogus := runProcess Sample.errorText Sample.oneDown ["-instance"; "NA1"; "-bogus"]
                 [Main] Starting in
  let help := runProcess Sample.errorText Sample.oneDown ["-h"] [Main] Starting in
  let none := runProcess Sample.errorText Sample.oneDown [] [Main; Main] Starting in
  (exited bogus = Some 2%Z /\ requests (stateOf bogus) = [])
  /\ exited help = Some 0%Z
  /\ (exited none = Some 1%Z /\ requests (stateOf none) = []).
Proof.
  intros bogus help none.
  assert (R : forall args schedule,
             reachableProcess Sample.errorText Sample.oneDown args
               (runProcess Sample.errorText Sample.oneDown args schedule Starting)).
  { intros args schedule. apply reachableProcess_run, reachable_start. }
  split; [| split].
  - destruct (proj2 (proj2 (C4_exit_code Sample.errorText Sample.oneDown
                              ["-instance"; "NA1"; "-bogus"])) bogus (R _ _))
      as (H1 & H2 & _).
    split; [exact (H1 eq_refl) |].
    apply H2. intros instanceFlag versionFlag E. discriminate E.
  - destruct (proj2 (proj2 (C4_exit_code Sample.errorText Sample.oneDown ["-h"]))
                help (R _ _)) as (H1 & _).
    exact (H1 eq_refl).
  - destruct (proj2 (proj2 (C4_exit_code Sample.errorText Sample.oneDown []))
                none (R _ _)) as (H1 & H2 & _).
    split; [exact (H1 eq_refl) |].
    apply H2. intros instanceFlag versionFlag [= <- <-]. now left.
Defined.

(** C4, as stated, fails: both flags are given, one instance is left after
    parsing, its fetch returns the expected version, the only message is
    that of a match and reports no mismatch, and the process exits with the
    code 1, for the name of the instance holds "mismatch". *)
Lemma C4_counterexample :
  let results := messages Sample.errorText Sample.allUp "v1" (parseInstances "EU-mismatch") in
  parseInstances "EU-mismatch" = ["EU-mismatch"]
  /\ fetchStatus Sample.allUp "EU-mismatch" = ("v1", None)
  /\ results = ["Release number matches for instance EU-mismatch: v1"]
  /\ (forall m instance expected got,
         In m results -> m <> fmtMismatch instance expected got)
  /\ exitCode Sample.errorText Sample.allUp "EU-mismatch" "v1" = 1%Z
  /\ pc (run Sample.errorText Sample.allUp "EU-mismatch" "v1" roundRobin initial)
     = Exited 1
  /\ Flag.Parse ["-instance"; "EU-mismatch"; "-version"; "v1"]
     = Flag.Parsed {| Flag.instance := "EU-mismatch"; Flag.version := "v1" |}
  /\ exited (runProcess Sample.errorText Sample.allUp
               ["-instance"; "EU-mismatch"; "-version"; "v1"]
               (Main :: roundRobin) Starting)
     = Some 1%Z.
Proof.
  repeat split.
  intros m instance expected got [<-|[]]. discriminate.
Qed.

(** ** The marker in a name, and flags of white space *)

(** C9.  When the name of an instance holds "mismatch" and its fetch returns
    the expected version, [compareReleaseNumbers] writes the message
    "Release number matches for instance <name>: <version>", which holds
    "mismatch": [processResults] is unhealthy for every sequence of messages
    with this one, and an invocation with this instance exits with the code 1
    on every execution.  There is such an invocation: with the flags
    [NA1, EU-mismatch] and [v1], every instance answering 200 with the
    release number [v1], the process exits with the code 1. *)
Theorem C9_marker_in_instance_name :
  (forall (jsonErrorText : Json.error -> string) (httpGet : string -> Http.result)
          (instanceFlag versionFlag instance : string),
      Strings.Contains instance "mismatch" = true ->
      fetchStatus httpGet instance = (versionFlag, None) ->
      let msg :=
        "Release number matches for instance " +:+ instance +:+ ": " +:+ versionFlag in
      compareReleaseNumbers jsonErrorText httpGet instance versionFlag = [Send msg; Done]
      /\ Strings.Contains msg "mismatch" = true
      /\ (forall results, In msg results -> processResults results = false)
      /\ (In instance (parseInstances instanceFlag) ->
          exitCode jsonErrorText httpGet instanceFlag versionFlag = 1%Z
          /\ forall s,
              reachable jsonErrorText httpGet instanceFlag versionFlag s ->
              terminal s = true -> pc s = Exited 1))
  /\ (exists (httpGet : string -> Http.result) (instanceFlag versionFlag : string),
         instanceFlag <> "" /\ versionFlag <> "" /\ parseInstances instanceFlag <> []
         /\ (forall instance,
                In instance (parseInstances instanceFlag) ->
                fetchStatus httpGet instance = (versionFlag, None))
         /\ forall jsonErrorText : Json.error -> string,
             exitCode jsonErrorText httpGet instanceFlag versionFlag = 1%Z
             /\ (exists schedule,
                    pc (run jsonErrorText httpGet instanceFlag versionFlag schedule initial)
                    = Exited 1)
             /\ forall s,
                 reachable jsonErrorText httpGet instanceFlag versionFlag s ->
                 terminal s = true -> pc s = Exited 1).
Proof.
  assert (G : forall jsonErrorText httpGet instanceFlag versionFlag instance,
             Strings.Contains instance "mismatch" = true ->
             fetchStatus httpGet instance = (versionFlag, None) ->
             In instance (parseInstances instanceFlag) ->
             exitCode jsonErrorText httpGet instanceFlag versionFlag = 1%Z).
  { intros jsonErrorText httpGet instanceFlag versionFlag instance Hc Hf Hin.
    apply exitCode_cases. right. right. right.
    exists (messageOf jsonErrorText httpGet versionFlag instance). split.
    - unfold messages. apply in_map_iff. now exists instance.
    - unfold messageOf. fold marker. rewrite Contains_resultMessage, Hf.
      fold marker in Hc. rewrite Hc. now rewrite orb_true_r. }
  split.
  - intros jsonErrorText httpGet instanceFlag versionFlag instance Hc Hf msg.
    assert (Hm : Strings.Contains msg "mismatch" = true).
    { subst msg. fold (fmtMatch instance versionFlag). fold marker.
      rewrite Contains_fmtMatch. fold marker in Hc. now rewrite Hc. }
    split; [| split; [exact Hm | split]].
    + rewrite compareReleaseNumbers_effects. unfold resultMessage.
      now rewrite Hf, String.eqb_refl.
    + intros results Hin. apply processResults_unhealthy. now exists msg.
    + intros Hin.
      pose proof (G jsonErrorText httpGet instanceFlag versionFlag instance Hc Hf Hin) as E.
      split; [exact E |].
      intros s R T. rewrite <- E. now apply terminal_outcome.
  - exists Sample.allUp, "NA1, EU-mismatch", "v1".
    split; [discriminate |]. split; [discriminate |]. split; [discriminate |].
    split; [intros instance [<-|[<-|[]]]; reflexivity |].
    intros jsonErrorText.
    assert (E : exitCode jsonErrorText Sample.allUp "NA1, EU-mismatch" "v1" = 1%Z).
    { apply (G _ _ _ _ "EU-mismatch"); [reflexivity | reflexivity | simpl; auto]. }
    split; [exact E |]. split.
    + destruct (terminates jsonErrorText Sample.allUp "NA1, EU-mismatch" "v1" initial
                  (reachable_initial _ _ _ _)) as (schedule & T).
      exists schedule. rewrite <- E.
      apply terminal_outcome; [apply reachable_run, reachable_initial | assumption].
    + intros s R T. rewrite <- E. now apply terminal_outcome.
Qed.

Lemma C9_marker_in_instance_name_witness :
  compareReleaseNumbers Sample.errorText Sample.allUp "EU-mismatch" "v1"
  = [Send "Release number matches for instance EU-mismatch: v1"; Done]
  /\ processResults ["Release number matches for instance NA1: v1";
                     "Release number matches for instance EU-mismatch: v1"] = false
  /\ pc (run Sample.errorText Sample.allUp "NA1, EU-mismatch" "v1" roundRobin initial)
     = Exited 1.
Proof.
  destruct (proj1 C9_marker_in_instance_name Sample.errorText Sample.allUp
              "NA1, EU-mismatch" "v1" "EU-mismatch" eq_refl eq_refl)
    as (H1 & _ & H3 & H4).
  split; [exact H1 |]. split.
  - apply H3. simpl. auto.
  - apply (proj2 (H4 ltac:(simpl; auto))).
    + apply reachable_run, reachable_initial.
    + vm_compute. reflexivity.
Defined.

Lemma parseInstances_whitespace (instanceFlag : string) :
  Strings.WhitespaceOnly instanceFlag -> parseInstances instanceFlag = [].
Proof.
  intros W. unfold parseInstances.
  rewrite (StringFacts.Split_without_sep _ _ (StringFacts.WhitespaceOnly_no_comma _ W)).
  unfold filterEmptyStrings. simpl.
  now rewrite (StringFacts.TrimSpace_whitespace _ W).
Qed.

(** C10.  The check of lines 63-67 rejects the two flags exactly when one of
    them is the empty string: nothing is trimmed before.  A version flag of
    white space alone passes it, [main] dispatches the instances, and the
    flag, white space included, is what each fetched release number is
    compared with: the release number matches when it is the same string and
    is a mismatch otherwise, as every release number is that is not white
    space alone.  An instance flag of white space alone passes the first
    check, leaves no instance after parsing, and [main] exits with the code 1
    on "No valid instances provided": no state of the process has made a
    request. *)
Theorem C10_flags_not_trimmed
    (jsonErrorText : Json.error -> string) (httpGet : string -> Http.result)
    (instanceFlag versionFlag : string) :
  (stepMain instanceFlag versionFlag initial
   = Some (setPc (Exited 1)
             (logError "Instance and version flags are required" initial))
   <-> instanceFlag = "" \/ versionFlag = "")
  /\ (Strings.WhitespaceOnly versionFlag -> versionFlag <> "" ->
      parseInstances instanceFlag <> [] ->
      stepMain instanceFlag versionFlag initial
      = Some (setPc (Dispatch (parseInstances instanceFlag))
                (makeChan (length (parseInstances instanceFlag)) initial))
      /\ forall instance releaseNumber,
          fetchStatus httpGet instance = (releaseNumber, None) ->
          (releaseNumber = versionFlag ->
           compareReleaseNumbers jsonErrorText httpGet instance versionFlag
           = [Send (fmtMatch instance releaseNumber); Done])
          /\ (releaseNumber <> versionFlag ->
              compareReleaseNumbers jsonErrorText httpGet instance versionFlag
              = [Send (fmtMismatch instance versionFlag releaseNumber); Done])
          /\ (~ Strings.WhitespaceOnly releaseNumber ->
              compareReleaseNumbers jsonErrorText httpGet instance versionFlag
              = [Send (fmtMismatch instance versionFlag releaseNumber); Done]))
  /\ (Strings.WhitespaceOnly instanceFlag -> instanceFlag <> "" -> versionFlag <> "" ->
      parseInstances instanceFlag = []
      /\ stepMain instanceFlag versionFlag initial
         = Some (setPc (Exited 1) (logError "No valid instances provided" initial))
      /\ forall s,
          reachable jsonErrorText httpGet instanceFlag versionFlag s ->
          requests s = []
          /\ (terminal s = true ->
              pc s = Exited 1 /\ errorLog s = ["No valid instances provided"])).
Proof.
  split; [| split].
  - unfold stepMain. cbn [pc initial].
    destruct (String.eqb_spec instanceFlag "") as [Ei|Ei];
      [| destruct (String.eqb_spec versionFlag "") as [Ev|Ev]]; cbn [orb].
    + split; auto.
    + split; auto.
    + split; [| tauto].
      destruct (Nat.eqb _ 0); intros [= H]; discriminate.
  - intros W Hv Hn. split.
    + unfold stepMain. cbn [pc initial].
      assert (Ei : instanceFlag <> "") by (intros ->; now apply Hn).
      apply String.eqb_neq in Ei, Hv. rewrite Ei, Hv. cbn [orb].
      destruct (Nat.eqb_spec (length (parseInstances instanceFlag)) 0) as [E|E];
        [| reflexivity].
      apply length_zero_iff_nil in E. contradiction.
    + intros instance releaseNumber Hf.
      pose proof (C7_compareReleaseNumbers jsonErrorText httpGet instance versionFlag)
        as (H & _).
      rewrite Hf in H. destruct H as (H1 & H2).
      split; [exact H1 |]. split; [exact H2 |].
      intros NW. apply H2. intros ->. contradiction.
  - intros W Hi Hv.
    pose proof (parseInstances_whitespace _ W) as E.
    split; [exact E |]. split.
    + unfold stepMain. cbn [pc initial].
      apply String.eqb_neq in Hi, Hv. rewrite Hi, Hv, E. reflexivity.
    + intros s R.
      destruct (invalid_nothing_started jsonErrorText httpGet instanceFlag versionFlag
                  s R ltac:(tauto)) as (Hr & _).
      split; [exact Hr |]. intros T.
      destruct (terminal_outcome _ _ _ _ s R T)
        as (_ & [[([E'|E'] & _)|(_ & _ & _ & ->)]|((_ & _ & Hn) & _)]);
        try contradiction.
      now split.
Qed.

Lemma C10_flags_not_trimmed_witness :
  stepMain "NA1" "  " initial = Some (setPc (Dispatch ["NA1"]) (makeChan 1 initial))
  /\ compareReleaseNumbers Sample.errorText Sample.allUp "NA1" "  "
     = [Send "Release number mismatch for instance NA1: expected   , got v1"; Done]
  /\ pc (run Sample.errorText Sample.allUp "  " "v1" [Main] initial) = Exited 1
  /\ requests (run Sample.errorText Sample.allUp "  " "v1" [Main] initial) = [].
Proof.
  assert (W : Strings.WhitespaceOnly "  ")
    by (apply Strings.run_1; [reflexivity |]; apply Strings.run_1;
        [reflexivity | apply Strings.run_nil]).
  destruct (C10_flags_not_trimmed Sample.errorText Sample.allUp "NA1" "  ")
    as (_ & H & _).
  destruct (H W ltac:(discriminate) ltac:(discriminate)) as (H1 & H2).
  destruct (C10_flags_not_trimmed Sample.errorText Sample.allUp "  " "v1")
    as (_ & _ & K).
  destruct (K W ltac:(discriminate) ltac:(discriminate)) as (_ & _ & K3).
  destruct (K3 (run Sample.errorText Sample.allUp "  " "v1" [Main] initial)
              ltac:(apply reachable_run, reachable_initial)) as (K4 & K5).
  split; [exact H1 |]. split.
  - exact (proj1 (proj2 (H2 "NA1" "v1" eq_refl)) ltac:(discriminate)).
  - split; [exact (proj1 (K5 eq_refl)) | exact K4].
Defined.
(** * Further properties *)

(** ** [filterEmptyStrings] and [parseInstances] once more *)

Module ParseFacts.

Import Strings StringFacts.

Lemma trimLeftBy_fixed (p1 : ascii -> bool) (p2 : ascii -> ascii -> bool)
    (p3 : ascii -> ascii -> ascii -> bool) (s : string) :
  startsWithBy p1 p2 p3 s = false -> trimLeftBy p1 p2 p3 s = s.
Proof.
  destruct s as [|c1 [|c2 [|c3 r]]]; [reflexivity | | |].
  - simpl. rewrite orb_false_r. now intros ->.
  - simpl. destruct (p1 c1); [discriminate |]. simpl. rewrite orb_false_r. now intros ->.
  - rewrite trimLeftBy_eq3. cbn [startsWithBy].
    destruct (p1 c1); [discriminate |]. destruct (p2 c1 c2); [discriminate |].
    simpl. now intros ->.
Qed.

(** A string with no white space at either end is left as it is. *)
Lemma TrimSpace_fixed (t : string) :
  startsWithSpace t = false -> endsWithSpace t = false -> TrimSpace t = t.
Proof.
  intros Hs He. unfold TrimSpace, TrimLeftSpace.
  rewrite (trimLeftBy_fixed _ _ _ t Hs).
  unfold TrimRightSpace. rewrite (trimLeftBy_fixed _ _ _ (reverse t) He).
  apply reverse_involutive.
Qed.

Lemma TrimSpace_idempotent (s : string) : TrimSpace (TrimSpace s) = TrimSpace s.
Proof.
  apply TrimSpace_fixed;
    [apply TrimSpace_startsWithSpace | apply TrimSpace_endsWithSpace].
Qed.

Lemma TrimSpace_empty_iff (s : string) : TrimSpace s = "" <-> WhitespaceOnly s.
Proof.
  split; [| apply TrimSpace_whitespace].
  intros E. destruct (TrimSpace_split s) as (l & r & Hs & Hl & Hr).
  rewrite E in Hs. rewrite Hs. now apply Run_append.
Qed.

Lemma occurs_append (c : ascii) (a b : string) :
  occurs c (a +:+ b) = occurs c a || occurs c b.
Proof.
  induction a as [|x a IH]; simpl; [reflexivity |].
  now rewrite IH, orb_assoc.
Qed.

Lemma TrimSpace_occurs (c : ascii) (s : string) :
  occurs c s = false -> occurs c (TrimSpace s) = false.
Proof.
  destruct (TrimSpace_split s) as (l & r & Hs & _).
  intros H. rewrite Hs, !occurs_append in H.
  apply orb_false_iff in H as (_ & H). now apply orb_false_iff in H as (H & _).
Qed.

Lemma TrimSpace_Contains (s : string) : Contains s (TrimSpace s) = true.
Proof.
  destruct (TrimSpace_split s) as (l & r & Hs & _).
  apply Contains_spec. now exists l, r.
Qed.

Lemma Contains_trans (a b c : string) :
  Contains a b = true -> Contains b c = true -> Contains a c = true.
Proof.
  rewrite !Contains_spec. intros (u & v & ->) (x & y & ->).
  exists (u +:+ x), (y +:+ v). now rewrite !append_assoc.
Qed.

(** *** [Split] and [Join] *)

Lemma Split_sep (a b : string) (sep : ascii) :
  Split (a +:+ String sep b) sep = Split a sep ++ Split b sep.
Proof.
  induction a as [|c a IH]; simpl.
  - now rewrite Ascii.eqb_refl.
  - destruct (Ascii.eqb c sep); [now rewrite IH |].
    rewrite IH. pose proof (Split_not_nil a sep) as N.
    destruct (Split a sep); [congruence | reflexivity].
Qed.

Lemma Split_Join (l : list string) (sep : ascii) :
  l <> [] -> Forall (fun p => occurs sep p = false) l -> Split (Join l sep) sep = l.
Proof.
  induction l as [|p l IH]; [congruence |]. intros _ F.
  inversion F as [|? ? Hp Hl]; subst.
  destruct l as [|q l]; [now apply Split_without_sep |].
  rewrite Join_cons by discriminate.
  rewrite Split_sep, (Split_without_sep _ _ Hp), IH by (assumption || discriminate).
  reflexivity.
Qed.

Lemma Join_Contains (l : list string) (sep : ascii) (p : string) :
  In p l -> Contains (Join l sep) p = true.
Proof.
  induction l as [|q l IH]; [intros [] |].
  destruct l as [|q' l].
  - intros [->|[]]. simpl. apply Contains_spec. exists "", "".
    now rewrite append_nil_r.
  - intros [->|Hin].
    + rewrite Join_cons by discriminate. apply Contains_spec.
      now exists "", (String sep (Join (q' :: l) sep)).
    + rewrite Join_cons by discriminate. apply Contains_spec.
      apply IH in Hin. apply Contains_spec in Hin as (a & b & ->).
      exists (q +:+ String sep a), b. now rewrite append_assoc.
Qed.

Lemma filterEmptyStrings_app (a b : list string) :
  filterEmptyStrings (a ++ b) = filterEmptyStrings a ++ filterEmptyStrings b.
Proof. now rewrite !filterEmptyStrings_spec, List.map_app, List.filter_app. Qed.

Lemma filterEmptyStrings_trimmed (l : list string) :
  Forall (fun n => n <> "" /\ startsWithSpace n = false /\ endsWithSpace n = false) l ->
  filterEmptyStrings l = l.
Proof.
  rewrite filterEmptyStrings_spec.
  induction 1 as [|n l (Hn & Hs & He) _ IH]; [reflexivity |].
  simpl. rewrite (TrimSpace_fixed n Hs He).
  apply String.eqb_neq in Hn. rewrite Hn. simpl. now rewrite IH.
Qed.

End ParseFacts.

(** What [filterEmptyStrings] returns it leaves as it is: every element
    is its own [TrimSpace], and a second pass changes nothing. *)
Theorem filterEmptyStrings_idempotent (slice : list string) :
  Forall (fun t => Strings.TrimSpace t = t) (filterEmptyStrings slice)
  /\ filterEmptyStrings (filterEmptyStrings slice) = filterEmptyStrings slice.
Proof.
  rewrite !filterEmptyStrings_spec.
  induction slice as [|s slice (IH1 & IH2)]; [split; [constructor | reflexivity] |].
  cbn [List.map List.filter].
  destruct (String.eqb (Strings.TrimSpace s) "") eqn:E; cbn [negb]; [now split |].
  split.
  - constructor; [apply ParseFacts.TrimSpace_idempotent | assumption].
  - cbn [List.map List.filter].
    rewrite ParseFacts.TrimSpace_idempotent, E. cbn [negb]. now f_equal.
Qed.

(** [filterEmptyStrings] goes through the slice from left to right and
    looks at one element at a time: the result for two slices put end to
    end is the two results put end to end, and it is never longer than
    the slice. *)
Theorem filterEmptyStrings_append (a b : list string) :
  filterEmptyStrings (a ++ b) = filterEmptyStrings a ++ filterEmptyStrings b
  /\ length (filterEmptyStrings a) <= length a.
Proof.
  split; [apply ParseFacts.filterEmptyStrings_app |].
  rewrite filterEmptyStrings_spec.
  etransitivity; [apply List.filter_length_le |]. now rewrite List.length_map.
Qed.

(** Names without comma, joined by commas, parse to the names
    [filterEmptyStrings] keeps of them; names that are not empty and have
    no white space at either end parse to themselves, duplicates
    included. *)
Theorem parseInstances_Join (names : list string) :
  Forall (fun n => Strings.occurs "," n = false) names ->
  parseInstances (Strings.Join names ",") = filterEmptyStrings names
  /\ (Forall (fun n => n <> "" /\ Strings.startsWithSpace n = false
                       /\ Strings.endsWithSpace n = false) names ->
      parseInstances (Strings.Join names ",") = names).
Proof.
  intros F.
  assert (E : parseInstances (Strings.Join names ",") = filterEmptyStrings names).
  { destruct names as [|n names]; [reflexivity |].
    unfold parseInstances. now rewrite ParseFacts.Split_Join. }
  split; [exact E |].
  intros T. rewrite E. now apply ParseFacts.filterEmptyStrings_trimmed.
Qed.

Lemma parseInstances_Join_witness :
  parseInstances "NA1,EU2,NA1" = ["NA1"; "EU2"; "NA1"].
Proof.
  apply (proj2 (parseInstances_Join ["NA1"; "EU2"; "NA1"]
                  ltac:(repeat constructor))).
  repeat constructor; discriminate.
Defined.

(** A comma cuts the flag in two flags that are parsed apart. *)
Theorem parseInstances_comma (a b : string) :
  parseInstances (a +:+ "," +:+ b) = parseInstances a ++ parseInstances b.
Proof.
  unfold parseInstances.
  change (a +:+ "," +:+ b) with (a +:+ String "," b).
  now rewrite ParseFacts.Split_sep, ParseFacts.filterEmptyStrings_app.
Qed.

(** No instance is left exactly when the flag is made of commas and white
    space: every piece between two commas is white space alone. *)
Theorem parseInstances_nil_iff (instanceFlag : string) :
  parseInstances instanceFlag = []
  <-> Forall Strings.WhitespaceOnly (Strings.Split instanceFlag ",").
Proof.
  unfold parseInstances. rewrite filterEmptyStrings_spec.
  induction (Strings.Split instanceFlag ",") as [|p ps IH]; simpl.
  - split; [constructor | reflexivity].
  - destruct (String.eqb_spec (Strings.TrimSpace p) "") as [E|E]; simpl.
    + rewrite IH. split.
      * intros H. constructor; [now apply ParseFacts.TrimSpace_empty_iff | assumption].
      * intros H. now inversion H.
    + split; [discriminate |].
      intros H. inversion H as [|? ? Hp _]; subst.
      now apply ParseFacts.TrimSpace_empty_iff in Hp.
Qed.

(** Every instance [parseInstances] returns is a part of the flag, as it
    stands there, and holds no comma; the result has no more elements than
    the flag has pieces. *)
Theorem parseInstances_elements (instanceFlag : string) :
  Forall (fun t => Strings.Contains instanceFlag t = true
                   /\ Strings.occurs "," t = false)
    (parseInstances instanceFlag)
  /\ length (parseInstances instanceFlag) <= length (Strings.Split instanceFlag ",").
Proof.
  split.
  - unfold parseInstances. rewrite filterEmptyStrings_spec.
    pose proof (StringFacts.Split_no_sep instanceFlag ",") as N.
    assert (C : Forall (fun p => Strings.Contains instanceFlag p = true)
                  (Strings.Split instanceFlag ",")).
    { apply List.Forall_forall. intros p Hp.
      rewrite <- (StringFacts.Join_Split instanceFlag ",") at 1.
      now apply ParseFacts.Join_Contains. }
    induction (Strings.Split instanceFlag ",") as [|p ps IH]; simpl; [constructor |].
    inversion N as [|? ? Np Nps]; inversion C as [|? ? Cp Cps]; subst.
    destruct (negb _); [| now apply IH].
    constructor; [| now apply IH]. split.
    + eapply ParseFacts.Contains_trans; [exact Cp | apply ParseFacts.TrimSpace_Contains].
    + now apply ParseFacts.TrimSpace_occurs.
  - unfold parseInstances. rewrite filterEmptyStrings_spec.
    etransitivity; [apply List.filter_length_le |]. now rewrite List.length_map.
Qed.

(** ** [fetchStatus], [compareReleaseNumbers] and [processResults] once more *)

(** [fetchStatus] never returns a release number together with an error:
    with an error comes the empty string.  It returns no error only when
    [http.Get] gave a response with the status code 200 whose body the
    decoder accepts, and the release number is then the field the decoder
    filled. *)
Theorem fetchStatus_outcome (httpGet : string -> Http.result) (instance : string) :
  match fetchStatus httpGet instance with
  | (releaseNumber, Some _) => releaseNumber = ""
  | (releaseNumber, None) =>
      exists resp,
        httpGet (statusURL instance) = Http.Resp resp
        /\ Http.StatusCode resp = 200%Z
        /\ Json.Decode (Http.Body resp) = inl {| Json.ReleaseNumber := releaseNumber |}
  end.
Proof.
  unfold fetchStatus.
  destruct (httpGet (statusURL instance)) as [resp|text] eqn:G; [| reflexivity].
  unfold Http.StatusOK.
  destruct (Z.eqb_spec (Http.StatusCode resp) 200) as [E|E]; [| reflexivity].
  cbn [negb]. unfold decodeBody.
  destruct (Json.Decode (Http.Body resp)) as [[releaseNumber]|e] eqn:D; [| reflexivity].
  exists resp. now repeat split.
Qed.

(** The message [compareReleaseNumbers] writes tells by its first words
    which of the three returns was taken: it begins with "Error fetching
    status" exactly when [fetchStatus] returned an error, with "Release
    number mismatch" exactly when it returned a release number other than
    the expected one, and with "Release number matches" exactly when it
    returned the expected one, whatever the name of the instance, the
    release number and the text of the error are. *)
Theorem compareReleaseNumbers_kind
    (jsonErrorText : Json.error -> string) (httpGet : string -> Http.result)
    (instance expectedVersion : string) :
  exists msg,
    compareReleaseNumbers jsonErrorText httpGet instance expectedVersion = [Send msg; Done]
    /\ (Strings.HasPrefix msg "Error fetching status for instance " = true
        <-> snd (fetchStatus httpGet instance) <> None)
    /\ (Strings.HasPrefix msg "Release number mismatch for instance " = true
        <-> snd (fetchStatus httpGet instance) = None
            /\ fst (fetchStatus httpGet instance) <> expectedVersion)
    /\ (Strings.HasPrefix msg "Release number matches for instance " = true
        <-> snd (fetchStatus httpGet instance) = None
            /\ fst (fetchStatus httpGet instance) = expectedVersion).
Proof.
  unfold compareReleaseNumbers.
  destruct (fetchStatus httpGet instance) as [releaseNumber [e|]]; cbn [fst snd].
  - eexists. split; [reflexivity |]. repeat split; try discriminate.
    all: intros (H & _); discriminate.
  - destruct (String.eqb_spec releaseNumber expectedVersion) as [E|E]; cbn [negb].
    + eexists. split; [reflexivity |]. repeat split; try discriminate; try assumption.
      * intros H. now elim H.
      * intros (_ & H). contradiction.
    + eexists. split; [reflexivity |]. repeat split; try discriminate; try assumption.
      * intros H. now elim H.
      * intros (_ & H). contradiction.
Qed.

(** The verdict of [processResults] on messages put end to end is healthy
    when it is on each part, and so it is in whatever order the messages
    arrive; with no message at all it is healthy. *)
Theorem processResults_append (a b : list string) :
  processResults (a ++ b) = processResults a && processResults b
  /\ (forall results,
         Permutation (a ++ b) results ->
         processResults results = processResults a && processResults b)
  /\ processResults [] = true.
Proof.
  assert (A : processResults (a ++ b) = processResults a && processResults b).
  { rewrite !processResults_spec, existsb_app, negb_orb. reflexivity. }
  split; [exact A |]. split; [| reflexivity].
  intros results P. rewrite <- A. symmetry. now apply processResults_Permutation.
Qed.

(** ** [main] and its goroutines once more *)

Lemma pendingDones_le (jsonErrorText : Json.error -> string)
    (httpGet : string -> Http.result) (versionFlag : string) (l : list worker) :
  Forall (workerOk jsonErrorText httpGet versionFlag) l ->
  list_sum (List.map pendingDones l) <= length l.
Proof.
  induction 1 as [|w l Hw _ IH]; simpl; [lia |].
  assert (pendingDones w <= 1); [| lia].
  destruct w as [instance|instance effects]; simpl; [lia |].
  destruct Hw as [-> | [-> | ->]]; simpl; lia.
Qed.

Lemma finished_workers (l : list worker) :
  Forall (fun w => exists instance, w = Running instance []) l ->
  l = List.map (fun instance => Running instance []) (List.map workerInstance l).
Proof.
  induction 1 as [|w l (instance & ->) _ IH]; simpl; [reflexivity |].
  now rewrite <- IH.
Qed.

Section ProcessSafety.

Variable jsonErrorText : Json.error -> string.
Variable httpGet : string -> Http.result.
Variables instanceFlag versionFlag : string.

Local Abbreviation instances := (parseInstances instanceFlag).
Local Abbreviation reachable := (reachable jsonErrorText httpGet instanceFlag versionFlag).
Local Abbreviation step := (step jsonErrorText httpGet instanceFlag versionFlag).
Local Abbreviation stepMain := (stepMain instanceFlag versionFlag).
Local Abbreviation stepWorker := (stepWorker jsonErrorText httpGet versionFlag).
Local Abbreviation exitCode := (exitCode jsonErrorText httpGet instanceFlag versionFlag).
Local Abbreviation validFlags := (validFlags instanceFlag versionFlag).
Local Abbreviation rejected := (rejected instanceFlag versionFlag).
Local Abbreviation Core := (Core jsonErrorText httpGet instanceFlag versionFlag).
Local Abbreviation allMessages :=
  (messages jsonErrorText httpGet versionFlag (parseInstances instanceFlag)).

(** The three shapes of a state: before the checks of the flags, after a
    check has failed, and from the dispatch on. *)
Lemma reachable_shape (s : state) :
  reachable s ->
  s = initial
  \/ rejected s
  \/ validFlags
     /\ Core (remaining s) s
     /\ (closer s = None /\ closed s = false \/ closerOk s).
Proof.
  intros R. pose proof (reachable_inv _ _ _ _ s R) as I. unfold Inv in I.
  unfold remaining.
  destruct (pc s) as [|rest| |code|].
  - now left.
  - destruct I as (V & C & K & Cl). right. right. auto.
  - destruct I as (V & C & K). right. right. auto.
  - destruct I as [Rej|(V & C & K & _)]; [now right; left |]. right. right. auto.
  - contradiction.
Qed.

Lemma rejected_fields (s : state) :
  rejected s ->
  workers s = [] /\ closer s = None /\ wg s = 0%Z /\ buffer s = []
  /\ closed s = false /\ requests s = [] /\ sent s = [] /\ debugLog s = []
  /\ exitHealthy s = true /\ capacity s = 0.
Proof. intros [(_ & ->)|(_ & _ & _ & ->)]; now repeat split. Qed.

Lemma closerOk_open (s : state) :
  closer s = None /\ closed s = false \/ closerOk s ->
  (0 < wg s)%Z -> closed s = false.
Proof.
  intros [(_ & H)|K] Pos; [assumption |].
  unfold closerOk in K.
  destruct (closer s) as [[| |]|]; try tauto; destruct K; lia.
Qed.

Lemma channel_verdict (s : state) :
  reachable s -> exitHealthy s = processResults (debugLog s).
Proof.
  intros R.
  destruct (reachable_shape s R) as [->|[Rej|(V & C & K)]]; [reflexivity | |].
  - destruct (rejected_fields s Rej) as (_ & _ & _ & _ & _ & _ & _ & D & E & _).
    now rewrite D, E.
  - now destruct C.
Qed.

(** The process never panics.  No comparator writes to the channel after
    it has been closed, [wg.Done] never brings the counter below zero, and
    the channel is closed once. *)
Theorem never_panics (s : state) :
  reachable s ->
  pc s <> Panicked
  /\ (forall i instance msg effects,
         workers s !! i = Some (Running instance (Send msg :: effects)) ->
         closed s = false)
  /\ (forall i instance effects,
         workers s !! i = Some (Running instance (Done :: effects)) ->
         (0 <= wg s - 1)%Z)
  /\ (closer s = Some Closing -> closed s = false).
Proof.
  intros R. split.
  { pose proof (reachable_inv _ _ _ _ s R) as I. unfold Inv in I.
    intros P. now rewrite P in I. }
  destruct (reachable_shape s R) as [->|[Rej|(V & C & K)]].
  - repeat split; intros; discriminate.
  - destruct (rejected_fields s Rej) as (W & Cl & _).
    rewrite W, Cl. repeat split; intros; discriminate.
  - split; [| split].
    + intros i instance msg effects L.
      destruct (core_send _ _ _ _ _ _ _ _ _ _ C L) as (_ & Pos & _).
      now apply closerOk_open.
    + intros i instance effects L.
      destruct (core_done _ _ _ _ _ _ _ _ _ C L) as (_ & Pos & _). lia.
    + intros Hc. destruct K as [(N & _)|K]; [congruence |].
      unfold closerOk in K. rewrite Hc in K. tauto.
Qed.

(** A comparator goroutine never waits: as long as [main] has not exited,
    it can take its next step, the request, the write to the channel,
    which has room for it, or [wg.Done], until it has returned. *)
Theorem comparator_never_blocks (s : state) (i : nat) (w : worker) :
  reachable s -> terminal s = false -> workers s !! i = Some w ->
  (exists instance, w = Running instance [])
  \/ exists s', step (Worker i) s = Some s' /\ pc s' = pc s.
Proof.
  intros R T L. unfold step. rewrite T. unfold stepWorker. rewrite L.
  destruct (reachable_shape s R) as [->|[Rej|(V & C & K)]].
  - discriminate.
  - destruct (rejected_fields s Rej) as (W & _). rewrite W in L. discriminate.
  - destruct w as [instance|instance [|[msg|] effects]].
    + right. eauto.
    + left. eauto.
    + right.
      destruct (core_send _ _ _ _ _ _ _ _ _ _ C L) as (_ & Pos & Room & _).
      rewrite (closerOk_open s K Pos).
      apply Nat.ltb_lt in Room. rewrite Room. eauto.
    + right.
      destruct (core_done _ _ _ _ _ _ _ _ _ C L) as (_ & Pos & _).
      destruct (Z.ltb_spec (wg s - 1) 0); [lia | eauto].
Qed.

(** No deadlock.  Before the exit [main] can take a step, unless it waits
    in [processResults] on the channel, empty and not yet closed; and then
    a comparator goroutine or the closing goroutine can take one. *)
Theorem deadlock_free (s : state) :
  reachable s -> terminal s = false ->
  (exists s', step Main s = Some s')
  \/ pc s = Collect /\ buffer s = [] /\ closed s = false
     /\ ((exists i s', step (Worker i) s = Some s')
         \/ exists s', step Closer s = Some s').
Proof.
  intros R T.
  destruct (progress _ _ _ _ s R T) as (t & s' & Hs).
  destruct (stepMain s) as [s1|] eqn:M.
  { left. exists s1. unfold step. now rewrite T. }
  right.
  assert (B : pc s = Collect /\ buffer s = [] /\ closed s = false).
  { unfold stepMain in M. unfold terminal in T.
    destruct (pc s) as [|[|instance rest]| | |]; try discriminate.
    - destruct (_ || _); [discriminate |]. destruct (Nat.eqb _ 0); discriminate.
    - destruct (buffer s); [| discriminate].
      destruct (closed s); [discriminate | now repeat split]. }
  destruct B as (P & B & Cl). repeat split; try assumption.
  destruct t as [|i|].
  - unfold step in Hs. rewrite T in Hs. fold stepMain in Hs. congruence.
  - left. eauto.
  - right. eauto.
Qed.

(** The requests.  At every moment the URLs requested so far are URLs of
    instances of the flag, each requested no more often than the instance
    stands in the flag; the goroutines have made no more requests than
    [main] has started goroutines; and when [main] exits after a valid
    invocation, one request has been made for each instance. *)
Theorem one_request_per_instance (s : state) :
  reachable s ->
  (exists pending,
      Permutation (requests s ++ pending) (List.map statusURL instances))
  /\ length (requests s) <= length (workers s)
  /\ (terminal s = true -> validFlags ->
      Permutation (requests s) (List.map statusURL instances)).
Proof.
  intros R. split; [| split].
  - destruct (reachable_shape s R) as [->|[Rej|(V & C & K)]].
    + now exists (List.map statusURL instances).
    + destruct (rejected_fields s Rej) as (_ & _ & _ & _ & _ & Rq & _).
      rewrite Rq. now exists (List.map statusURL instances).
    + destruct C as [Hi _ _ _ _ Hr _ _ _].
      exists (flat_map pendingRequests (workers s)
              ++ List.map statusURL (remaining s)).
      rewrite <- Hi, List.map_app, app_assoc.
      now apply Permutation_app_tail.
  - destruct (reachable_shape s R) as [->|[Rej|(V & C & K)]].
    + simpl. lia.
    + destruct (rejected_fields s Rej) as (_ & _ & _ & _ & _ & Rq & _).
      rewrite Rq. simpl. lia.
    + destruct C as [_ _ _ _ _ Hr _ _ _].
      apply Permutation_length in Hr.
      rewrite length_app, !List.length_map in Hr. lia.
  - intros T V.
    destruct (terminal_outcome _ _ _ _ s R T) as (_ & [Rej|H]).
    + destruct V as (Hi & Hv & Hn).
      destruct Rej as [([E|E] & _)|(_ & _ & E & _)]; contradiction.
    + tauto.
Qed.

(** The counter of the WaitGroup is the number of goroutines started that
    have not yet called [wg.Done]: it lies between zero and the number of
    instances; and the channel is closed only once it is zero and every
    goroutine has returned. *)
Theorem waitgroup_counter (s : state) :
  reachable s ->
  wg s = Z.of_nat (list_sum (List.map pendingDones (workers s)))
  /\ (0 <= wg s <= Z.of_nat (length instances))%Z
  /\ (closed s = true ->
      wg s = 0%Z
      /\ workers s = List.map (fun instance => Running instance []) instances).
Proof.
  intros R.
  destruct (reachable_shape s R) as [->|[Rej|(V & C & K)]].
  - repeat split; simpl; try lia; discriminate.
  - destruct (rejected_fields s Rej) as (W & _ & G & _ & Cl & _).
    rewrite W, G, Cl. repeat split; simpl; try lia; discriminate.
  - pose proof C as [Hi Hw Hg _ _ _ _ _ _].
    split; [assumption |]. split.
    + pose proof (pendingDones_le _ _ _ _ Hw) as B.
      assert (L : length (workers s) <= length instances).
      { rewrite <- Hi, length_app, List.length_map. lia. }
      lia.
    + intros Cl.
      destruct K as [(_ & N)|K]; [congruence |].
      assert (Z : wg s = 0%Z).
      { unfold closerOk in K.
        destruct (closer s) as [[| |]|]; try contradiction; try congruence;
          destruct K; congruence. }
      split; [assumption |].
      assert (E : remaining s = []).
      { pose proof (reachable_inv _ _ _ _ s R) as I. unfold Inv in I.
        unfold remaining. destruct (pc s); try reflexivity.
        destruct I as (_ & _ & _ & N). congruence. }
      rewrite E in C.
      destruct (core_counter_zero _ _ _ _ s C Z) as (D & _).
      rewrite E, app_nil_r in Hi. rewrite <- Hi.
      now apply finished_workers.
Qed.

(** [main] exits, after a valid invocation, only when every comparator
    goroutine has returned and the closing goroutine has closed the
    channel: the goroutines are those of the instances, in the order of the
    flag, none is cut short by the exit, and no message is left in the
    channel. *)
Theorem exit_after_goroutines (s : state) :
  reachable s -> terminal s = true -> validFlags ->
  workers s = List.map (fun instance => Running instance []) instances
  /\ closer s = Some Finished
  /\ wg s = 0%Z
  /\ closed s = true
  /\ buffer s = [].
Proof.
  intros R T V.
  destruct (terminal_outcome _ _ _ _ s R T) as (_ & [Rej|H]).
  { destruct V as (Hi & Hv & Hn).
    destruct Rej as [([E|E] & _)|(_ & _ & E & _)]; contradiction. }
  destruct H as (_ & Cl & B & _).
  destruct (reachable_shape s R) as [->|[Rej|(_ & C & K)]]; [discriminate | |].
  { destruct (rejected_fields s Rej) as (_ & _ & _ & _ & N & _). congruence. }
  destruct K as [(_ & N)|K]; [congruence |].
  unfold closerOk in K.
  destruct (closer s) as [[| |]|] eqn:Hc; try contradiction; try congruence;
    try (destruct K; congruence).
  destruct K as (_ & Z).
  assert (E : remaining s = []).
  { unfold remaining. unfold terminal in T. now destruct (pc s). }
  rewrite E in C.
  destruct (core_counter_zero _ _ _ _ s C Z) as (D & _).
  destruct C as [Hi _ _ _ _ _ _ _ _]. rewrite app_nil_r in Hi.
  repeat split; try assumption.
  rewrite <- Hi. now apply finished_workers.
Qed.

(** What [main] logs at the error level from line 63 on: nothing after a
    valid invocation, and otherwise, at the exit, the one line of the check
    that failed. *)
Lemma errorLog_from_flags (s : state) :
  reachable s ->
  (validFlags -> errorLog s = [])
  /\ (terminal s = true ->
      errorLog s
      = if String.eqb instanceFlag "" || String.eqb versionFlag ""
        then ["Instance and version flags are required"]
        else if Nat.eqb (length instances) 0
             then ["No valid instances provided"]
             else []).
Proof.
  intros R.
  assert (A : validFlags -> errorLog s = []).
  { intros V.
    destruct (reachable_shape s R) as [->|[Rej|(_ & C & _)]]; [reflexivity | |].
    - destruct V as (Hi & Hv & Hn).
      destruct Rej as [([E|E] & _)|(_ & _ & E & _)]; contradiction.
    - now destruct C. }
  split; [exact A |].
  intros T.
  destruct (terminal_outcome _ _ _ _ s R T) as (_ & [Rej|H]).
  - destruct Rej as [([E|E] & ->)|(Hi & Hv & E & ->)]; simpl.
    + now rewrite E.
    + rewrite E. now rewrite orb_true_r.
    + apply String.eqb_neq in Hi, Hv. now rewrite Hi, Hv, E.
  - destruct H as (V & _). rewrite (A V).
    destruct V as (Hi & Hv & Hn).
    apply String.eqb_neq in Hi, Hv. rewrite Hi, Hv. simpl.
    destruct instances; [congruence | reflexivity].
Qed.

(** An exit with the code 0 does not tell that an instance was checked:
    when every fetch fails, and neither a name nor the text of an error
    holds "mismatch", a valid invocation exits with the code 0, on every
    execution. *)
Theorem every_fetch_fails_exit_0 :
  validFlags ->
  (forall instance,
      In instance instances ->
      Strings.Contains instance "mismatch" = false
      /\ exists e,
          snd (fetchStatus httpGet instance) = Some e
          /\ Strings.Contains (errorText jsonErrorText e) "mismatch" = false) ->
  exitCode = 0%Z
  /\ forall s, reachable s -> terminal s = true ->
               pc s = Exited 0
               /\ Forall (fun m => Strings.HasPrefix m "Error fetching status" = true)
                    (debugLog s).
Proof.
  intros V Q.
  assert (E : exitCode = 0%Z).
  { rewrite (valid_exitCode _ _ _ _ V).
    assert (H : processResults allMessages = true); [| now rewrite H].
    apply processResults_healthy. intros m Hm.
    unfold messages in Hm. apply in_map_iff in Hm as (instance & <- & Hin).
    destruct (Q instance Hin) as (Hi & e & He & Hc).
    rewrite Contains_resultMessage.
    destruct (fetchStatus httpGet instance) as [rn o]. simpl in He. subst o.
    fold marker in Hi, Hc. now rewrite Hi, Hc. }
  split; [exact E |].
  intros s R T.
  destruct (terminal_outcome _ _ _ _ s R T) as (P & [Rej|H]).
  { destruct V as (Hi & Hv & Hn).
    destruct Rej as [([X|X] & _)|(_ & _ & X & _)]; contradiction. }
  split; [now rewrite <- E |].
  destruct H as (_ & _ & _ & _ & Perm & _).
  apply List.Forall_forall. intros m Hm.
  apply (Permutation_in _ Perm) in Hm.
  unfold messages in Hm. apply in_map_iff in Hm as (instance & <- & Hin).
  destruct (Q instance Hin) as (_ & e & He & _).
  unfold resultMessage.
  destruct (fetchStatus httpGet instance) as [rn o]. simpl in He. subst o.
  reflexivity.
Qed.

(** The outcome does not depend on the scheduler: two executions of the
    same invocation end with the same exit code and the same lines at the
    error level, with the same requests made and the same messages logged.
    Only the order of the requests and of the messages is the
    scheduler's. *)
Theorem outcome_schedule_independent (s1 s2 : state) :
  reachable s1 -> reachable s2 -> terminal s1 = true -> terminal s2 = true ->
  pc s1 = pc s2
  /\ exitHealthy s1 = exitHealthy s2
  /\ errorLog s1 = errorLog s2
  /\ Permutation (debugLog s1) (debugLog s2)
  /\ Permutation (requests s1) (requests s2).
Proof.
  intros R1 R2 T1 T2.
  destruct (terminal_outcome _ _ _ _ s1 R1 T1) as (P1 & O1).
  destruct (terminal_outcome _ _ _ _ s2 R2 T2) as (P2 & O2).
  split; [congruence |].
  destruct O1 as [Rej1|(V1 & _ & _ & _ & D1 & Q1 & E1)];
    destruct O2 as [Rej2|(V2 & _ & _ & _ & D2 & Q2 & E2)].
  - assert (E : s1 = s2).
    { destruct Rej1 as [(F1 & ->)|(Hi & Hv & _ & ->)];
        destruct Rej2 as [(F2 & ->)|(Hi' & Hv' & _ & ->)];
        try reflexivity; destruct F1 || destruct F2; contradiction. }
    now subst s2.
  - destruct V2 as (Hi & Hv & Hn).
    destruct Rej1 as [([X|X] & _)|(_ & _ & X & _)]; contradiction.
  - destruct V1 as (Hi & Hv & Hn).
    destruct Rej2 as [([X|X] & _)|(_ & _ & X & _)]; contradiction.
  - pose proof (channel_verdict s1 R1) as H1. pose proof (channel_verdict s2 R2) as H2.
    split; [| split; [congruence | split]].
    + rewrite H1, H2. apply processResults_Permutation.
      now rewrite D1, D2.
    + now rewrite D1, D2.
    + now rewrite Q1, Q2.
Qed.

End ProcessSafety.

Lemma never_panics_witness :
  let s := run Sample.errorText Sample.oneDown "NA1, NA2,NA3" "v1" roundRobin initial in
  pc s <> Panicked /\ (closer s = Some Closing -> closed s = false).
Proof.
  intros s.
  destruct (never_panics Sample.errorText Sample.oneDown "NA1, NA2,NA3" "v1" s)
    as (H1 & _ & _ & H2).
  - apply reachable_run, reachable_initial.
  - split; [exact H1 | exact H2].
Defined.

Lemma comparator_never_blocks_witness :
  let s := run Sample.errorText Sample.oneDown "NA1, NA2,NA3" "v1"
             [Main; Main; Main; Main; Worker 1] initial in
  let w := Running "NA2"
             [Send "Error fetching status for instance NA2: API returned non-OK status: 503 Service Unavailable";
              Done] in
  (exists instance, w = Running instance [])
  \/ exists s', step Sample.errorText Sample.oneDown "NA1, NA2,NA3" "v1" (Worker 1) s
                = Some s'
                /\ pc s' = pc s.
Proof.
  intros s w.
  apply (comparator_never_blocks Sample.errorText Sample.oneDown "NA1, NA2,NA3" "v1").
  - apply reachable_run, reachable_initial.
  - vm_compute. reflexivity.
  - vm_compute. reflexivity.
Defined.

Lemma deadlock_free_witness :
  let s := run Sample.errorText Sample.oneDown "NA1, NA2,NA3" "v1"
             [Main; Main; Main; Main; Main] initial in
  (exists s', step Sample.errorText Sample.oneDown "NA1, NA2,NA3" "v1" Main s = Some s')
  \/ pc s = Collect /\ buffer s = [] /\ closed s = false
     /\ ((exists i s',
             step Sample.errorText Sample.oneDown "NA1, NA2,NA3" "v1" (Worker i) s
             = Some s')
         \/ exists s',
             step Sample.errorText Sample.oneDown "NA1, NA2,NA3" "v1" Closer s = Some s').
Proof.
  intros s.
  apply (deadlock_free Sample.errorText Sample.oneDown "NA1, NA2,NA3" "v1").
  - apply reachable_run, reachable_initial.
  - vm_compute. reflexivity.
Defined.

Lemma one_request_per_instance_witness :
  let s := run Sample.errorText Sample.oneDown "NA1, NA2,NA3" "v1" roundRobin initial in
  Permutation (requests s)
    ["https://status.salesforce.com/api/instances/NA1/status/preview?locale=en";
     "https://status.salesforce.com/api/instances/NA2/status/preview?locale=en";
     "https://status.salesforce.com/api/instances/NA3/status/preview?locale=en"].
Proof.
  intros s.
  apply (proj2 (proj2 (one_request_per_instance Sample.errorText Sample.oneDown
                         "NA1, NA2,NA3" "v1" s
                         (reachable_run _ _ _ _ roundRobin initial
                            (reachable_initial _ _ _ _))))).
  - vm_compute. reflexivity.
  - repeat split; discriminate.
Defined.

Lemma waitgroup_counter_witness :
  let s := run Sample.errorText Sample.oneDown "NA1, NA2,NA3" "v1"
             [Main; Main; Main; Main; Worker 2; Worker 2; Worker 2] initial in
  wg s = 2%Z /\ (0 <= wg s <= 3)%Z.
Proof.
  intros s.
  destruct (waitgroup_counter Sample.errorText Sample.oneDown "NA1, NA2,NA3" "v1" s)
    as (H1 & H2 & _).
  - apply reachable_run, reachable_initial.
  - split; [exact H1 | exact H2].
Defined.

Lemma exit_after_goroutines_witness :
  let s := run Sample.errorText Sample.oneDown "NA1, NA2,NA3" "v1" roundRobin initial in
  workers s = [Running "NA1" []; Running "NA2" []; Running "NA3" []]
  /\ closer s = Some Finished
  /\ wg s = 0%Z
  /\ closed s = true
  /\ buffer s = [].
Proof.
  intros s.
  apply (exit_after_goroutines Sample.errorText Sample.oneDown "NA1, NA2,NA3" "v1").
  - apply reachable_run, reachable_initial.
  - vm_compute. reflexivity.
  - repeat split; discriminate.
Defined.

Lemma every_fetch_fails_exit_0_witness :
  exitCode Sample.errorText (fun _ => Http.Err "no route to host") "NA1,NA2" "v1" = 0%Z.
Proof.
  apply (every_fetch_fails_exit_0 Sample.errorText (fun _ => Http.Err "no route to host")
           "NA1,NA2" "v1").
  - repeat split; discriminate.
  - intros instance [<-|[<-|[]]]; (split; [reflexivity |]);
      exists (FetchFailed "no route to host"); split; reflexivity.
Defined.

Lemma outcome_schedule_independent_witness :
  let s1 := run Sample.errorText Sample.oneDown "NA1, NA2,NA3" "v1" roundRobin initial in
  let s2 := run Sample.errorText Sample.oneDown "NA1, NA2,NA3" "v1"
              ([Main; Main; Main; Main; Main] ++ List.rev roundRobin) initial in
  (pc s1 = pc s2 /\ Permutation (debugLog s1) (debugLog s2))
  /\ debugLog s1 <> debugLog s2.
Proof.
  intros s1 s2. split.
  - destruct (outcome_schedule_independent Sample.errorText Sample.oneDown
                "NA1, NA2,NA3" "v1" s1 s2) as (H1 & _ & _ & H2 & _).
    + apply reachable_run, reachable_initial.
    + apply reachable_run, reachable_initial.
    + vm_compute. reflexivity.
    + vm_compute. reflexivity.
    + split; [exact H1 | exact H2].
  - vm_compute. discriminate.
Defined.

(** What the process logs at the error level.  Inside [flag.Parse] nothing
    is logged there: when [flag.Parse] exits, on a command line it refuses
    or on [-h], the log is empty.  When it returns the flags, nothing is
    logged after a valid invocation, and otherwise, at the exit, the one
    line of the check that failed. *)
Theorem errorLog_outcome
    (jsonErrorText : Json.error -> string) (httpGet : string -> Http.result)
    (args : list string) (p : process) :
  reachableProcess jsonErrorText httpGet args p ->
  (forall code, Flag.Parse args = Flag.Exit code -> errorLog (stateOf p) = [])
  /\ (forall instanceFlag versionFlag,
         Flag.Parse args
         = Flag.Parsed {| Flag.instance := instanceFlag; Flag.version := versionFlag |} ->
         validFlags instanceFlag versionFlag -> errorLog (stateOf p) = [])
  /\ (terminalProcess p = true ->
      errorLog (stateOf p)
      = match Flag.Parse args with
        | Flag.Exit _ => []
        | Flag.Parsed vs =>
            if String.eqb (Flag.instance vs) "" || String.eqb (Flag.version vs) ""
            then ["Instance and version flags are required"]
            else if Nat.eqb (length (parseInstances (Flag.instance vs))) 0
                 then ["No valid instances provided"]
                 else []
        end).
Proof.
  intros R.
  destruct (reachableProcess_shape _ _ _ p R)
    as [->|[(code & E & ->)|(vs & s & E & -> & Rs)]].
  - split; [reflexivity |]. split; [reflexivity | discriminate].
  - split; [reflexivity |]. split; [reflexivity |]. intros _. now rewrite E.
  - destruct (errorLog_from_flags _ _ _ _ s Rs) as (H1 & H2).
    rewrite E. cbn [stateOf]. split; [| split].
    + intros code [=].
    + intros instanceFlag versionFlag [= ->]. exact H1.
    + exact H2.
Qed.

Lemma errorLog_outcome_witness :
  let run := runProcess Sample.errorText Sample.oneDown in
  errorLog (stateOf (run ["-instance"; "NA1"; "-bogus"] [Main; Main] Starting)) = []
  /\ errorLog (stateOf (run ["-instance"; "NA1"] [Main; Main] Starting))
     = ["Instance and version flags are required"]
  /\ errorLog (stateOf (run ["-instance"; " , "; "-version=v1"] [Main; Main] Starting))
     = ["No valid instances provided"].
Proof.
  intros run.
  assert (R : forall args schedule,
             reachableProcess Sample.errorText Sample.oneDown args
               (run args schedule Starting)).
  { intros args schedule. apply reachableProcess_run, reachable_start. }
  split; [| split].
  - exact (proj1 (errorLog_outcome _ _ _ _ (R ["-instance"; "NA1"; "-bogus"] [Main; Main]))
             2%Z eq_refl).
  - exact (proj2 (proj2 (errorLog_outcome _ _ _ _ (R ["-instance"; "NA1"] [Main; Main])))
             eq_refl).
  - exact (proj2 (proj2 (errorLog_outcome _ _ _ _
                           (R ["-instance"; " , "; "-version=v1"] [Main; Main])))
             eq_refl).
Defined.

(** ** The decoder once more: what is around the first value *)

Module DecodeFacts.

Import Strings Json.

(** *** More fuel changes nothing *)

Lemma parse_fuel (f : nat) :
  (forall d s f', f <= f' -> parseValue f d s <> OutOfFuel ->
                  parseValue f' d s = parseValue f d s)
  /\ (forall d acc s f', f <= f' -> parseMembers f d acc s <> OutOfFuel ->
                         parseMembers f' d acc s = parseMembers f d acc s)
  /\ (forall d acc s f', f <= f' -> parseElements f d acc s <> OutOfFuel ->
                         parseElements f' d acc s = parseElements f d acc s).
Proof.
  induction f as [|f (IHv & IHm & IHe)].
  { repeat split; intros; simpl in *; congruence. }
  split; [| split].
  - intros d s [|f'] Hf; [lia |]. assert (Hf' : f <= f') by lia.
    cbn [parseValue].
    destruct (skipSpace s) as [|c r]; [reflexivity |].
    destruct (isChar c "{").
    { destruct (_ <? _)%N; [reflexivity |].
      destruct (skipSpace r) as [|c' r']; [reflexivity |].
      destruct (isChar c' "}"); [reflexivity |].
      intros H. now apply IHm. }
    destruct (isChar c "[").
    { destruct (_ <? _)%N; [reflexivity |].
      destruct (skipSpace r) as [|c' r']; [reflexivity |].
      destruct (isChar c' "]"); [reflexivity |].
      intros H. now apply IHe. }
    reflexivity.
  - intros d acc s [|f'] Hf; [lia |]. assert (Hf' : f <= f') by lia.
    cbn [parseMembers].
    destruct (skipSpace s) as [|c r]; [reflexivity |].
    destruct (isChar c quote); [| reflexivity].
    destruct (scanQuoted r) as [key r1| |]; try reflexivity.
    destruct (skipSpace r1) as [|c1 r2]; [reflexivity |].
    destruct (isChar c1 ":"); [| reflexivity].
    destruct (parseValue f d r2) as [v r3| |] eqn:E.
    + rewrite (IHv d r2 f' Hf') by (rewrite E; discriminate). rewrite E.
      destruct (skipSpace r3) as [|c2 r4]; [reflexivity |].
      destruct (isChar c2 ","); [| reflexivity].
      intros H. now apply IHm.
    + rewrite (IHv d r2 f' Hf') by (rewrite E; discriminate). now rewrite E.
    + intros H. now elim H.
  - intros d acc s [|f'] Hf; [lia |]. assert (Hf' : f <= f') by lia.
    cbn [parseElements].
    destruct (parseValue f d s) as [v r1| |] eqn:E.
    + rewrite (IHv d s f' Hf') by (rewrite E; discriminate). rewrite E.
      destruct (skipSpace r1) as [|c r2]; [reflexivity |].
      destruct (isChar c ","); [| reflexivity].
      intros H. now apply IHe.
    + rewrite (IHv d s f' Hf') by (rewrite E; discriminate). now rewrite E.
    + intros H. now elim H.
Qed.

(** *** What follows a value is not looked at *)

Lemma skipSpace_append (s : string) (c : ascii) (r t : string) :
  skipSpace s = String c r -> skipSpace (s +:+ t) = String c (r +:+ t).
Proof.
  induction s as [|a s IH]; simpl; [discriminate |].
  destruct (isSpace a); [assumption |]. now intros [= -> ->].
Qed.

Lemma skipSpace_prefix (ws s : string) :
  skipSpace ws = "" -> skipSpace (ws +:+ s) = skipSpace s.
Proof.
  induction ws as [|a ws IH]; simpl; [reflexivity |].
  destruct (isSpace a); [assumption | discriminate].
Qed.

Lemma scanString_append (s : string) :
  forall st raw rest t,
    scanString st s = Ok raw rest -> scanString st (s +:+ t) = Ok raw (rest +:+ t).
Proof.
  induction s as [|c s IH]; intros st raw rest t; [destruct st; discriminate |].
  assert (R : forall st',
             consRaw c (scanString st' s) = Ok raw rest ->
             consRaw c (scanString st' (s +:+ t)) = Ok raw (rest +:+ t)).
  { intros st'. destruct (scanString st' s) as [raw' rest'| |] eqn:E; try discriminate.
    intros [= <- <-]. now rewrite (IH st' raw' rest' t E). }
  cbn [String.append scanString]. destruct st as [| |k].
  - destruct (isChar c quote); [now intros [= <- <-] |].
    destruct (isChar c "\"); [apply R |].
    destruct (code c <? 32)%N; [discriminate | apply R].
  - destruct (isSimpleEscape c); [apply R |].
    destruct (isChar c "u"); [apply R | discriminate].
  - destruct (isHex c); [apply R | discriminate].
Qed.

Lemma scanQuoted_append (s key rest t : string) :
  scanQuoted s = Ok key rest -> scanQuoted (s +:+ t) = Ok key (rest +:+ t).
Proof.
  unfold scanQuoted.
  destruct (scanString SIn s) as [raw rest'| |] eqn:E; try discriminate.
  rewrite (scanString_append s SIn raw rest' t E).
  destruct (unquote raw); [| discriminate]. now intros [= <- <-].
Qed.

Lemma scanLit_append (lit s rest t : string) :
  scanLit lit s = Ok tt rest -> scanLit lit (s +:+ t) = Ok tt (rest +:+ t).
Proof.
  revert s. induction lit as [|l lit IH]; intros s; simpl; [now intros [= <-] |].
  destruct s as [|c s]; [discriminate |]. simpl.
  destruct (Ascii.eqb c l); [apply IH | discriminate].
Qed.

Lemma litValue_append (lit : string) (v w : value) (s rest t : string) :
  litValue lit v s = Ok w rest -> litValue lit v (s +:+ t) = Ok w (rest +:+ t).
Proof.
  unfold litValue.
  destruct (scanLit lit s) as [[] rest'| |] eqn:E; try discriminate.
  rewrite (scanLit_append lit s rest' t E). now intros [= <- <-].
Qed.

(** A number goes on as long as digits come: it is known to have ended
    only when a byte follows it. *)
Lemma spanDigits_append (s d rest t : string) :
  spanDigits s = (d, rest) -> rest <> "" -> spanDigits (s +:+ t) = (d, rest +:+ t).
Proof.
  revert d. induction s as [|c s IH]; intros d; simpl.
  - intros [= <- <-] H. now elim H.
  - destruct (isDigit c).
    + destruct (spanDigits s) as [d' rest'] eqn:E.
      intros [= <- <-] H. now rewrite (IH d' eq_refl H).
    + now intros [= <- <-] _.
Qed.

Lemma scanDigits_append (s d rest t : string) :
  scanDigits s = Ok d rest -> rest <> "" -> scanDigits (s +:+ t) = Ok d (rest +:+ t).
Proof.
  destruct s as [|c s]; simpl; [discriminate |].
  destruct (isDigit c); [| discriminate].
  destruct (spanDigits s) as [d' rest'] eqn:E.
  intros [= <- <-] H. now rewrite (spanDigits_append s d' rest' t E H).
Qed.

Lemma consRaw_Ok (c : ascii) (r : scan string) (raw rest : string) :
  consRaw c r = Ok raw rest -> exists raw', r = Ok raw' rest /\ raw = String c raw'.
Proof. destruct r; simpl; try discriminate. intros [= <- <-]. eauto. Qed.

Lemma appRaw_Ok (p : string) (r : scan string) (raw rest : string) :
  appRaw p r = Ok raw rest -> exists raw', r = Ok raw' rest /\ raw = p +:+ raw'.
Proof. destruct r; simpl; try discriminate. intros [= <- <-]. eauto. Qed.

Lemma scanExp_append (s e rest t : string) :
  scanExp s = Ok e rest -> rest <> "" -> scanExp (s +:+ t) = Ok e (rest +:+ t).
Proof.
  destruct s as [|c s]; simpl.
  - intros [= <- <-] H. now elim H.
  - destruct (_ || _); [| now intros [= <- <-] _].
    destruct s as [|sg s]; [discriminate |]. cbn [String.append].
    destruct (_ || _).
    + intros (r1 & (r2 & E & ->)%consRaw_Ok & ->)%consRaw_Ok H.
      now rewrite (scanDigits_append s r2 rest t E H).
    + intros (r1 & E & ->)%consRaw_Ok H.
      change (String sg (s +:+ t)) with (String sg s +:+ t).
      now rewrite (scanDigits_append (String sg s) r1 rest t E H).
Qed.

Lemma scanFrac_append (s e rest t : string) :
  scanFrac s = Ok e rest -> rest <> "" -> scanFrac (s +:+ t) = Ok e (rest +:+ t).
Proof.
  destruct s as [|c s].
  - simpl. intros [= <- <-] H. now elim H.
  - unfold scanFrac. cbn [String.append].
    destruct (isChar c ".").
    + destruct (scanDigits s) as [d r1| |] eqn:E; try discriminate.
      intros (r2 & (r3 & X & ->)%appRaw_Ok & ->)%consRaw_Ok H.
      assert (N : r1 <> "").
      { intros ->. simpl in X. injection X as <- <-. now elim H. }
      rewrite (scanDigits_append s d r1 t E N).
      now rewrite (scanExp_append r1 r3 rest t X H).
    + intros X H. change (String c (s +:+ t)) with (String c s +:+ t).
      now apply scanExp_append.
Qed.

Lemma scanFrac_rest (s e rest : string) :
  scanFrac s = Ok e rest -> rest <> "" -> s <> "".
Proof. intros X H ->. simpl in X. injection X as <- <-. now elim H. Qed.

Lemma scanInt_append (s lit rest t : string) :
  scanInt s = Ok lit rest -> rest <> "" -> scanInt (s +:+ t) = Ok lit (rest +:+ t).
Proof.
  destruct s as [|c s]; [discriminate |].
  unfold scanInt. cbn [String.append].
  destruct (isChar c "0").
  - intros (r1 & X & ->)%consRaw_Ok H.
    now rewrite (scanFrac_append s r1 rest t X H).
  - destruct (between 49 57 c); [| discriminate].
    destruct (spanDigits s) as [d r1] eqn:E.
    intros (r2 & X & ->)%appRaw_Ok H.
    rewrite (spanDigits_append s d r1 t E (scanFrac_rest r1 r2 rest X H)).
    now rewrite (scanFrac_append r1 r2 rest t X H).
Qed.

Lemma scanNumber_append (s lit rest t : string) :
  scanNumber s = Ok lit rest -> rest <> "" ->
  scanNumber (s +:+ t) = Ok lit (rest +:+ t).
Proof.
  destruct s as [|c s]; [discriminate |].
  unfold scanNumber. cbn [String.append].
  destruct (isChar c "-").
  - intros (r1 & X & ->)%consRaw_Ok H.
    now rewrite (scanInt_append s r1 rest t X H).
  - intros X H. change (String c (s +:+ t)) with (String c s +:+ t).
    now apply scanInt_append.
Qed.

Lemma skipSpace_not_nil (s : string) (c : ascii) (r : string) :
  skipSpace s = String c r -> s <> "".
Proof. now intros E ->. Qed.

Lemma parse_append (f : nat) (t : string) :
  (forall d s v rest,
      parseValue f d s = Ok v rest ->
      rest <> "" \/ (forall lit, v <> Number lit) ->
      parseValue f d (s +:+ t) = Ok v (rest +:+ t))
  /\ (forall d acc s v rest,
         parseMembers f d acc s = Ok v rest ->
         parseMembers f d acc (s +:+ t) = Ok v (rest +:+ t))
  /\ (forall d acc s v rest,
         parseElements f d acc s = Ok v rest ->
         parseElements f d acc (s +:+ t) = Ok v (rest +:+ t)).
Proof.
  induction f as [|f (IHv & IHm & IHe)]; [repeat split; intros; discriminate |].
  split; [| split].
  - intros d s v rest. cbn [parseValue].
    destruct (skipSpace s) as [|c r] eqn:E; [discriminate |].
    rewrite (skipSpace_append s c r t E).
    destruct (isChar c "{").
    { destruct (_ <? _)%N; [discriminate |].
      destruct (skipSpace r) as [|c' r'] eqn:E'; [discriminate |].
      rewrite (skipSpace_append r c' r' t E').
      destruct (isChar c' "}"); [now intros [= <- <-] |].
      intros H _. change (String c' (r' +:+ t)) with (String c' r' +:+ t).
      now apply IHm. }
    destruct (isChar c "[").
    { destruct (_ <? _)%N; [discriminate |].
      destruct (skipSpace r) as [|c' r'] eqn:E'; [discriminate |].
      rewrite (skipSpace_append r c' r' t E').
      destruct (isChar c' "]"); [now intros [= <- <-] |].
      intros H _. change (String c' (r' +:+ t)) with (String c' r' +:+ t).
      now apply IHe. }
    destruct (isChar c quote).
    { destruct (scanQuoted r) as [key r1| |] eqn:Q; try discriminate.
      rewrite (scanQuoted_append r key r1 t Q). now intros [= <- <-]. }
    destruct (_ || _).
    { destruct (scanNumber (String c r)) as [lit r1| |] eqn:Q; try discriminate.
      intros [= <- <-] [H|H]; [| now elim (H lit)].
      change (String c (r +:+ t)) with (String c r +:+ t).
      now rewrite (scanNumber_append (String c r) lit r1 t Q H). }
    destruct (isChar c "t"); [intros H _; now apply litValue_append |].
    destruct (isChar c "f"); [intros H _; now apply litValue_append |].
    destruct (isChar c "n"); [intros H _; now apply litValue_append | discriminate].
  - intros d acc s v rest. cbn [parseMembers].
    destruct (skipSpace s) as [|c r] eqn:E; [discriminate |].
    rewrite (skipSpace_append s c r t E).
    destruct (isChar c quote); [| discriminate].
    destruct (scanQuoted r) as [key r1| |] eqn:Q; try discriminate.
    rewrite (scanQuoted_append r key r1 t Q).
    destruct (skipSpace r1) as [|c1 r2] eqn:E1; [discriminate |].
    rewrite (skipSpace_append r1 c1 r2 t E1).
    destruct (isChar c1 ":"); [| discriminate].
    destruct (parseValue f d r2) as [w r3| |] eqn:V; try discriminate.
    destruct (skipSpace r3) as [|c2 r4] eqn:E3; [discriminate |].
    rewrite (IHv d r2 w r3 V (or_introl (skipSpace_not_nil r3 c2 r4 E3))).
    rewrite (skipSpace_append r3 c2 r4 t E3).
    destruct (isChar c2 ","); [apply IHm |].
    destruct (isChar c2 "}"); [now intros [= <- <-] | discriminate].
  - intros d acc s v rest. cbn [parseElements].
    destruct (parseValue f d s) as [w r1| |] eqn:V; try discriminate.
    destruct (skipSpace r1) as [|c r2] eqn:E1; [discriminate |].
    rewrite (IHv d s w r1 V (or_introl (skipSpace_not_nil r1 c r2 E1))).
    rewrite (skipSpace_append r1 c r2 t E1).
    destruct (isChar c ","); [apply IHe |].
    destruct (isChar c "]"); [now intros [= <- <-] | discriminate].
Qed.

(** [readValue] in terms of the parser with any fuel that is enough. *)
Lemma readValue_parse (body : string) (f : nat) :
  S (2 * String.length body) <= f ->
  readValue body
  = match skipSpace body with
    | EmptyString => inr EOF
    | _ =>
        match parseValue f 0 body with
        | Ok v _ => inl v
        | Fail e => inr e
        | OutOfFuel => inr SyntaxError
        end
    end.
Proof.
  intros H. unfold readValue.
  destruct (parse_fuel (S (2 * String.length body))) as (Fv & _).
  now rewrite (Fv 0%N body f H (JsonFacts.readValue_fuel body)).
Qed.

Lemma parseValue_space (f : nat) (d : N) (ws s : string) :
  skipSpace ws = "" -> parseValue f d (ws +:+ s) = parseValue f d s.
Proof.
  intros H. destruct f as [|f]; [reflexivity |].
  cbn [parseValue]. now rewrite (skipSpace_prefix ws s H).
Qed.

Lemma readValue_append (body extra : string) (v : value) :
  readValue body = inl v -> (forall lit, v <> Number lit) ->
  readValue (body +:+ extra) = inl v.
Proof.
  intros R N.
  rewrite (readValue_parse body (S (2 * String.length (body +:+ extra)))) in R
    by (rewrite StringFacts.length_append; lia).
  unfold readValue.
  destruct (skipSpace body) as [|c r] eqn:E; [discriminate |].
  rewrite (skipSpace_append body c r extra E).
  destruct (parseValue _ 0 body) as [w rest| |] eqn:P; try discriminate.
  injection R as ->.
  destruct (parse_append (S (2 * String.length (body +:+ extra))) extra) as (A & _).
  now rewrite (A 0%N body v rest P (or_intror N)).
Qed.

Lemma readValue_space (ws body : string) :
  skipSpace ws = "" -> readValue (ws +:+ body) = readValue body.
Proof.
  intros H.
  rewrite (readValue_parse body (S (2 * String.length (ws +:+ body))))
    by (rewrite StringFacts.length_append; lia).
  unfold readValue.
  now rewrite (skipSpace_prefix ws body H), (parseValue_space _ _ ws body H).
Qed.

(** The scanner lets through the raw texts of [Scanned], up to the quote
    that closes them. *)
Lemma Scanned_scanString (raw rest : string) :
  Scanned raw -> scanString SIn (raw +:+ String dquote rest) = Ok raw rest.
Proof.
  induction 1 as [|c r Eq Eb Ec Hr IH|b e r Hb He Hr IH
                  |b u h1 h2 h3 h4 r Hb Hu H1 H2 H3 H4 Hr IH].
  - reflexivity.
  - cbn [String.append scanString]. now rewrite Eq, Eb, Ec, IH.
  - cbn [String.append scanString].
    assert (Q : isChar b quote = false).
    { destruct b as [[] [] [] [] [] [] [] []]; try discriminate; reflexivity. }
    now rewrite Q, Hb, He, IH.
  - cbn [String.append scanString].
    assert (Q : isChar b quote = false).
    { destruct b as [[] [] [] [] [] [] [] []]; try discriminate; reflexivity. }
    assert (E : isSimpleEscape u = false).
    { destruct u as [[] [] [] [] [] [] [] []]; try discriminate; reflexivity. }
    now rewrite Q, Hb, E, Hu, H1, H2, H3, H4, IH.
Qed.

End DecodeFacts.

(** [fetchStatus] decodes the first JSON value of the body and does not
    look at what follows it: after an object, an array, a string, [true],
    [false] or [null], any bytes may come, and the outcome is the same.
    (After a number a digit would go on with the number.) *)
Theorem decodeBody_trailing (body extra : string) (v : Json.value) :
  Json.readValue body = inl v ->
  (forall lit, v <> Json.Number lit) ->
  Json.readValue (body +:+ extra) = inl v
  /\ Json.Decode (body +:+ extra) = Json.Decode body
  /\ decodeBody (body +:+ extra) = decodeBody body.
Proof.
  intros R N.
  pose proof (DecodeFacts.readValue_append body extra v R N) as A.
  assert (D : Json.Decode (body +:+ extra) = Json.Decode body).
  { unfold Json.Decode. now rewrite A, R. }
  split; [exact A |]. split; [exact D |].
  unfold decodeBody. now rewrite D.
Qed.

Lemma decodeBody_trailing_witness :
  decodeBody (json "{'releaseNumber':'v1'}" +:+ "</html> and more")
  = decodeBody (json "{'releaseNumber':'v1'}").
Proof.
  apply (decodeBody_trailing (json "{'releaseNumber':'v1'}") "</html> and more"
           (Json.Object [("releaseNumber", Json.Str "v1")])).
  - reflexivity.
  - discriminate.
Defined.

(** The white space of JSON (space, tab, line feed, carriage return)
    before the value is skipped; a body of white space alone, as the empty
    body is, makes [fetchStatus] fail on [io.EOF]. *)
Theorem decodeBody_leading_space (ws body : string) :
  Json.skipSpace ws = "" ->
  Json.Decode (ws +:+ body) = Json.Decode body
  /\ decodeBody (ws +:+ body) = decodeBody body
  /\ decodeBody ws = ("", Some (DecodeFailed Json.EOF)).
Proof.
  intros H.
  assert (D : Json.Decode (ws +:+ body) = Json.Decode body).
  { unfold Json.Decode. now rewrite (DecodeFacts.readValue_space ws body H). }
  split; [exact D |]. split.
  - unfold decodeBody. now rewrite D.
  - unfold decodeBody, Json.Decode, Json.readValue. now rewrite H.
Qed.

Lemma decodeBody_leading_space_witness :
  decodeBody (String (Strings.byte 10) "  " +:+ json "{'releaseNumber':'v1'}")
  = ("v1", None)
  /\ decodeBody (String (Strings.byte 10) "  ") = ("", Some (DecodeFailed Json.EOF)).
Proof.
  destruct (decodeBody_leading_space (String (Strings.byte 10) "  ")
              (json "{'releaseNumber':'v1'}") eq_refl) as (_ & H1 & H2).
  split; [| exact H2]. rewrite H1. reflexivity.
Defined.

(** The name of a member selects the field [ReleaseNumber] when it is
    [releaseNumber] or differs from it by the case of its letters only, as
    encoding/json folds names: a body with one member whose name and value
    need no escape gives the value when the name selects the field, and
    the empty string, with no error, when it does not. *)
Theorem decodeBody_member (key v : string) :
  JsonSpec.plain key = true ->
  JsonSpec.plain v = true ->
  decodeBody (json "{'" +:+ key +:+ json "':'" +:+ v +:+ json "'}")
  = (if Json.matchesField key then v else "", None).
Proof.
  intros Hk Hv. unfold decodeBody, Json.Decode, Json.readValue.
  set (body := json "{'" +:+ key +:+ json "':'" +:+ v +:+ json "'}").
  assert (F : exists f, 2 * String.length body = S (S (S f))).
  { exists (2 * String.length body - 3). subst body. simpl.
    rewrite StringFacts.length_append. simpl. lia. }
  destruct F as (f & ->).
  subst body. simpl.
  rewrite JsonFacts.scanQuoted_plain by assumption. simpl.
  rewrite JsonFacts.scanQuoted_plain by assumption. simpl.
  now destruct (Json.matchesField key).
Qed.

Lemma decodeBody_member_witness :
  decodeBody (json "{'RELEASENUMBER':'v1'}") = ("v1", None)
  /\ decodeBody (json "{'release_number':'v1'}") = ("", None).
Proof.
  split.
  - exact (decodeBody_member "RELEASENUMBER" "v1" eq_refl eq_refl).
  - exact (decodeBody_member "release_number" "v1" eq_refl eq_refl).
Defined.

(** Every string literal the scanner lets through is a release number:
    whatever its bytes and its escapes, the decoder does not fail on it,
    and the release number is what [unquote] makes of it, the escapes
    replaced and the bytes that are not UTF-8 turned into U+FFFD. *)
Theorem decodeBody_string_literal (raw : string) :
  Json.Scanned raw ->
  exists t,
    Json.unquote raw = Some t
    /\ decodeBody (json "{'releaseNumber':'" +:+ raw +:+ json "'}") = (t, None).
Proof.
  intros H.
  destruct (JsonFacts.Scanned_unquote (String.length raw) raw (le_n _) H) as (t & Ht).
  fold (Json.unquote raw) in Ht.
  exists t. split; [exact Ht |].
  unfold decodeBody, Json.Decode, Json.readValue.
  set (body := json "{'releaseNumber':'" +:+ raw +:+ json "'}").
  assert (F : exists f, 2 * String.length body = S (S (S f))).
  { exists (2 * String.length body - 3). subst body. simpl. lia. }
  destruct F as (f & ->).
  subst body. simpl.
  unfold Json.scanQuoted.
  rewrite (DecodeFacts.Scanned_scanString raw "}" H), Ht.
  reflexivity.
Qed.

Lemma decodeBody_string_literal_witness :
  decodeBody (json "{'releaseNumber':'" +:+ "Winter \u002725\n" +:+ json "'}")
  = ("Winter '25" +:+ String (Strings.byte 10) "", None).
Proof.
  assert (S : Json.Scanned "Winter \u002725\n").
  { repeat first
      [ apply Json.scanned_nil
      | apply Json.scanned_unicode; [reflexivity .. |]
      | apply Json.scanned_escape; [reflexivity .. |]
      | apply Json.scanned_byte; [reflexivity .. |] ]. }
  destruct (decodeBody_string_literal "Winter \u002725\n" S) as (t & Ht & Hd).
  rewrite Hd. vm_compute in Ht. injection Ht as <-. reflexivity.
Defined.

(** ** The command line once more *)

(** The forms of the command line [flag.Parse] takes: a flag is written
    with one or two dashes, its value after [=] or as the next argument,
    whatever that argument is; the flags come in any order, a later one
    replaces an earlier one, and what follows [--] or the first argument
    that is no flag is not read.  With no argument both flags are
    empty. *)
Lemma Parse_forms (i v old : string) (rest : list string) :
  let flags := Flag.Parsed {| Flag.instance := i; Flag.version := v |} in
  Flag.Parse ["-instance"; i; "-version"; v] = flags
  /\ Flag.Parse ["--version"; v; "--instance"; i] = flags
  /\ Flag.Parse ["-instance=" +:+ i; "--version=" +:+ v] = flags
  /\ Flag.Parse ("-instance" :: old :: "-version" :: v :: "-instance" :: i :: "--" :: rest)
     = flags
  /\ Flag.Parse ("-instance" :: i :: "-version" :: v :: "more" :: rest) = flags
  /\ Flag.Parse [] = Flag.Parsed {| Flag.instance := ""; Flag.version := "" |}
  /\ Flag.Parse ("-instance" :: i :: "-version" :: nil) = Flag.Exit 2
  /\ Flag.Parse ("-instance" :: i :: "-verbose" :: rest) = Flag.Exit 2
  /\ Flag.Parse ("-instance" :: i :: "--help" :: rest) = Flag.Exit 0.
Proof. repeat split. Qed.
